(** * PlexShelf Series Manager: the matching engine, its external lookup
      and the review operations, embedded from the Python sources.

    Conventions of the embedding.
    - Python [str] values are Rocq [string]s over ASCII code points; [None]
      is the [None] of an [option].  Python truthiness of an optional
      string is [truthy].
    - The SQLAlchemy session is an explicit record [DB] of three tables,
      each a list in row-id order; a query without ORDER BY scans in that
      order, so [.first()] is the first row of the list that passes the
      filter.
    - [time.time()] and the network are an explicit [World] (a clock in
      milliseconds and the log of requests sent) plus response oracles.
    - [fuzz.ratio] and [fuzz.partial_ratio] belong to the fuzzywuzzy
      package, not to this repository: they are parameters of the
      matcher. *)

From Stdlib Require Import ZArith Lia Bool Ascii String List.
From stdpp Require Import base option list gmap strings.

Local Open Scope string_scope.
Local Open Scope Z_scope.

(** ** Text helpers: [str.lower], [str.strip], truthiness

    A text is a string of characters below 128.  On these, [is_space],
    [is_digit] and [lower_char] are what [str.isspace], [\d] and
    [str.lower] are in Python; the Unicode white space, digits and case
    pairs that Python also knows are outside these definitions, and the
    properties that depend on how a character is classed are stated for
    ASCII text. *)

Module Text.

Definition code (c : ascii) : N := N_of_ascii c.

Definition between (lo hi : N) (c : ascii) : bool :=
  ((lo <=? code c)%N && (code c <=? hi)%N)%bool.

(** [c.isspace()] on ASCII: TAB..CR, FS..US and the blank. *)
Definition is_space (c : ascii) : bool :=
  (between 9 13 c || between 28 32 c)%bool.

(** [\d] on ASCII: the digits 0-9. *)
Definition is_digit (c : ascii) : bool := between 48 57 c.

Definition lower_char (c : ascii) : ascii :=
  if between 65 90 c then ascii_of_N (code c + 32) else c.

Fixpoint lower (s : string) : string :=
  match s with
  | EmptyString => EmptyString
  | String c s' => String (lower_char c) (lower s')
  end.

Fixpoint lstrip (s : string) : string :=
  match s with
  | EmptyString => EmptyString
  | String c s' => if is_space c then lstrip s' else s
  end.

Fixpoint rstrip (s : string) : string :=
  match s with
  | EmptyString => EmptyString
  | String c s' =>
      match rstrip s' with
      | EmptyString => if is_space c then EmptyString else String c EmptyString
      | r => String c r
      end
  end.

Definition strip (s : string) : string := rstrip (lstrip s).

Definition nonempty (s : string) : bool :=
  match s with EmptyString => false | String _ _ => true end.

(** Python truthiness of a value that is [None] or a [str]. *)
Definition truthy (o : option string) : bool :=
  match o with Some s => nonempty s | None => false end.

(** What an f-string prints for a value that is [None] or a [str]. *)
Definition fmt (o : option string) : string :=
  match o with Some s => s | None => "None" end.

Fixpoint take (n : nat) (s : string) : string :=
  match n, s with
  | S n', String c s' => String c (take n' s')
  | _, _ => EmptyString
  end.

End Text.

(** ** The fragment of Python's [re] used by the title patterns

    A pattern is compiled to a flat sequence of items: single characters,
    optional characters, repetitions of a character class (greedy or
    lazy) and the two ends of a capture group.  The patterns of the
    matcher need nothing else: no alternation, and no quantifier over a
    group.  The matcher is the backtracking one of [re]: alternatives are
    explored in priority order and the first success is the answer.
    Character classes and [re.IGNORECASE] are those of ASCII text. *)

Module Re.
Import Text.

Inductive cls : Type :=
  | CAny                       (* .   : anything but a newline *)
  | CSpace                     (* \s *)
  | CDigit                     (* \d *)
  | CLit (c : ascii)           (* a literal, under re.IGNORECASE *)
  | CSet (neg : bool) (cs : list ascii).   (* [...] and [^...] *)

Definition ascii_in (c : ascii) (cs : list ascii) : bool :=
  existsb (Ascii.eqb c) cs.

Definition cls_ok (k : cls) (c : ascii) : bool :=
  match k with
  | CAny => negb (Ascii.eqb c "010")
  | CSpace => is_space c
  | CDigit => is_digit c
  | CLit l => Ascii.eqb (lower_char c) (lower_char l)
  | CSet neg cs => xorb neg (ascii_in c cs)
  end.

Inductive item : Type :=
  | One (k : cls)
  | Maybe (k : cls)                          (* k?  *)
  | Many (greedy : bool) (lo : nat) (k : cls)  (* k* k+ k*? k+? *)
  | Open (g : nat)
  | Close (g : nat).

(** Capture state: where each open group started (as the input that was
    left at that point) and the text of each closed group. *)
Record caps : Type := mkCaps {
  starts : list (nat * string);
  groups : list (nat * string)
}.

Definition no_caps : caps := mkCaps [] [].

Fixpoint assoc {A : Type} (g : nat) (l : list (nat * A)) : option A :=
  match l with
  | [] => None
  | (k, v) :: l' => if Nat.eqb k g then Some v else assoc g l'
  end.

Definition open_group (g : nat) (s : string) (st : caps) : caps :=
  mkCaps ((g, s) :: starts st) (groups st).

Definition close_group (g : nat) (s : string) (st : caps) : caps :=
  match assoc g (starts st) with
  | Some s0 =>
      mkCaps (starts st)
             ((g, take (String.length s0 - String.length s) s0) :: groups st)
  | None => st
  end.

Definition group (g : nat) (st : caps) : option string := assoc g (groups st).

Fixpoint match_here (re : list item) (s : string) (st : caps) {struct re}
  : option caps :=
  match re with
  | [] => Some st
  | One k :: re' =>
      match s with
      | String c s' => if cls_ok k c then match_here re' s' st else None
      | EmptyString => None
      end
  | Maybe k :: re' =>
      match s with
      | String c s' =>
          if cls_ok k c then
            match match_here re' s' st with
            | Some r => Some r
            | None => match_here re' s st
            end
          else match_here re' s st
      | EmptyString => match_here re' s st
      end
  | Many greedy lo k :: re' =>
      (fix rep (need : nat) (s : string) {struct s} : option caps :=
         let more :=
           match s with
           | String c s' => if cls_ok k c then rep (Nat.pred need) s' else None
           | EmptyString => None
           end in
         match need with
         | S _ => more
         | O =>
             if greedy then
               match more with
               | Some r => Some r
               | None => match_here re' s st
               end
             else
               match match_here re' s st with
               | Some r => Some r
               | None => more
               end
         end) lo s
  | Open g :: re' => match_here re' s (open_group g s st)
  | Close g :: re' => match_here re' s (close_group g s st)
  end.

(** [re.search]: the leftmost start position at which the pattern matches. *)
Fixpoint search (re : list item) (s : string) : option caps :=
  match match_here re s no_caps with
  | Some r => Some r
  | None =>
      match s with
      | String _ s' => search re s'
      | EmptyString => None
      end
  end.

(** *** Reading a pattern

    [compile] reads the concrete syntax the patterns are written in:
    escapes [\s \d \( \) \. \#], classes [[...]] and [[^...]], the dot,
    groups, and the postfix operators [? * + *? +?] on a single
    character.  Groups are numbered by their opening parenthesis and are
    not nested. *)

Fixpoint read_set (s : string) (acc : list ascii) : list ascii * string :=
  match s with
  | EmptyString => (acc, EmptyString)
  | String c s' =>
      if Ascii.eqb c "]" then (acc, s') else read_set s' (acc ++ [c])
  end.

Definition quantify (k : cls) (s : string) : item * string :=
  match s with
  | String "?" s' => (Maybe k, s')
  | String "*" (String "?" s') => (Many false 0 k, s')
  | String "*" s' => (Many true 0 k, s')
  | String "+" (String "?" s') => (Many false 1 k, s')
  | String "+" s' => (Many true 1 k, s')
  | _ => (One k, s)
  end.

Definition escape (c : ascii) : cls :=
  if Ascii.eqb c "s" then CSpace
  else if Ascii.eqb c "d" then CDigit
  else CSet false [c].

Fixpoint compile_from (fuel : nat) (ngroups : nat) (s : string) : list item :=
  match fuel with
  | O => []
  | S fuel' =>
      match s with
      | EmptyString => []
      | String "(" s' => Open (S ngroups) :: compile_from fuel' (S ngroups) s'
      | String ")" s' => Close ngroups :: compile_from fuel' ngroups s'
      | String "\" (String c s') =>
          let '(it, rest) := quantify (escape c) s' in
          it :: compile_from fuel' ngroups rest
      | String "[" (String "^" s') =>
          let '(cs, rest) := read_set s' [] in
          let '(it, rest') := quantify (CSet true cs) rest in
          it :: compile_from fuel' ngroups rest'
      | String "[" s' =>
          let '(cs, rest) := read_set s' [] in
          let '(it, rest') := quantify (CSet false cs) rest in
          it :: compile_from fuel' ngroups rest'
      | String "." s' =>
          let '(it, rest) := quantify CAny s' in
          it :: compile_from fuel' ngroups rest
      | String c s' =>
          let '(it, rest) := quantify (CLit c) s' in
          it :: compile_from fuel' ngroups rest
      end
  end.

Definition compile (pattern : string) : list item :=
  compile_from (String.length pattern) 0%nat pattern.

(** [re.search(pattern, s, re.IGNORECASE)] *)
Definition re_search (pattern s : string) : option caps :=
  search (compile pattern) s.

End Re.

(** ** Title patterns: [SeriesMatcher.extract_series_info] *)

Module Extract.
Import Text Re.

(** [self.series_patterns], set in [SeriesMatcher.__init__]. *)
Definition series_patterns : list string :=
  [ "(.+?)\s*[,:-]\s*Book\s+(\d+)";
    "(.+?)\s*[,:-]\s*Vol\.?\s+(\d+)";
    "(.+?)\s*[,:-]\s*Volume\s+(\d+)";
    "(.+?)\s*\(Book\s+(\d+)\)";
    "(.+?)\s*#(\d+)";
    "(.+?)\s*-\s*(\d+)" ].

Definition parenthetical_patterns : list string :=
  [ "\(([^,]+?),?\s*Book\s+(\d+)\)";
    "\(([^,]+?)\s+Book\s+(\d+)\)";
    "\(([^,]+?)\s*#(\d+)\)";
    "\(([^,]+?),?\s*Vol\.?\s+(\d+)\)";
    "\(([^,]+?),?\s*Volume\s+(\d+)\)" ].

(** The body shared by the two loops: the stripped groups 1 and 2 of a
    match. *)
Definition captures (m : caps) : option string * option string :=
  (strip <$> group 1 m, strip <$> group 2 m).

(** One [for pattern in ...] loop: return at the first pattern that
    matches. *)
Fixpoint first_match (patterns : list string) (title : string)
  : option (option string * option string) :=
  match patterns with
  | [] => None
  | p :: ps =>
      match re_search p title with
      | Some m => Some (captures m)
      | None => first_match ps title
      end
  end.

Definition extract_series_info (title : string)
  : option string * option string :=
  if negb (nonempty title) then (None, None)
  else
    match first_match parenthetical_patterns title with
    | Some r => r
    | None =>
        match first_match series_patterns title with
        | Some r => r
        | None => (None, None)
        end
    end.

End Extract.

(** ** The tables: [database/models.py]

    Only the columns the matcher and the review operations read or write
    are kept.  Scores are Python integers. *)

Module AudiobookItem.
Record t : Type := mk {
  id : Z;
  title : string;
  author : option string;
  series_title : option string;
  series_index : option string
}.
Definition set_series_index (a : t) (v : option string) : t :=
  mk (id a) (title a) (author a) (series_title a) v.
End AudiobookItem.

Module Series.
Record t : Type := mk {
  id : Z;
  series_name : string;
  author : option string;
  total_books : Z
}.
End Series.

Module SeriesMatch.
Record t : Type := mk {
  id : Z;
  audiobook_id : Z;
  series_id : Z;
  confidence_score : Z;
  match_method : string;
  user_approved : bool;
  user_rejected : bool
}.
Definition set_score (m : t) (confidence : Z) (method : string) : t :=
  mk (id m) (audiobook_id m) (series_id m) confidence method
     (user_approved m) (user_rejected m).
Definition set_flags (m : t) (approved rejected : bool) : t :=
  mk (id m) (audiobook_id m) (series_id m) (confidence_score m)
     (match_method m) approved rejected.
Definition set_approved (m : t) (approved : bool) : t :=
  set_flags m approved (user_rejected m).
End SeriesMatch.

Record DB : Type := mkDB {
  audiobook_items : list AudiobookItem.t;
  series : list Series.t;
  series_matches : list SeriesMatch.t
}.

(** The row id SQLite gives an inserted row: one more than the largest
    in the table. *)
Definition next_id (ids : list Z) : Z := 1 + fold_right Z.max 0 ids.

(** [UPDATE] of the first row that passes [p], the row [.first()] returned. *)
Fixpoint update_first {A : Type} (p : A -> bool) (f : A -> A) (l : list A)
  : list A :=
  match l with
  | [] => []
  | x :: l' => if p x then f x :: l' else x :: update_first p f l'
  end.

(** ** SQL [LIKE], as [Series.series_name.ilike(...)] uses it

    [%] stands for any run of characters and [_] for any one character;
    SQLAlchemy renders [ilike] for SQLite as [lower(x) LIKE lower(y)]. *)

Module Sql.
Import Text.

Fixpoint like (pattern text : string) {struct pattern} : bool :=
  match pattern with
  | EmptyString =>
      match text with EmptyString => true | String _ _ => false end
  | String p pattern' =>
      if Ascii.eqb p "%" then
        (fix any (text : string) : bool :=
           (like pattern' text
            || match text with
               | EmptyString => false
               | String _ text' => any text'
               end)%bool) text
      else
        match text with
        | EmptyString => false
        | String c text' =>
            ((Ascii.eqb p "_" || Ascii.eqb p c) && like pattern' text')%bool
        end
  end.

Definition ilike (column pattern : string) : bool :=
  like (lower pattern) (lower column).

End Sql.

(** ** External lookup: [external/series_lookup.py] *)

Module SeriesLookup.
Import Text.

(** The dict a lookup returns; only these two keys are ever read. *)
Record result : Type := mkResult {
  series_name : option string;
  series_index : option string
}.

(** What was sent over the network. *)
Inductive request : Type :=
  | GoogleBooks (query : string)
  | OpenAI (title : string) (author : option string).

(** Outcome of [openai_client.chat.completions.create] followed by
    [json.loads]. *)
Inductive ai_reply : Type :=
  | AiRaise                      (* the call, or reading the reply, raises *)
  | AiNotJson                    (* json.JSONDecodeError *)
  | AiJson (r : result).

(** What the code reads in a Google Books reply. *)
Inductive body : Type :=
  | BodyRaise                    (* response.json() or an index raises *)
  | BodyNoItems                  (* totalItems missing or 0 *)
  | BodyItem (series_info : option result).  (* volumeInfo.seriesInfo of items[0] *)

Inductive http_reply : Type :=
  | NetRaise                     (* session.get raises *)
  | Http (status_code : Z) (b : body).

(** The clock (milliseconds) and the requests sent so far, oldest first. *)
Record World : Type := mkWorld {
  clock : Z;
  sent : list request
}.

(** The outside: what each request is answered, given everything sent
    before it and the time it is sent at, and how long the answer took. *)
Record Net : Type := mkNet {
  google : World -> string -> http_reply * Z;
  openai : World -> string -> option string -> ai_reply * Z
}.

Definition sleep (d : Z) (w : World) : World := mkWorld (clock w + d) (sent w).

Definition after (r : request) (took : Z) (w : World) : World :=
  mkWorld (clock w + took) (sent w ++ [r]).

Record t : Type := mk {
  provider : string;
  openai_client : bool;
  cache : gmap string (option result);
  last_request_time : Z;
  min_request_interval : Z;
  rate_limited_until : Z
}.

Definition set_cache (l : t) (k : string) (v : option result) : t :=
  mk (provider l) (openai_client l) (<[k := v]> (cache l))
     (last_request_time l) (min_request_interval l) (rate_limited_until l).

Definition set_last_request_time (l : t) (v : Z) : t :=
  mk (provider l) (openai_client l) (cache l) v
     (min_request_interval l) (rate_limited_until l).

Definition set_rate_limited_until (l : t) (v : Z) : t :=
  mk (provider l) (openai_client l) (cache l) (last_request_time l)
     (min_request_interval l) v.

(** [SeriesLookup.__init__]; [client_ok] tells whether [OpenAI(api_key=...)]
    returned a client. *)
Definition init (provider : string) (api_key : option string)
    (client_ok : bool) : t :=
  mk provider
     (String.eqb provider "openai" && truthy api_key && client_ok)%bool
     ∅ 0
     (if String.eqb provider "google_books" then 2000 else 100)
     0.

Definition cooldown : Z := 60000.

Definition _lookup_openai (net : Net) (l : t) (w : World)
    (title : string) (author : option string) : t * World * option result :=
  let cache_key := "openai:" ++ title ++ ":" ++ fmt author in
  match cache l !! cache_key with
  | Some v => (l, w, v)
  | None =>
      let '(reply, took) := openai net w title author in
      let w' := after (OpenAI title author) took w in
      match reply with
      | AiJson r =>
          if truthy (series_name r)
          then (set_cache l cache_key (Some r), w', Some r)
          else (set_cache l cache_key None, w', None)
      | AiNotJson => (set_cache l cache_key None, w', None)
      | AiRaise => (set_cache l cache_key None, w', None)
      end
  end.

Definition dq : string := String (ascii_of_N 34) EmptyString.

Definition google_query (title : string) (author : option string) : string :=
  let query := "intitle:" ++ dq ++ title ++ dq in
  if truthy author then query ++ " inauthor:" ++ dq ++ fmt author ++ dq
  else query.

Definition _lookup_google_books (net : Net) (l : t) (w : World)
    (title : string) (author : option string) : t * World * option result :=
  let cache_key := title ++ ":" ++ fmt author in
  match cache l !! cache_key with
  | Some v => (l, w, v)
  | None =>
      let current_time := clock w in
      if current_time <? rate_limited_until l then
        (set_cache l cache_key None, w, None)
      else
        let time_since_last := current_time - last_request_time l in
        let w :=
          if time_since_last <? min_request_interval l
          then sleep (min_request_interval l - time_since_last) w
          else w in
        let query := google_query title author in
        let l := set_last_request_time l (clock w) in
        let '(reply, took) := google net w query in
        let w := after (GoogleBooks query) took w in
        match reply with
        | NetRaise => (set_cache l cache_key None, w, None)
        | Http status_code b =>
            if status_code =? 429 then
              let l := set_rate_limited_until l (clock w + cooldown) in
              (set_cache l cache_key None, w, None)
            else if (400 <=? status_code) && (status_code <? 600) then
              (* raise_for_status: the HTTPError handler *)
              let l :=
                if status_code =? 429
                then set_rate_limited_until l (clock w + cooldown)
                else l in
              (set_cache l cache_key None, w, None)
            else
              match b with
              | BodyRaise => (set_cache l cache_key None, w, None)
              | BodyNoItems => (set_cache l cache_key None, w, None)
              | BodyItem (Some r) => (set_cache l cache_key (Some r), w, Some r)
              | BodyItem None => (set_cache l cache_key None, w, None)
              end
        end
  end.

Definition lookup_by_title_author (net : Net) (l : t) (w : World)
    (title : string) (author : option string) : t * World * option result :=
  if (String.eqb (provider l) "openai" && openai_client l)%bool
  then _lookup_openai net l w title author
  else _lookup_google_books net l w title author.

End SeriesLookup.

(** ** The fuzzywuzzy scorers, as an interface *)

Class Fuzz : Type := {
  ratio : string -> string -> Z;
  partial_ratio : string -> string -> Z
}.

(** ** The matcher: [matching/series_matcher.py] *)

Module SeriesMatcher.
Import Text.

Record t : Type := mk {
  confidence_threshold : Z;
  use_external_lookup : bool;
  series_lookup : option SeriesLookup.t
}.

(** Default of the [confidence_threshold] argument of [__init__]. *)
Definition default_confidence_threshold : Z := 70.

Definition find_or_create_series (db : DB) (series_name : string)
    (author : option string) : DB * Series.t :=
  match
    List.find
      (fun s => Sql.ilike (Series.series_name s) ("%" ++ series_name ++ "%"))
      (series db)
  with
  | Some s => (db, s)
  | None =>
      let s := Series.mk (next_id (map Series.id (series db)))
                         series_name author 0 in
      (mkDB (audiobook_items db) (series db ++ [s]) (series_matches db), s)
  end.

Definition same_pair (audiobook_id series_id : Z) (m : SeriesMatch.t) : bool :=
  ((SeriesMatch.audiobook_id m =? audiobook_id)
   && (SeriesMatch.series_id m =? series_id))%bool.

Definition match_audiobook_to_series (db : DB) (audiobook : AudiobookItem.t)
    (s : Series.t) (confidence : Z) (method : string) : DB :=
  let mine := same_pair (AudiobookItem.id audiobook) (Series.id s) in
  match List.find mine (series_matches db) with
  | Some _ =>
      mkDB (audiobook_items db) (series db)
           (update_first mine
              (fun m => SeriesMatch.set_score m confidence method)
              (series_matches db))
  | None =>
      let m := SeriesMatch.mk
                 (next_id (map SeriesMatch.id (series_matches db)))
                 (AudiobookItem.id audiobook) (Series.id s)
                 confidence method false false in
      mkDB (audiobook_items db) (series db) (series_matches db ++ [m])
  end.

Section WithFuzz.
Context {fuzz : Fuzz}.

(** The score the loop of [_fuzzy_match_to_existing_series] gives one
    series. *)
Definition fuzzy_score (audiobook : AudiobookItem.t) (s : Series.t) : Z :=
  let score := partial_ratio (lower (AudiobookItem.title audiobook))
                             (lower (Series.series_name s)) in
  if (truthy (AudiobookItem.author audiobook) && truthy (Series.author s))%bool
  then
    if ratio (lower (fmt (AudiobookItem.author audiobook)))
             (lower (fmt (Series.author s))) >? 80
    then score + 10 else score
  else score.

Definition fuzzy_best (threshold : Z) (audiobook : AudiobookItem.t)
    (all_series : list Series.t) : option Series.t * Z :=
  fold_left
    (fun (best : option Series.t * Z) (s : Series.t) =>
       let score := fuzzy_score audiobook s in
       if ((score >? snd best) && (score >=? threshold))%bool
       then (Some s, score) else best)
    all_series (None, 0).

Definition _fuzzy_match_to_existing_series (m : t) (db : DB)
    (audiobook : AudiobookItem.t) : DB * AudiobookItem.t :=
  match fuzzy_best (confidence_threshold m) audiobook (series db) with
  | (Some best_match, best_score) =>
      let db := match_audiobook_to_series db audiobook best_match best_score
                                          "fuzzy_match" in
      let '(_, series_index) :=
        Extract.extract_series_info (AudiobookItem.title audiobook) in
      if truthy series_index
      then (db, AudiobookItem.set_series_index audiobook series_index)
      else (db, audiobook)
  | (None, _) => (db, audiobook)
  end.

(** What the loop of [match_all_audiobooks] carries from one audiobook to
    the next. *)
Record state : Type := mkState {
  matcher : t;
  world : SeriesLookup.World;
  db : DB;
  matches_found : Z
}.

(** The external lookup at the head of the loop body; [None] also when no
    provider is set up. *)
Definition external_lookup (net : SeriesLookup.Net) (st : state)
    (audiobook : AudiobookItem.t)
  : state * option SeriesLookup.result :=
  match use_external_lookup (matcher st), series_lookup (matcher st) with
  | true, Some l =>
      let '(l', w', r) :=
        SeriesLookup.lookup_by_title_author net l (world st)
          (AudiobookItem.title audiobook) (AudiobookItem.author audiobook) in
      (mkState (mk (confidence_threshold (matcher st))
                   (use_external_lookup (matcher st)) (Some l'))
               w' (db st) (matches_found st), r)
  | _, _ => (st, None)
  end.

Definition with_db (st : state) (d : DB) (found : Z) : state :=
  mkState (matcher st) (world st) d found.

(** The branch taken when the external lookup gave a series name. *)
Definition on_external (st : state) (audiobook : AudiobookItem.t)
    (r : SeriesLookup.result) : state * AudiobookItem.t :=
  let '(d, s) := find_or_create_series (db st)
                   (fmt (SeriesLookup.series_name r))
                   (AudiobookItem.author audiobook) in
  let d := match_audiobook_to_series d audiobook s 98 "external_api" in
  let audiobook :=
    if truthy (SeriesLookup.series_index r)
    then AudiobookItem.set_series_index audiobook (SeriesLookup.series_index r)
    else
      let '(_, series_index) :=
        Extract.extract_series_info (AudiobookItem.title audiobook) in
      if truthy series_index
      then AudiobookItem.set_series_index audiobook series_index
      else audiobook in
  (with_db st d (matches_found st + 1), audiobook).

(** The rest of the loop body, reached when the external branch did not
    [continue]. *)
Definition match_local (st : state) (audiobook : AudiobookItem.t)
  : state * AudiobookItem.t :=
  if truthy (AudiobookItem.series_title audiobook) then
    let '(d, s) := find_or_create_series (db st)
                     (fmt (AudiobookItem.series_title audiobook))
                     (AudiobookItem.author audiobook) in
    let d := match_audiobook_to_series d audiobook s 95 "metadata" in
    (with_db st d (matches_found st + 1), audiobook)
  else
    let '(series_name, series_index) :=
      Extract.extract_series_info (AudiobookItem.title audiobook) in
    if truthy series_name then
      let '(d, s) := find_or_create_series (db st) (fmt series_name)
                       (AudiobookItem.author audiobook) in
      let d := match_audiobook_to_series d audiobook s 85 "title_pattern" in
      (with_db st d (matches_found st + 1),
       AudiobookItem.set_series_index audiobook series_index)
    else
      let '(d, audiobook) :=
        _fuzzy_match_to_existing_series (matcher st) (db st) audiobook in
      (with_db st d (matches_found st), audiobook).

(** The body of the [for audiobook in audiobooks] loop. *)
Definition match_one (net : SeriesLookup.Net) (st : state)
    (audiobook : AudiobookItem.t) : state * AudiobookItem.t :=
  let '(st, external_result) := external_lookup net st audiobook in
  match external_result with
  | Some r =>
      if truthy (SeriesLookup.series_name r)
      then on_external st audiobook r
      else match_local st audiobook
  | None => match_local st audiobook
  end.

(** The loop: the audiobooks are the rows read at the start; each one is
    written back with the series index the body gave it. *)
Fixpoint match_loop (net : SeriesLookup.Net) (st : state)
    (audiobooks : list AudiobookItem.t) : state * list AudiobookItem.t :=
  match audiobooks with
  | [] => (st, [])
  | audiobook :: rest =>
      let '(st, audiobook) := match_one net st audiobook in
      let '(st, rest) := match_loop net st rest in
      (st, audiobook :: rest)
  end.

(** [match_all_audiobooks]: the matcher and the world after the run, the
    tables after the run, and the number returned. *)
Definition match_all_audiobooks (net : SeriesLookup.Net) (m : t)
    (w : SeriesLookup.World) (d : DB)
  : t * SeriesLookup.World * DB * Z :=
  let '(st, audiobooks) :=
    match_loop net (mkState m w d 0) (audiobook_items d) in
  (matcher st, world st,
   mkDB audiobooks (series (db st)) (series_matches (db st)),
   matches_found st).

End WithFuzz.
End SeriesMatcher.

(** ** Review operations: [web_app.py] routes and [SeriesReviewPanel] *)

Module Review.

Definition has_id (match_id : Z) (m : SeriesMatch.t) : bool :=
  SeriesMatch.id m =? match_id.

(** The filter [user_approved == False, user_rejected == False]. *)
Definition pending (m : SeriesMatch.t) : bool :=
  (negb (SeriesMatch.user_approved m) && negb (SeriesMatch.user_rejected m))%bool.

Definition on_matches (f : list SeriesMatch.t -> list SeriesMatch.t)
    (d : DB) : DB :=
  mkDB (audiobook_items d) (series d) (f (series_matches d)).

(** [approve_match] and [reject_match] of the web application:
    [session.query(SeriesMatch).get(match_id)], then the two
    assignments when a row came back. *)
Definition approve_match (match_id : Z) : DB -> DB :=
  on_matches (update_first (has_id match_id)
                (fun m => SeriesMatch.set_flags m true false)).

Definition reject_match (match_id : Z) : DB -> DB :=
  on_matches (update_first (has_id match_id)
                (fun m => SeriesMatch.set_flags m false true)).

(** [approve_all_matches] and [reject_all_matches] of the web
    application. *)
Definition approve_all_matches : DB -> DB :=
  on_matches (map (fun m =>
    if pending m then SeriesMatch.set_flags m true false else m)).

Definition reject_all_matches : DB -> DB :=
  on_matches (map (fun m =>
    if pending m then SeriesMatch.set_flags m false true else m)).

(** The panel: the same two assignments for each selected row. *)
Definition _approve_selected (selected : list Z) (d : DB) : DB :=
  fold_left (fun d match_id => approve_match match_id d) selected d.

Definition _reject_selected (selected : list Z) (d : DB) : DB :=
  fold_left (fun d match_id => reject_match match_id d) selected d.

(** The score bound written in [_approve_high_confidence]. *)
Definition high_confidence : Z := 90.

Definition is_high_confidence (m : SeriesMatch.t) : bool :=
  ((SeriesMatch.confidence_score m >=? high_confidence) && pending m)%bool.

(** [_approve_high_confidence]: only [user_approved] is assigned. *)
Definition _approve_high_confidence : DB -> DB :=
  on_matches (map (fun m =>
    if is_high_confidence m then SeriesMatch.set_approved m true else m)).

(** The operations a reviewer can issue, and a session of them. *)
Inductive op : Type :=
  | Approve (match_id : Z)
  | Reject (match_id : Z)
  | ApproveAll
  | RejectAll
  | ApproveSelected (selected : list Z)
  | RejectSelected (selected : list Z)
  | ApproveHighConfidence.

Definition apply (d : DB) (o : op) : DB :=
  match o with
  | Approve i => approve_match i d
  | Reject i => reject_match i d
  | ApproveAll => approve_all_matches d
  | RejectAll => reject_all_matches d
  | ApproveSelected ids => _approve_selected ids d
  | RejectSelected ids => _reject_selected ids d
  | ApproveHighConfidence => _approve_high_confidence d
  end.

Definition run (ops : list op) (d : DB) : DB := fold_left apply ops d.

(** At most one of the two flags is set. *)
Definition exclusive (m : SeriesMatch.t) : bool :=
  negb (SeriesMatch.user_approved m && SeriesMatch.user_rejected m).

End Review.

(** ** Queries of the matcher and the views of the review screens *)

Module Queries.

(** [SeriesMatcher.get_unmatched_audiobooks]: the audiobooks whose id is
    not the [audiobook_id] of any membership. *)
Definition get_unmatched_audiobooks (d : DB) : list AudiobookItem.t :=
  let matched_ids := map SeriesMatch.audiobook_id (series_matches d) in
  List.filter
    (fun a => negb (existsb (Z.eqb (AudiobookItem.id a)) matched_ids))
    (audiobook_items d).

(** [SeriesMatcher.get_pending_matches] *)
Definition get_pending_matches (d : DB) : list SeriesMatch.t :=
  List.filter Review.pending (series_matches d).

(** The filter of [view_matches] (web) and [load_matches] (panel): any
    value other than the three named ones shows every membership. *)
Definition filter_matches (filter_status : string) (d : DB)
  : list SeriesMatch.t :=
  if String.eqb filter_status "pending"
  then List.filter Review.pending (series_matches d)
  else if String.eqb filter_status "approved"
  then List.filter SeriesMatch.user_approved (series_matches d)
  else if String.eqb filter_status "rejected"
  then List.filter SeriesMatch.user_rejected (series_matches d)
  else series_matches d.

(** The status column of [load_matches]. *)
Definition status (m : SeriesMatch.t) : string :=
  if SeriesMatch.user_approved m then "Approved"
  else if SeriesMatch.user_rejected m then "Rejected"
  else "Pending".

(** [session.delete] of the row [session.query(SeriesMatch).get(id)]
    returned. *)
Fixpoint delete_first {A : Type} (p : A -> bool) (l : list A) : list A :=
  match l with
  | [] => []
  | x :: l' => if p x then l' else x :: delete_first p l'
  end.

(** [SeriesReviewPanel._remove_match], once the user has confirmed. *)
Definition _remove_match (selected : list Z) (d : DB) : DB :=
  fold_left
    (fun d match_id =>
       Review.on_matches (delete_first (Review.has_id match_id)) d)
    selected d.

End Queries.

(** ** The configuration: [config/config_manager.py]

    The configuration is a dict of dicts.  A dict keeps its keys in the
    order they were first assigned; keys are strings, as in the default
    configuration.  What is not a dict is a leaf.  This module describes
    a configuration by what it holds, a tree of values; the dict objects
    themselves, which Python stores and hands out by reference, are in
    [ConfigStore] below. *)

Module ConfigManager.

#[warnings="-register-all"] Inductive value (A : Type) : Type :=
  | Leaf (a : A)
  | Dict (items : list (string * value A)).
Arguments Leaf {A} a.
Arguments Dict {A} items.

(** The scalars of the default configuration. *)
Inductive scalar : Type :=
  | Str (s : string)
  | Int (z : Z)
  | Bool (b : bool).

Section Dicts.
Context {A : Type}.

Definition dict : Type := list (string * value A).

(** [d[key]], when [key in d]. *)
Fixpoint lookup (key : string) (d : dict) : option (value A) :=
  match d with
  | [] => None
  | (k, v) :: d' => if String.eqb k key then Some v else lookup key d'
  end.

(** [key in d] *)
Definition has (key : string) (d : dict) : bool :=
  match lookup key d with Some _ => true | None => false end.

(** [d[key] = v]: in place when the key is there, at the end otherwise. *)
Fixpoint assign (key : string) (v : value A) (d : dict) : dict :=
  match d with
  | [] => [(key, v)]
  | (k, x) :: d' =>
      if String.eqb k key then (k, v) :: d' else (k, x) :: assign key v d'
  end.

(** [s.split(sep)] for a one-character separator. *)
Fixpoint split (sep : ascii) (s : string) : list string :=
  match s with
  | EmptyString => [EmptyString]
  | String c s' =>
      if Ascii.eqb c sep then EmptyString :: split sep s'
      else
        match split sep s' with
        | h :: t => String c h :: t
        | [] => [String c EmptyString]
        end
  end.

(** The loop of [get]; [None] when it returns the default. *)
Fixpoint get_keys (keys : list string) (v : value A) : option (value A) :=
  match keys with
  | [] => Some v
  | key :: keys' =>
      match v with
      | Dict d =>
          match lookup key d with
          | Some v' => get_keys keys' v'
          | None => None
          end
      | Leaf _ => None
      end
  end.

Definition get (config : dict) (key_path : string) (default : value A)
  : value A :=
  match get_keys (split "." key_path) (Dict config) with
  | Some v => v
  | None => default
  end.

(** [set]: the loop over [keys[:-1]] and the final assignment.  [None]
    when an exception is raised, which happens when the path runs into a
    leaf; the configuration is then as it was, since no dict is created
    above a leaf. *)
Fixpoint set_keys (keys : list string) (v : value A) (config : dict)
  : option dict :=
  match keys with
  | [] => None
  | key :: keys' =>
      match keys' with
      | [] => Some (assign key v config)
      | _ :: _ =>
          let config1 :=
            if has key config then config else assign key (Dict []) config in
          match lookup key config1 with
          | Some (Dict child) =>
              match set_keys keys' v child with
              | Some child' => Some (assign key (Dict child') config1)
              | None => None
              end
          | _ => None
          end
      end
  end.

Definition set (config : dict) (key_path : string) (v : value A)
  : option dict :=
  set_keys (split "." key_path) v config.



End Dicts.

Definition _load_default_config : @dict scalar :=
  [ ("plex", Dict [ ("url", Leaf (Str ""));
                    ("token", Leaf (Str ""));
                    ("library_name", Leaf (Str "Audiobooks"));
                    ("timeout", Leaf (Int 30)) ]);
    ("matching", Dict [ ("confidence_threshold", Leaf (Int 70));
                        ("auto_approve_threshold", Leaf (Int 95));
                        ("fuzzy_match_enabled", Leaf (Bool true)) ]);
    ("external_api", Dict [ ("provider", Leaf (Str "openai"));
                            ("openai_api_key", Leaf (Str ""));
                            ("openai_model", Leaf (Str "gpt-4o-mini"));
                            ("enabled", Leaf (Bool false)) ]);
    ("ui", Dict [ ("theme", Leaf (Str "default"));
                  ("window_size", Leaf (Str "1024x768"));
                  ("auto_refresh", Leaf (Bool false)) ]);
    ("logging", Dict [ ("level", Leaf (Str "INFO"));
                       ("file", Leaf (Str "/config/plexshelf.log")) ]) ].

End ConfigManager.

(** ** The configuration as objects

    Python holds a dict by reference: [get] hands out the dict object
    stored under a key, [set] stores the object it is given, and a dict
    object stored in two places is one dict.  Here the dict objects live
    in a store, a value is a leaf or a reference to a dict object, and
    [self.config] is a reference.  Objects are numbered in the order
    they are created. *)

Module ConfigStore.

Inductive value (A : Type) : Type :=
  | Leaf (a : A)
  | Ref (l : nat).
Arguments Leaf {A} a.
Arguments Ref {A} l.

(** A dict object, and the dict objects there are. *)
Abbreviation dict A := (list (string * value A)%type).
Abbreviation store A := (list (list (string * value A)%type)).

Section Objects.
Context {A : Type}.

Record t : Type := mk {
  objects : store A;
  config : nat
}.

(** [d[key]], when [key in d]. *)
Fixpoint lookup (key : string) (d : dict A) : option (value A) :=
  match d with
  | [] => None
  | (k, v) :: d' => if String.eqb k key then Some v else lookup key d'
  end.

(** [d[key] = v]: in place when the key is there, at the end otherwise. *)
Fixpoint assign (key : string) (v : value A) (d : dict A) : dict A :=
  match d with
  | [] => [(key, v)]
  | (k, x) :: d' =>
      if String.eqb k key then (k, v) :: d' else (k, x) :: assign key v d'
  end.

(** The loop of [get]; [None] when it returns the default. *)
Fixpoint get_keys (h : store A) (keys : list string) (v : value A)
  : option (value A) :=
  match keys with
  | [] => Some v
  | key :: keys' =>
      match v with
      | Ref l =>
          match h !! l with
          | Some d =>
              match lookup key d with
              | Some v' => get_keys h keys' v'
              | None => None
              end
          | None => None
          end
      | Leaf _ => None
      end
  end.

Definition get (c : t) (key_path : string) (default : value A) : value A :=
  match get_keys (objects c) (ConfigManager.split "." key_path)
          (Ref (config c)) with
  | Some v => v
  | None => default
  end.

(** [set]: [config] walks down [keys[:-1]], a missing key getting a new
    empty dict, and the last key is assigned in the dict reached.
    [None] when an exception is raised: the walk has run into a leaf. *)
Fixpoint set_keys (keys : list string) (v : value A) (h : store A)
    (config : nat) : option (store A) :=
  match keys with
  | [] => None
  | key :: keys' =>
      match h !! config with
      | None => None
      | Some d =>
          match keys' with
          | [] => Some (<[config := assign key v d]> h)
          | _ :: _ =>
              match lookup key d with
              | Some (Ref l) => set_keys keys' v h l
              | Some (Leaf _) => None
              | None =>
                  let l := length h in
                  set_keys keys' v
                    (<[config := assign key (Ref l) d]> h ++ [[]])%list l
              end
          end
      end
  end.

Definition set (c : t) (key_path : string) (v : value A) : option t :=
  match set_keys (ConfigManager.split "." key_path) v (objects c)
          (config c) with
  | Some h => Some (mk h (config c))
  | None => None
  end.

(** Evaluating a dict display: the inner dicts are created first. *)
Fixpoint create (v : ConfigManager.value A) (h : store A) {struct v}
  : value A * store A :=
  match v with
  | ConfigManager.Leaf a => (Leaf a, h)
  | ConfigManager.Dict items =>
      let '(d, h1) :=
        (fix each (items : list (string * ConfigManager.value A))
             (h : store A) {struct items} : dict A * store A :=
           match items with
           | [] => ([], h)
           | (key, x) :: rest =>
               let '(x', h1) := create x h in
               let '(rest', h2) := each rest h1 in
               ((key, x') :: rest', h2)
           end) items h in
      (Ref (length h1), (h1 ++ [d])%list)
  end.

End Objects.

(** [ConfigManager.__init__]: [self.config] is the dict that
    [_load_default_config] returns. *)
Definition init : @t ConfigManager.scalar :=
  let '(v, h) :=
    create (ConfigManager.Dict ConfigManager._load_default_config) [] in
  match v with
  | Ref l => mk h l
  | Leaf _ => mk h 0
  end.

End ConfigStore.

(** ** A scorer to run the matcher with

    fuzzywuzzy answers 100 for two equal strings before any comparison is
    made.  [exact_fuzz] is the scorer that does this and answers 0
    otherwise; the runs below only compare equal strings. *)

Definition exact_score (a b : string) : Z := if String.eqb a b then 100 else 0.

Definition exact_fuzz : Fuzz :=
  {| ratio := exact_score; partial_ratio := exact_score |}.

(** ** Concrete tables, matchers and networks used to run the code *)

Module Sample.
Import SeriesLookup.

Definition stormbreaker : string := "Stormbreaker (Alex Rider, Book 1)".

(** A network on which every request fails. *)
Definition offline : Net :=
  mkNet (fun _ _ => (NetRaise, 0)) (fun _ _ _ => (AiRaise, 0)).

Definition noon : World := mkWorld 1000000 [].

(** The matcher [web_app.py] builds when [external_api.enabled] is off. *)
Definition local_matcher : SeriesMatcher.t :=
  SeriesMatcher.mk SeriesMatcher.default_confidence_threshold true None.

(** Four memberships under review: two pending (scores 92 and 85), one
    rejected and one approved. *)
Definition review_db : DB :=
  mkDB [] []
    [ SeriesMatch.mk 7 1 1 92 "metadata" false false;
      SeriesMatch.mk 8 2 1 85 "title_pattern" false false;
      SeriesMatch.mk 9 3 2 97 "external_api" false true;
      SeriesMatch.mk 10 4 2 60 "fuzzy_match" true false ].

Definition review_session : list Review.op :=
  [ Review.Approve 7; Review.RejectAll; Review.Reject 7;
    Review.ApproveSelected [8; 7]; Review.ApproveHighConfidence;
    Review.ApproveAll; Review.RejectSelected [7] ].

Definition alex_rider : Series.t :=
  Series.mk 1 "Alex Rider" (Some "Anthony Horowitz") 0.

(** One series, nothing else. *)
Definition one_series : DB := mkDB [] [alex_rider] [].


(** One audiobook titled like the stored series, by the same author, with
    no embedded hint and no pattern in its title. *)
Definition namesake : AudiobookItem.t :=
  AudiobookItem.mk 1 "Alex Rider" (Some "Anthony Horowitz") None None.

Definition namesake_db : DB := mkDB [namesake] [alex_rider] [].

(** The same without authors on either side. *)
Definition plain_series : Series.t := Series.mk 1 "Alex Rider" None 0.

Definition plain_namesake : AudiobookItem.t :=
  AudiobookItem.mk 1 "Alex Rider" None None None.

Definition plain_db : DB := mkDB [plain_namesake] [plain_series] [].

(** An audiobook no stored series resembles. *)
Definition the_stand : AudiobookItem.t :=
  AudiobookItem.mk 2 "The Stand" (Some "Stephen King") None None.


(** A Google Books front that knows "Dune" and answers every other query
    with HTTP 429; each answer takes 150 ms. *)
Definition dune_chronicles : result :=
  mkResult (Some "Dune Chronicles") (Some "1").

Definition throttling : Net :=
  mkNet
    (fun _ query =>
       if String.eqb query (google_query "Dune" None)
       then (Http 200 (BodyItem (Some dune_chronicles)), 150)
       else (Http 429 BodyRaise, 150))
    (fun _ _ _ => (AiRaise, 0)).

Definition google_lookup : SeriesLookup.t := init "google_books" None false.


(** An OpenAI lookup that places every title in the series "Alex Rider",
    and a matcher set up with it. *)
Definition librarian : Net :=
  mkNet (fun _ _ => (NetRaise, 0))
        (fun _ _ _ => (AiJson (mkResult (Some "Alex Rider") (Some "1")), 300)).

Definition ai_matcher : SeriesMatcher.t :=
  SeriesMatcher.mk SeriesMatcher.default_confidence_threshold true
    (Some (init "openai" (Some "sk-sample") true)).

(** An audiobook that carries an embedded series hint. *)
Definition hinted : AudiobookItem.t :=
  AudiobookItem.mk 1 "Stormbreaker" (Some "Anthony Horowitz")
    (Some "Foundation") None.

Definition hinted_db : DB := mkDB [hinted] [] [].


(** Two audiobooks: the first has neither hint nor pattern, the second
    names its series in its title. *)
Definition two_books : DB :=
  mkDB [ AudiobookItem.mk 1 "Alex Rider" (Some "Anthony Horowitz") None None;
         AudiobookItem.mk 2 stormbreaker (Some "Anthony Horowitz") None None ]
       [] [].

End Sample.

(** ** Vocabulary of the statements *)

Module Vocabulary.
Import Review.

(** What a review operation can do to one row: nothing, mark it
    approved, or mark it rejected.  Everything but the flags stays. *)
Inductive reviewed (m : SeriesMatch.t) : SeriesMatch.t -> Prop :=
  | kept : reviewed m m
  | now_approved : reviewed m (SeriesMatch.set_flags m true false)
  | now_rejected : reviewed m (SeriesMatch.set_flags m false true).

(** A row keeps its position under every operation. *)
Definition rowwise (f : DB -> DB) : Prop :=
  forall (d : DB) (n : nat) (m : SeriesMatch.t),
    series_matches d !! n = Some m ->
    exists m', series_matches (f d) !! n = Some m' /\ reviewed m m'.

(** Two rows that agree on everything but the review flags. *)
Definition same_membership (m m' : SeriesMatch.t) : Prop :=
  SeriesMatch.id m' = SeriesMatch.id m
  /\ SeriesMatch.audiobook_id m' = SeriesMatch.audiobook_id m
  /\ SeriesMatch.series_id m' = SeriesMatch.series_id m
  /\ SeriesMatch.confidence_score m' = SeriesMatch.confidence_score m
  /\ SeriesMatch.match_method m' = SeriesMatch.match_method m.

Section WithFuzz.
Context {fuzz : Fuzz}.

(** The running maximum of the fuzzy loop, after the series [seen]. *)
Definition best_so_far (threshold : Z) (a : AudiobookItem.t)
    (seen : list Series.t) (best : option Series.t * Z) : Prop :=
  (forall s, In s seen -> threshold <= SeriesMatcher.fuzzy_score a s ->
             SeriesMatcher.fuzzy_score a s <= snd best)
  /\ match fst best with
     | Some s => In s seen /\ snd best = SeriesMatcher.fuzzy_score a s
                 /\ threshold <= snd best /\ 0 < snd best
     | None => snd best = 0
     end.

End WithFuzz.


(** *** Sessions of Google Books lookups *)

(** The cache key [_lookup_google_books] builds. *)
Definition google_key (title : string) (author : option string) : string :=
  title ++ ":" ++ Text.fmt author.

(** The world at the moment the request leaves: after the pacing sleep,
    when one is due. *)
Definition request_world (l : SeriesLookup.t) (w : SeriesLookup.World)
  : SeriesLookup.World :=
  if SeriesLookup.clock w - SeriesLookup.last_request_time l
     <? SeriesLookup.min_request_interval l
  then SeriesLookup.sleep
         (SeriesLookup.min_request_interval l
          - (SeriesLookup.clock w - SeriesLookup.last_request_time l)) w
  else w.

(** One lookup, made [idle] milliseconds after the previous one
    returned. *)
Record call : Type := mkCall {
  idle : Z;
  call_title : string;
  call_author : option string
}.

Definition call_key (c : call) : string :=
  google_key (call_title c) (call_author c).

Fixpoint lookups (net : SeriesLookup.Net) (l : SeriesLookup.t)
    (w : SeriesLookup.World) (calls : list call)
  : SeriesLookup.t * SeriesLookup.World * list (option SeriesLookup.result) :=
  match calls with
  | [] => (l, w, [])
  | c :: rest =>
      let '(l, w, r) :=
        SeriesLookup._lookup_google_books net l
          (SeriesLookup.sleep (idle c) w) (call_title c) (call_author c) in
      let '(l, w, rs) := lookups net l w rest in
      (l, w, r :: rs)
  end.

(** Every call of the session starts before the clock reaches [limit]. *)
Fixpoint within (limit now : Z) (calls : list call) : Prop :=
  match calls with
  | [] => True
  | c :: rest => now + idle c < limit /\ within limit (now + idle c) rest
  end.

(** What the cache holds for a call: the stored outcome, or no result. *)
Definition cached_answer (l : SeriesLookup.t) (c : call)
  : option SeriesLookup.result :=
  default None (SeriesLookup.cache l !! call_key c).


(** *** One membership written for an audiobook

    [after] is [before] with one membership of the audiobook upserted:
    the row of some (audiobook, series) pair carries the score and the
    method, it either replaced the row of that pair or was appended, and
    the rows of every other pair are where and what they were. *)
Definition one_membership (before after : list SeriesMatch.t)
    (audiobook_id : Z) (confidence : Z) (method : string) : Prop :=
  exists (series_id : Z) (r : SeriesMatch.t),
    List.find (SeriesMatcher.same_pair audiobook_id series_id) after = Some r
    /\ SeriesMatch.confidence_score r = confidence
    /\ SeriesMatch.match_method r = method
    /\ (length after = length before \/ after = (before ++ [r])%list)
    /\ (forall (n : nat) (x : SeriesMatch.t),
           before !! n = Some x ->
           SeriesMatcher.same_pair audiobook_id series_id x = false ->
           after !! n = Some x).


(** *** Running the matcher again *)

(** The (record, series) pair of a membership. *)
Definition pair_of (m : SeriesMatch.t) : Z * Z :=
  (SeriesMatch.audiobook_id m, SeriesMatch.series_id m).

(** The series name, score and method the embedded hint or the title
    patterns give an audiobook; [None] when it is left to the fuzzy
    fallback. *)
Definition local_name (a : AudiobookItem.t) : option (string * Z * string) :=
  if Text.truthy (AudiobookItem.series_title a)
  then Some (Text.fmt (AudiobookItem.series_title a), 95, "metadata")
  else if Text.truthy (fst (Extract.extract_series_info (AudiobookItem.title a)))
  then Some (Text.fmt (fst (Extract.extract_series_info
                              (AudiobookItem.title a))),
             85, "title_pattern")
  else None.

(** The filter of [find_or_create_series]. *)
Definition named (name : string) (s : Series.t) : bool :=
  Sql.ilike (Series.series_name s) ("%" ++ name ++ "%").

(** The name the local stages look for is already in the series table. *)
Definition resolved (all_series : list Series.t) (a : AudiobookItem.t)
  : Prop :=
  forall name c method,
    local_name a = Some (name, c, method) ->
    List.find (named name) all_series <> None.

(** The hint or the title patterns decide the audiobook. *)
Definition decided (a : AudiobookItem.t) : bool :=
  match local_name a with Some _ => true | None => false end.

(** Every membership points at a stored series. *)
Definition references (all_series : list Series.t)
    (rows : list SeriesMatch.t) : Prop :=
  forall r, In r rows ->
    exists s, In s all_series /\ Series.id s = SeriesMatch.series_id r.

Section Again.
Context {fuzz : Fuzz}.

(** The series, score and method the loop body writes for an audiobook
    when the series table is [all_series] and nothing has to be
    created. *)
Definition wanted (threshold : Z) (all_series : list Series.t)
    (a : AudiobookItem.t) : option (Z * Z * string) :=
  match local_name a with
  | Some (name, c, method) =>
      match List.find (named name) all_series with
      | Some s => Some (Series.id s, c, method)
      | None => None
      end
  | None =>
      match SeriesMatcher.fuzzy_best threshold a all_series with
      | (Some s, score) => Some (Series.id s, score, "fuzzy_match")
      | (None, _) => None
      end
  end.

(** The membership table already holds what the loop body would write. *)
Definition row_ok (threshold : Z) (all_series : list Series.t)
    (rows : list SeriesMatch.t) (a : AudiobookItem.t) : Prop :=
  forall sid c method,
    wanted threshold all_series a = Some (sid, c, method) ->
    exists r,
      List.find (SeriesMatcher.same_pair (AudiobookItem.id a) sid) rows
      = Some r
      /\ SeriesMatch.confidence_score r = c
      /\ SeriesMatch.match_method r = method.

(** If the membership of the pair is there, it already carries what the
    loop body would write. *)
Definition row_consistent (threshold : Z) (all_series : list Series.t)
    (rows : list SeriesMatch.t) (a : AudiobookItem.t) : Prop :=
  forall sid c method r,
    wanted threshold all_series a = Some (sid, c, method) ->
    List.find (SeriesMatcher.same_pair (AudiobookItem.id a) sid) rows
    = Some r ->
    SeriesMatch.confidence_score r = c /\ SeriesMatch.match_method r = method.

(** One run of the matcher, as [web_app.py] starts it: the tables after
    [match_all_audiobooks]. *)
Definition rerun (net : SeriesLookup.Net) (w : SeriesLookup.World)
    (m : SeriesMatcher.t) (d : DB) : DB :=
  snd (fst (SeriesMatcher.match_all_audiobooks net m w d)).

End Again.


(** *** What the matcher may do to a membership it finds *)

(** Everything but score and method is as it was. *)
Definition rescored (r r' : SeriesMatch.t) : Prop :=
  SeriesMatch.id r' = SeriesMatch.id r
  /\ SeriesMatch.audiobook_id r' = SeriesMatch.audiobook_id r
  /\ SeriesMatch.series_id r' = SeriesMatch.series_id r
  /\ SeriesMatch.user_approved r' = SeriesMatch.user_approved r
  /\ SeriesMatch.user_rejected r' = SeriesMatch.user_rejected r.

(** [rows'] keeps every row of [rows] in place, re-scored at most, and
    every row after them is pending. *)
Definition extends_rows (rows rows' : list SeriesMatch.t) : Prop :=
  (forall (n : nat) (r : SeriesMatch.t),
      rows !! n = Some r ->
      exists r', rows' !! n = Some r' /\ rescored r r')
  /\ (forall (n : nat) (r' : SeriesMatch.t),
         (length rows <= n)%nat ->
         rows' !! n = Some r' ->
         Review.pending r' = true).

(** An audiobook as the matcher leaves it: only the position may
    differ. *)
Definition same_record (a a' : AudiobookItem.t) : Prop :=
  AudiobookItem.id a' = AudiobookItem.id a
  /\ AudiobookItem.title a' = AudiobookItem.title a
  /\ AudiobookItem.author a' = AudiobookItem.author a
  /\ AudiobookItem.series_title a' = AudiobookItem.series_title a.


(** *** What the stages write *)

Section Stages.
Context {fuzz : Fuzz}.

(** The score and method a stage passes to the upsert, for the audiobook
    and the series it upserts. *)
Definition written (threshold : Z) (a : AudiobookItem.t) (s : Series.t)
    (c : Z) (method : string) : Prop :=
  (c = 98 /\ method = "external_api")
  \/ (c = 95 /\ method = "metadata")
  \/ (c = 85 /\ method = "title_pattern")
  \/ (method = "fuzzy_match"
      /\ c = SeriesMatcher.fuzzy_score a s
      /\ threshold <= c /\ 0 < c).

End Stages.

(** A membership as the stages leave it. *)
Definition stage_row (threshold : Z) (r : SeriesMatch.t) : Prop :=
  (SeriesMatch.confidence_score r = 98
   /\ SeriesMatch.match_method r = "external_api")
  \/ (SeriesMatch.confidence_score r = 95
      /\ SeriesMatch.match_method r = "metadata")
  \/ (SeriesMatch.confidence_score r = 85
      /\ SeriesMatch.match_method r = "title_pattern")
  \/ (SeriesMatch.match_method r = "fuzzy_match"
      /\ threshold <= SeriesMatch.confidence_score r
      /\ 0 < SeriesMatch.confidence_score r <= 110).


(** *** The first of the best *)

Section FirstBest.
Context {fuzz : Fuzz}.

(** [best] is the first series of [seen] with the highest score, when
    that score is positive and reaches the threshold, and nothing
    otherwise. *)
Definition first_best (threshold : Z) (a : AudiobookItem.t)
    (seen : list Series.t) (best : option Series.t * Z) : Prop :=
  match fst best with
  | Some s =>
      exists before after : list Series.t,
        seen = (before ++ s :: after)%list
        /\ snd best = SeriesMatcher.fuzzy_score a s
        /\ threshold <= snd best
        /\ 0 < snd best
        /\ (forall x, In x before -> SeriesMatcher.fuzzy_score a x < snd best)
        /\ (forall x, In x after -> SeriesMatcher.fuzzy_score a x <= snd best)
  | None =>
      snd best = 0
      /\ forall x, In x seen ->
           SeriesMatcher.fuzzy_score a x < threshold
           \/ SeriesMatcher.fuzzy_score a x <= 0
  end.

End FirstBest.

(** *** What a successful match went through

    [walk re s st r]: the items of [re] can be matched one after the other
    from the start of [s], taking the capture state from [st] to [r].
    It is the matcher of [Re.match_here] without its priorities: every
    answer of the matcher is a walk. *)
Inductive walk : list Re.item -> string -> Re.caps -> Re.caps -> Prop :=
  | walk_nil (s : string) (st : Re.caps) : walk [] s st st
  | walk_one (k : Re.cls) (re : list Re.item) (c : ascii) (s : string)
      (st r : Re.caps) :
      Re.cls_ok k c = true -> walk re s st r ->
      walk (Re.One k :: re) (String c s) st r
  | walk_maybe_take (k : Re.cls) (re : list Re.item) (c : ascii) (s : string)
      (st r : Re.caps) :
      Re.cls_ok k c = true -> walk re s st r ->
      walk (Re.Maybe k :: re) (String c s) st r
  | walk_maybe_skip (k : Re.cls) (re : list Re.item) (s : string)
      (st r : Re.caps) :
      walk re s st r -> walk (Re.Maybe k :: re) s st r
  | walk_many_stop (greedy : bool) (k : Re.cls) (re : list Re.item)
      (s : string) (st r : Re.caps) :
      walk re s st r -> walk (Re.Many greedy 0 k :: re) s st r
  | walk_many_step (greedy : bool) (lo : nat) (k : Re.cls)
      (re : list Re.item) (c : ascii) (s : string) (st r : Re.caps) :
      Re.cls_ok k c = true ->
      walk (Re.Many greedy (Nat.pred lo) k :: re) s st r ->
      walk (Re.Many greedy lo k :: re) (String c s) st r
  | walk_open (g : nat) (re : list Re.item) (s : string) (st r : Re.caps) :
      walk re s (Re.open_group g s st) r -> walk (Re.Open g :: re) s st r
  | walk_close (g : nat) (re : list Re.item) (s : string) (st r : Re.caps) :
      walk re s (Re.close_group g s st) r -> walk (Re.Close g :: re) s st r.

(** Every character of [s] passes [f]. *)
Fixpoint every (f : ascii -> bool) (s : string) : bool :=
  match s with
  | EmptyString => true
  | String c s' => f c && every f s'
  end.

(** [p] is a piece of [s]. *)
Definition occurs_in (p s : string) : Prop :=
  exists a b : string, s = a ++ p ++ b.

(** The items that follow the first [Open g] of a pattern. *)
Fixpoint after_open (g : nat) (re : list Re.item) : option (list Re.item) :=
  match re with
  | [] => None
  | Re.Open g' :: re' => if Nat.eqb g' g then Some re' else after_open g re'
  | _ :: re' => after_open g re'
  end.

Definition closes (g : nat) (it : Re.item) : bool :=
  match it with Re.Close g' => Nat.eqb g' g | _ => false end.

(** Group [g] of the pattern is one repetition, at least once, of a
    character class, closed once: [(k+)] or [(k+?)].  The class is
    returned. *)
Definition group_class (g : nat) (re : list Re.item) : option Re.cls :=
  match after_open g re with
  | Some (Re.Many _ (S _) k :: Re.Close g' :: post) =>
      if (Nat.eqb g' g && negb (existsb (closes g) post))%bool
      then Some k else None
  | _ => None
  end.

(** All the title patterns, in the order they are tried. *)
Definition title_patterns : list string :=
  (Extract.parenthetical_patterns ++ Extract.series_patterns)%list.

(** A string that neither starts nor ends with white space. *)
Definition stripped (s : string) : Prop := Text.strip s = s.

(** *** Entries of the configuration's dicts *)

(** The entries [get] reads on its way: the dict object and the key of
    each step of its loop. *)
Fixpoint reads {A : Type} (h : ConfigStore.store A) (keys : list string)
    (v : ConfigStore.value A) : list (nat * string) :=
  match keys with
  | [] => []
  | key :: keys' =>
      match v with
      | ConfigStore.Ref l =>
          (l, key) ::
          match h !! l with
          | Some d =>
              match ConfigStore.lookup key d with
              | Some v' => reads h keys' v'
              | None => []
              end
          | None => []
          end
      | ConfigStore.Leaf _ => []
      end
  end.

(** The entry [set] assigns in a dict that exists before the call: the
    last key in the dict the walk ends in, or the first key that is
    missing, under which a new dict is stored. *)
Fixpoint assigned {A : Type} (h : ConfigStore.store A)
    (keys : list string)
    (config : nat) : option (nat * string) :=
  match keys with
  | [] => None
  | key :: keys' =>
      match keys' with
      | [] => Some (config, key)
      | _ :: _ =>
          match h !! config with
          | Some d =>
              match ConfigStore.lookup key d with
              | Some (ConfigStore.Ref l) => assigned h keys' l
              | Some (ConfigStore.Leaf _) => None
              | None => Some (config, key)
              end
          | None => None
          end
      end
  end.


(** *** ASCII text

    [Text.is_space], [Text.is_digit] and [Text.lower_char] are Python's
    [str.isspace], [\d] and case folding on the characters below 128;
    on a text of such characters the patterns and [strip] are read here
    as [re] and [str] read them. *)
Definition is_ascii (c : ascii) : bool := (Text.code c <? 128)%N.

Definition ascii_text (s : string) : bool := every is_ascii s.

End Vocabulary.

(** * Properties *)

(** ** Title extraction *)

Section ExtractFacts.
Import Text Re Extract.

Lemma first_match_split (title : string) (ps1 : list string) :
  forall (p : string) (ps2 : list string) (m : caps),
    Forall (fun q => re_search q title = None) ps1 ->
    re_search p title = Some m ->
    first_match (ps1 ++ p :: ps2)%list title = Some (captures m).
Proof.
  induction ps1 as [|q ps1 IH]; intros p ps2 m Hnone Hp; simpl.
  - now rewrite Hp.
  - inversion Hnone as [|? ? Hq Hrest]; subst.
    rewrite Hq. now apply IH.
Qed.

Lemma parenthetical_needs_text :
  first_match parenthetical_patterns EmptyString = None.
Proof. reflexivity. Qed.

(** C9. The parenthetical patterns are tried before the inline ones and
    the first pattern that matches decides the result: whenever some
    parenthetical pattern matches a title, [extract_series_info] returns
    the stripped captures of the first such pattern, whatever the inline
    patterns would have matched; the inline patterns are consulted only
    when no parenthetical pattern matches; and
    extract("Stormbreaker (Alex Rider, Book 1)") is ("Alex Rider", "1"). *)
Theorem extract_parenthetical_first :
  (forall (title : string) (ps1 : list string) (p : string)
          (ps2 : list string) (m : caps),
      parenthetical_patterns = (ps1 ++ p :: ps2)%list ->
      Forall (fun q => re_search q title = None) ps1 ->
      re_search p title = Some m ->
      extract_series_info title = captures m)
  /\ (forall (title : string),
         nonempty title = true ->
         first_match parenthetical_patterns title = None ->
         extract_series_info title =
           match first_match series_patterns title with
           | Some r => r
           | None => (None, None)
           end)
  /\ extract_series_info Sample.stormbreaker = (Some "Alex Rider", Some "1").
Proof.
  split; [|split].
  - intros title ps1 p ps2 m Hsplit Hnone Hp.
    pose proof (first_match_split title ps1 p ps2 m Hnone Hp) as Hfirst.
    rewrite <- Hsplit in Hfirst.
    unfold extract_series_info.
    destruct title as [|c title].
    + rewrite parenthetical_needs_text in Hfirst. discriminate.
    + simpl nonempty. cbv beta iota. simpl negb. cbv iota.
      now rewrite Hfirst.
  - intros title Hne Hnone. unfold extract_series_info.
    rewrite Hne. simpl negb. cbv iota. now rewrite Hnone.
  - vm_compute. reflexivity.
Qed.

(** The sample title also matches the first inline pattern, which would
    have bound a different series name; the parenthetical captures are
    the ones returned.  A title without parentheses is left to the inline
    patterns. *)
Lemma extract_parenthetical_first_witness :
  (exists m m' : caps,
      re_search "\(([^,]+?),?\s*Book\s+(\d+)\)" Sample.stormbreaker = Some m
      /\ re_search "(.+?)\s*[,:-]\s*Book\s+(\d+)" Sample.stormbreaker = Some m'
      /\ captures m' = (Some "Stormbreaker (Alex Rider", Some "1")
      /\ extract_series_info Sample.stormbreaker = captures m)
  /\ extract_series_info "Scorpia Rising: Alex Rider, Book 9"
     = match first_match series_patterns "Scorpia Rising: Alex Rider, Book 9"
       with
       | Some r => r
       | None => (None, None)
       end.
Proof.
  split.
  - destruct (re_search "\(([^,]+?),?\s*Book\s+(\d+)\)" Sample.stormbreaker)
      as [m|] eqn:Hm; [|vm_compute in Hm; discriminate].
    destruct (re_search "(.+?)\s*[,:-]\s*Book\s+(\d+)" Sample.stormbreaker)
      as [m'|] eqn:Hm'; [|vm_compute in Hm'; discriminate].
    exists m, m'. repeat split.
    + vm_compute in Hm'. injection Hm' as <-. vm_compute. reflexivity.
    + apply (proj1 extract_parenthetical_first Sample.stormbreaker []
               "\(([^,]+?),?\s*Book\s+(\d+)\)"
               (List.tl parenthetical_patterns) m).
      * reflexivity.
      * constructor.
      * exact Hm.
  - apply (proj1 (proj2 extract_parenthetical_first)).
    + reflexivity.
    + vm_compute. reflexivity.
Defined.

End ExtractFacts.

(** ** Lists of rows *)

Section RowFacts.
Context {A : Type}.
Implicit Types (p : A -> bool) (f : A -> A) (l : list A).

Lemma update_first_length p f l : length (update_first p f l) = length l.
Proof.
  induction l as [|x l IH]; simpl; [reflexivity|].
  destruct (p x); simpl; congruence.
Qed.

Lemma update_first_lookup p f l (n : nat) (x : A) :
  l !! n = Some x ->
  update_first p f l !! n = Some x \/ update_first p f l !! n = Some (f x).
Proof.
  revert n. induction l as [|y l IH]; intros n Hn; [discriminate|].
  simpl. destruct (p y) eqn:Hy.
  - destruct n as [|n]; simpl in *; [inversion Hn; subst; now right|now left].
  - destruct n as [|n]; simpl in *; [now left|now apply IH].
Qed.

Lemma find_update_first p f l :
  (forall x, p x = true -> p (f x) = true) ->
  List.find p (update_first p f l) = f <$> List.find p l.
Proof.
  intros Hp. induction l as [|x l IH]; simpl; [reflexivity|].
  destruct (p x) eqn:Hx; simpl.
  - now rewrite (Hp x Hx).
  - now rewrite Hx.
Qed.

Lemma update_first_fixed p f l (x : A) :
  List.find p l = Some x -> f x = x -> update_first p f l = l.
Proof.
  induction l as [|y l IH]; simpl; [discriminate|].
  destruct (p y) eqn:Hy; intros Hfind Hfx.
  - inversion Hfind; subst. now rewrite Hfx.
  - f_equal. now apply IH.
Qed.

Lemma find_none_forall p l :
  List.find p l = None -> forall x, In x l -> p x = false.
Proof.
  induction l as [|y l IH]; simpl; intros Hfind x Hin; [contradiction|].
  destruct (p y) eqn:Hy; [discriminate|].
  destruct Hin as [->|Hin]; [assumption|now apply IH].
Qed.

Lemma find_app_found p l l' (x : A) :
  List.find p l = Some x -> List.find p (l ++ l') = Some x.
Proof.
  induction l as [|y l IH]; simpl; [discriminate|].
  destruct (p y); [trivial|exact IH].
Qed.

Lemma find_app_missing p l l' :
  List.find p l = None -> List.find p (l ++ l') = List.find p l'.
Proof.
  induction l as [|y l IH]; simpl; [trivial|].
  destruct (p y); [discriminate|exact IH].
Qed.

End RowFacts.

(** ** The review flags *)

Section ReviewFacts.
Import Review Vocabulary.

Lemma set_flags_twice (m : SeriesMatch.t) (a b a' b' : bool) :
  SeriesMatch.set_flags (SeriesMatch.set_flags m a b) a' b'
  = SeriesMatch.set_flags m a' b'.
Proof. reflexivity. Qed.

Lemma reviewed_trans (a b c : SeriesMatch.t) :
  reviewed a b -> reviewed b c -> reviewed a c.
Proof.
  intros Hab Hbc. destruct Hbc; [assumption| |];
    destruct Hab; rewrite ?set_flags_twice; constructor.
Qed.

Lemma reviewed_exclusive (m m' : SeriesMatch.t) :
  reviewed m m' -> exclusive m = true -> exclusive m' = true.
Proof. intros H; destruct H; trivial. Qed.

Lemma reviewed_id (m m' : SeriesMatch.t) :
  reviewed m m' -> SeriesMatch.id m' = SeriesMatch.id m.
Proof. intros H; destruct H; reflexivity. Qed.

Lemma pending_exclusive (m : SeriesMatch.t) :
  pending m = true -> exclusive m = true.
Proof.
  unfold pending, exclusive.
  destruct (SeriesMatch.user_approved m), (SeriesMatch.user_rejected m);
    simpl; congruence.
Qed.

Lemma pending_set_approved (m : SeriesMatch.t) :
  pending m = true ->
  SeriesMatch.set_approved m true = SeriesMatch.set_flags m true false.
Proof.
  unfold pending, SeriesMatch.set_approved.
  destruct (SeriesMatch.user_approved m), (SeriesMatch.user_rejected m);
    simpl; congruence.
Qed.

Lemma rowwise_compose (f g : DB -> DB) :
  rowwise f -> rowwise g -> rowwise (fun d => g (f d)).
Proof.
  intros Hf Hg d n m Hm.
  destruct (Hf d n m Hm) as (m1 & H1 & R1).
  destruct (Hg (f d) n m1 H1) as (m2 & H2 & R2).
  exists m2. split; [assumption|]. eapply reviewed_trans; eassumption.
Qed.

Lemma rowwise_approve_match (i : Z) : rowwise (approve_match i).
Proof.
  intros d n m Hm. unfold approve_match, on_matches; simpl.
  destruct (update_first_lookup (has_id i)
              (fun m => SeriesMatch.set_flags m true false) _ n m Hm) as [H|H];
    eexists; (split; [exact H|constructor]).
Qed.

Lemma rowwise_reject_match (i : Z) : rowwise (reject_match i).
Proof.
  intros d n m Hm. unfold reject_match, on_matches; simpl.
  destruct (update_first_lookup (has_id i)
              (fun m => SeriesMatch.set_flags m false true) _ n m Hm) as [H|H];
    eexists; (split; [exact H|constructor]).
Qed.

Lemma rowwise_map (g : SeriesMatch.t -> SeriesMatch.t) :
  (forall m, reviewed m (g m)) -> rowwise (on_matches (map g)).
Proof.
  intros Hg d n m Hm. exists (g m). split; [|apply Hg].
  unfold on_matches; simpl. rewrite list_lookup_fmap, Hm. reflexivity.
Qed.

Lemma rowwise_fold (step : Z -> DB -> DB) (ids : list Z) :
  (forall i, rowwise (step i)) ->
  rowwise (fun d => fold_left (fun d i => step i d) ids d).
Proof.
  intros Hstep. induction ids as [|i ids IH]; simpl.
  - intros d n m Hm. exists m. split; [assumption|constructor].
  - apply (rowwise_compose (step i) _ (Hstep i) IH).
Qed.

Lemma rowwise_apply (o : op) : rowwise (fun d => apply d o).
Proof.
  destruct o; simpl.
  - apply rowwise_approve_match.
  - apply rowwise_reject_match.
  - apply rowwise_map. intros m. destruct (pending m); constructor.
  - apply rowwise_map. intros m. destruct (pending m); constructor.
  - apply (rowwise_fold approve_match), rowwise_approve_match.
  - apply (rowwise_fold reject_match), rowwise_reject_match.
  - apply rowwise_map. intros m. unfold is_high_confidence.
    destruct (pending m) eqn:Hp.
    + destruct (SeriesMatch.confidence_score m >=? high_confidence); simpl;
        [rewrite (pending_set_approved m Hp)|]; constructor.
    + rewrite andb_false_r. constructor.
Qed.

Lemma rowwise_run (ops : list op) : rowwise (run ops).
Proof.
  unfold run. induction ops as [|o ops IH]; simpl.
  - intros d n m Hm. exists m. split; [assumption|constructor].
  - apply (rowwise_compose (fun d => apply d o) _ (rowwise_apply o) IH).
Qed.

Lemma update_first_missing {A : Type} (p : A -> bool) (f : A -> A)
    (l : list A) :
  List.find p l = None -> update_first p f l = l.
Proof.
  induction l as [|x l IH]; simpl; [reflexivity|].
  destruct (p x); [discriminate|]. intros H. now rewrite IH.
Qed.

(** C4. A membership that is pending is, after any sequence of approve,
    reject, approve-all, reject-all, approve-selected, reject-selected
    and auto-approve operations, still the same row with at most one of
    its two flags set: each operation leaves a row as it is or writes
    (approved, rejected) = (true, false) or (false, true).  Approve on
    the id of a stored membership leaves it with approved = true and
    rejected = false, and approve followed by reject leaves it with
    approved = false and rejected = true, its other columns as they
    were; on an id that no membership has, the two change nothing. *)
Theorem review_flags_never_both :
  (forall (ops : list op) (d : DB) (n : nat) (m : SeriesMatch.t),
      series_matches d !! n = Some m ->
      pending m = true ->
      exists m',
        series_matches (run ops d) !! n = Some m'
        /\ reviewed m m'
        /\ SeriesMatch.id m' = SeriesMatch.id m
        /\ (SeriesMatch.user_approved m' && SeriesMatch.user_rejected m')%bool
           = false)
  /\ (forall (i : Z) (d : DB) (m : SeriesMatch.t),
         List.find (has_id i) (series_matches d) = Some m ->
         List.find (has_id i) (series_matches (approve_match i d))
         = Some (SeriesMatch.mk (SeriesMatch.id m) (SeriesMatch.audiobook_id m)
                   (SeriesMatch.series_id m) (SeriesMatch.confidence_score m)
                   (SeriesMatch.match_method m) true false)
         /\ List.find (has_id i)
              (series_matches (reject_match i (approve_match i d)))
            = Some (SeriesMatch.mk (SeriesMatch.id m)
                      (SeriesMatch.audiobook_id m) (SeriesMatch.series_id m)
                      (SeriesMatch.confidence_score m)
                      (SeriesMatch.match_method m) false true))
  /\ (forall (i : Z) (d : DB),
         List.find (has_id i) (series_matches d) = None ->
         series_matches (reject_match i (approve_match i d))
         = series_matches d).
Proof.
  split; [|split].
  - intros ops d n m Hm Hp.
    destruct (rowwise_run ops d n m Hm) as (m' & Hm' & R).
    exists m'. repeat split; try assumption.
    + now apply reviewed_id.
    + pose proof (reviewed_exclusive m m' R (pending_exclusive m Hp)) as E.
      unfold exclusive in E. now apply negb_true_iff in E.
  - intros i d m Hm. unfold reject_match, approve_match, on_matches; simpl.
    rewrite !find_update_first by (intros x Hx; exact Hx).
    rewrite Hm. split; reflexivity.
  - intros i d Hnone. unfold reject_match, approve_match, on_matches; simpl.
    rewrite (update_first_missing _ _ _ Hnone).
    now rewrite (update_first_missing _ _ _ Hnone).
Qed.

End ReviewFacts.

Section ReviewWitness.
Import Review Vocabulary.

Lemma review_flags_never_both_witness :
  (exists m',
    series_matches (run Sample.review_session Sample.review_db) !! 0%nat
      = Some m'
    /\ reviewed (SeriesMatch.mk 7 1 1 92 "metadata" false false) m'
    /\ SeriesMatch.id m' = 7
    /\ (SeriesMatch.user_approved m' && SeriesMatch.user_rejected m')%bool
       = false)
  /\ List.find (has_id 7) (series_matches Sample.review_db)
     = Some (SeriesMatch.mk 7 1 1 92 "metadata" false false)
  /\ List.find (has_id 7) (series_matches (approve_match 7 Sample.review_db))
     = Some (SeriesMatch.mk 7 1 1 92 "metadata" true false)
  /\ List.find (has_id 7)
       (series_matches (reject_match 7 (approve_match 7 Sample.review_db)))
     = Some (SeriesMatch.mk 7 1 1 92 "metadata" false true)
  /\ List.find (has_id 11) (series_matches Sample.review_db) = None
  /\ series_matches (reject_match 11 (approve_match 11 Sample.review_db))
     = series_matches Sample.review_db.
Proof.
  split; [|split; [reflexivity|]].
  - apply (proj1 review_flags_never_both Sample.review_session
             Sample.review_db 0%nat
             (SeriesMatch.mk 7 1 1 92 "metadata" false false));
      reflexivity.
  - split; [|split; [|split; [reflexivity|]]].
    + apply (proj1 (proj1 (proj2 review_flags_never_both) 7
                      Sample.review_db
                      (SeriesMatch.mk 7 1 1 92 "metadata" false false)
                      eq_refl)).
    + apply (proj2 (proj1 (proj2 review_flags_never_both) 7
                      Sample.review_db
                      (SeriesMatch.mk 7 1 1 92 "metadata" false false)
                      eq_refl)).
    + apply (proj2 (proj2 review_flags_never_both) 11 Sample.review_db).
      reflexivity.
Defined.

(** *** Bulk approval *)

(** The claim C8 read on the web application's approve-all: the pending
    membership scored 85, below 90, is approved by it. *)
Lemma approve_all_ignores_score :
  series_matches Sample.review_db !! 1%nat
    = Some (SeriesMatch.mk 8 2 1 85 "title_pattern" false false)
  /\ pending (SeriesMatch.mk 8 2 1 85 "title_pattern" false false) = true
  /\ 85 < high_confidence
  /\ series_matches (approve_all_matches Sample.review_db) !! 1%nat
     = Some (SeriesMatch.mk 8 2 1 85 "title_pattern" true false).
Proof. repeat split. Qed.

(** C8, amended. The review panel's auto-approve sets approved on
    exactly the memberships that are pending and score at least 90, and
    leaves the flags of every other membership as they were.  The web
    application's approve-all has no score bound: it sets approved on
    every pending membership, and leaves the flags of the others as they
    were.  Neither changes anything else. *)
Theorem bulk_approval_rows :
  forall (d : DB) (n : nat) (m : SeriesMatch.t),
    series_matches d !! n = Some m ->
    (exists m',
        series_matches (_approve_high_confidence d) !! n = Some m'
        /\ same_membership m m'
        /\ SeriesMatch.user_approved m'
           = (SeriesMatch.user_approved m
              || (pending m && (90 <=? SeriesMatch.confidence_score m)))%bool
        /\ SeriesMatch.user_rejected m' = SeriesMatch.user_rejected m)
    /\ (exists m',
          series_matches (approve_all_matches d) !! n = Some m'
          /\ same_membership m m'
          /\ SeriesMatch.user_approved m'
             = (SeriesMatch.user_approved m || pending m)%bool
          /\ SeriesMatch.user_rejected m' = SeriesMatch.user_rejected m)
    /\ audiobook_items (_approve_high_confidence d) = audiobook_items d
    /\ series (_approve_high_confidence d) = series d
    /\ length (series_matches (_approve_high_confidence d))
       = length (series_matches d).
Proof.
  intros d n m Hm. split; [|split; [|split; [|split]]].
  - eexists. split.
    { unfold _approve_high_confidence, on_matches; simpl.
      rewrite list_lookup_fmap, Hm. reflexivity. }
    unfold is_high_confidence, high_confidence, pending, same_membership.
    rewrite Z.geb_leb.
    destruct m as [i a s c meth ap rj]; simpl.
    destruct (90 <=? c), ap, rj; simpl; repeat split.
  - eexists. split.
    { unfold approve_all_matches, on_matches; simpl.
      rewrite list_lookup_fmap, Hm. reflexivity. }
    unfold pending, same_membership.
    destruct m as [i a s c meth ap rj]; simpl.
    destruct ap, rj; simpl; repeat split.
  - reflexivity.
  - reflexivity.
  - unfold _approve_high_confidence, on_matches; simpl. apply length_map.
Qed.

Lemma bulk_approval_rows_witness :
  (exists m',
      series_matches (_approve_high_confidence Sample.review_db) !! 1%nat
        = Some m'
      /\ same_membership (SeriesMatch.mk 8 2 1 85 "title_pattern" false false) m'
      /\ SeriesMatch.user_approved m' = false
      /\ SeriesMatch.user_rejected m' = false)
  /\ (exists m',
        series_matches (approve_all_matches Sample.review_db) !! 1%nat
          = Some m'
        /\ same_membership (SeriesMatch.mk 8 2 1 85 "title_pattern" false false) m'
        /\ SeriesMatch.user_approved m' = true
        /\ SeriesMatch.user_rejected m' = false).
Proof.
  destruct (bulk_approval_rows Sample.review_db 1%nat
              (SeriesMatch.mk 8 2 1 85 "title_pattern" false false)
              eq_refl) as (H1 & H2 & _).
  split; [exact H1|exact H2].
Defined.

End ReviewWitness.

(** ** SQL LIKE and substrings *)

Section LikeFacts.
Import Text Sql.

Lemma append_nil (t : string) : EmptyString ++ t = t.
Proof. reflexivity. Qed.

Lemma append_cons (c : ascii) (a b : string) :
  String c a ++ b = String c (a ++ b).
Proof. reflexivity. Qed.

Lemma like_percent (p t : string) :
  like (String "%" p) t
  = (like p t
     || match t with
        | EmptyString => false
        | String _ t' => like (String "%" p) t'
        end)%bool.
Proof. destruct t; reflexivity. Qed.

Lemma like_percent_all (t : string) : like "%" t = true.
Proof.
  induction t as [|c t IH]; [reflexivity|].
  rewrite like_percent, IH. apply orb_true_r.
Qed.

Lemma like_percent_skip (q pre t : string) :
  like q t = true -> like (String "%" q) (pre ++ t) = true.
Proof.
  intros Hq. induction pre as [|c pre IH].
  - rewrite append_nil, like_percent, Hq. reflexivity.
  - rewrite append_cons, like_percent, IH. apply orb_true_r.
Qed.

Lemma like_literal (p post : string) : like (p ++ "%") (p ++ post) = true.
Proof.
  induction p as [|c p IH]; rewrite ?append_nil, ?append_cons.
  - apply like_percent_all.
  - destruct (Ascii.eqb c "%") eqn:Hc.
    + apply Ascii.eqb_eq in Hc. subst c.
      apply (like_percent_skip (p ++ "%") "%" (p ++ post) IH).
    + cbn [like]. rewrite Hc, Ascii.eqb_refl, orb_true_r, IH. reflexivity.
Qed.

Lemma lower_app (a b : string) : lower (a ++ b) = lower a ++ lower b.
Proof.
  induction a as [|c a IH]; rewrite ?append_nil, ?append_cons;
    [reflexivity|]. cbn [lower]. now rewrite IH, append_cons.
Qed.

(** A column value that contains the name, case-insensitively, passes the
    filter [ilike('%name%')]. *)
Lemma ilike_contains (column name pre post : string) :
  lower column = pre ++ lower name ++ post ->
  ilike column ("%" ++ name ++ "%") = true.
Proof.
  intros Hcol. unfold ilike. rewrite Hcol.
  change ("%" ++ name ++ "%") with (String "%" (name ++ "%")).
  change (lower (String "%" (name ++ "%")))
    with (String "%" (lower (name ++ "%"))).
  rewrite lower_app. change (lower "%") with "%".
  apply like_percent_skip, like_literal.
Qed.

End LikeFacts.

(** ** The matcher: series resolution and the membership upsert *)

Section MatcherFacts.
Import Text SeriesMatcher Vocabulary.
Context {fuzz : Fuzz}.

Lemma find_or_create_series_cases (d : DB) (name : string)
    (author : option string) :
  (exists s,
      List.find (fun s => Sql.ilike (Series.series_name s) ("%" ++ name ++ "%"))
        (series d) = Some s
      /\ In s (series d)
      /\ find_or_create_series d name author = (d, s))
  \/ (List.find (fun s => Sql.ilike (Series.series_name s) ("%" ++ name ++ "%"))
        (series d) = None
      /\ find_or_create_series d name author
         = (mkDB (audiobook_items d)
                 (series d ++ [Series.mk (next_id (map Series.id (series d)))
                                         name author 0])
                 (series_matches d),
            Series.mk (next_id (map Series.id (series d))) name author 0)).
Proof.
  unfold find_or_create_series.
  destruct (List.find _ (series d)) as [s|] eqn:Hfind.
  - left. exists s. repeat split.
    apply List.find_some in Hfind. tauto.
  - right. split; reflexivity.
Qed.

Lemma find_or_create_series_in (d : DB) (name : string)
    (author : option string) :
  In (snd (find_or_create_series d name author))
     (series (fst (find_or_create_series d name author))).
Proof.
  destruct (find_or_create_series_cases d name author)
    as [(s & _ & Hin & ->)|(_ & ->)]; simpl; [assumption|].
  apply in_or_app. right. now left.
Qed.

Lemma find_or_create_series_matches (d : DB) (name : string)
    (author : option string) :
  series_matches (fst (find_or_create_series d name author))
  = series_matches d.
Proof.
  destruct (find_or_create_series_cases d name author)
    as [(s & _ & _ & ->)|(_ & ->)]; reflexivity.
Qed.

Lemma match_audiobook_to_series_series (d : DB) (a : AudiobookItem.t)
    (s : Series.t) (c : Z) (method : string) :
  series (match_audiobook_to_series d a s c method) = series d.
Proof.
  unfold match_audiobook_to_series.
  destruct (List.find _ (series_matches d)); reflexivity.
Qed.

Lemma fuzzy_fold_best (threshold : Z) (a : AudiobookItem.t)
    (rest : list Series.t) :
  forall (seen : list Series.t) (best : option Series.t * Z),
    best_so_far threshold a seen best ->
    best_so_far threshold a (seen ++ rest)
      (fold_left
         (fun (best : option Series.t * Z) (s : Series.t) =>
            let score := fuzzy_score a s in
            if ((score >? snd best) && (score >=? threshold))%bool
            then (Some s, score) else best)
         rest best).
Proof.
  induction rest as [|s rest IH]; intros seen best Hbest; simpl.
  - now rewrite app_nil_r.
  - replace (seen ++ s :: rest)%list with ((seen ++ [s]) ++ rest)%list
      by (rewrite <- app_assoc; reflexivity).
    apply IH. destruct Hbest as [Hmax Hwho].
    destruct (fuzzy_score a s >? snd best) eqn:Hgt;
      [destruct (fuzzy_score a s >=? threshold) eqn:Hge|];
      unfold best_so_far; cbn [andb fst snd].
    + apply Z.gtb_lt in Hgt. apply Z.geb_le in Hge. split.
      * intros s' Hin Hthr. apply in_app_or in Hin.
        destruct Hin as [Hin|[<-|[]]]; [|lia].
        specialize (Hmax s' Hin Hthr). lia.
      * repeat split; try lia.
        { apply in_or_app. right. now left. }
        destruct (fst best); lia.
    + assert (fuzzy_score a s < threshold) as Hlow.
      { destruct (Z.geb_spec (fuzzy_score a s) threshold); [discriminate|lia]. }
      split.
      * intros s' Hin Hthr. apply in_app_or in Hin.
        destruct Hin as [Hin|[<-|[]]]; [now apply Hmax|lia].
      * destruct (fst best); [|assumption].
        destruct Hwho as (Hin & rest'). split; [|exact rest'].
        apply in_or_app. now left.
    + assert (fuzzy_score a s <= snd best) as Hle.
      { destruct (Z.gtb_spec (fuzzy_score a s) (snd best)); [discriminate|lia]. }
      split.
      * intros s' Hin Hthr. apply in_app_or in Hin.
        destruct Hin as [Hin|[<-|[]]]; [now apply Hmax|lia].
      * destruct (fst best); [|assumption].
        destruct Hwho as (Hin & rest'). split; [|exact rest'].
        apply in_or_app. now left.
Qed.

Lemma fuzzy_best_spec (threshold : Z) (a : AudiobookItem.t)
    (all_series : list Series.t) :
  best_so_far threshold a all_series (fuzzy_best threshold a all_series).
Proof.
  apply (fuzzy_fold_best threshold a all_series [] (None, 0)).
  split; [intros s []|reflexivity].
Qed.

End MatcherFacts.

(** ** The loop body and the loop *)

Section LoopFacts.
Import Text SeriesMatcher Vocabulary.
Context {fuzz : Fuzz}.

Lemma external_lookup_db (net : SeriesLookup.Net) (st : state)
    (a : AudiobookItem.t) :
  db (fst (external_lookup net st a)) = db st
  /\ matches_found (fst (external_lookup net st a)) = matches_found st
  /\ confidence_threshold (matcher (fst (external_lookup net st a)))
     = confidence_threshold (matcher st).
Proof.
  unfold external_lookup.
  destruct (use_external_lookup (matcher st));
    [destruct (series_lookup (matcher st)) as [l|]|]; try (now repeat split).
  destruct (SeriesLookup.lookup_by_title_author _ _ _ _ _) as [[l' w'] r].
  now repeat split.
Qed.

Lemma external_lookup_off (net : SeriesLookup.Net) (st : state)
    (a : AudiobookItem.t) :
  series_lookup (matcher st) = None ->
  external_lookup net st a = (st, None).
Proof.
  intros Hoff. unfold external_lookup. rewrite Hoff.
  destruct (use_external_lookup (matcher st)); reflexivity.
Qed.

Lemma fuzzy_match_cases (m : t) (d : DB) (a : AudiobookItem.t) :
  (fst (fuzzy_best (confidence_threshold m) a (series d)) = None
   /\ _fuzzy_match_to_existing_series m d a = (d, a))
  \/ (exists s score,
         fuzzy_best (confidence_threshold m) a (series d) = (Some s, score)
         /\ In s (series d)
         /\ score = fuzzy_score a s
         /\ confidence_threshold m <= score
         /\ fst (_fuzzy_match_to_existing_series m d a)
            = match_audiobook_to_series d a s score "fuzzy_match").
Proof.
  pose proof (fuzzy_best_spec (confidence_threshold m) a (series d)) as Hbest.
  unfold _fuzzy_match_to_existing_series.
  destruct (fuzzy_best (confidence_threshold m) a (series d)) as [[s|] score].
  - right. exists s, score. destruct Hbest as (_ & Hin & Hscore & Hthr & _).
    simpl in *. repeat split; try assumption.
    destruct (Extract.extract_series_info (AudiobookItem.title a)) as [n i].
    destruct (truthy i); reflexivity.
  - left. split; reflexivity.
Qed.

(** *** Invariants of the tables

    A property of the series and membership tables that survives series
    resolution and the membership upsert survives the loop body and the
    whole run. *)

Section Invariant.
Variable P : list Series.t -> list SeriesMatch.t -> Prop.

Hypothesis P_resolve :
  forall (d : DB) (name : string) (author : option string),
    P (series d) (series_matches d) ->
    P (series (fst (find_or_create_series d name author)))
      (series_matches (fst (find_or_create_series d name author))).

Hypothesis P_upsert :
  forall (d : DB) (a : AudiobookItem.t) (s : Series.t) (c : Z)
         (method : string),
    P (series d) (series_matches d) ->
    In s (series d) ->
    P (series (match_audiobook_to_series d a s c method))
      (series_matches (match_audiobook_to_series d a s c method)).

Lemma resolve_then_upsert (d : DB) (a : AudiobookItem.t) (name : string)
    (c : Z) (method : string) :
  P (series d) (series_matches d) ->
  let r := find_or_create_series d name (AudiobookItem.author a) in
  P (series (match_audiobook_to_series (fst r) a (snd r) c method))
    (series_matches (match_audiobook_to_series (fst r) a (snd r) c method)).
Proof.
  intros HP r. apply P_upsert.
  - apply P_resolve, HP.
  - apply find_or_create_series_in.
Qed.

Lemma on_external_keeps (st : state) (a : AudiobookItem.t)
    (r : SeriesLookup.result) :
  P (series (db st)) (series_matches (db st)) ->
  P (series (db (fst (on_external st a r))))
    (series_matches (db (fst (on_external st a r)))).
Proof.
  intros HP. unfold on_external.
  pose proof (resolve_then_upsert (db st) a
                (fmt (SeriesLookup.series_name r)) 98 "external_api" HP) as H.
  cbv zeta in H.
  destruct (find_or_create_series (db st) _ _) as [d1 s]. exact H.
Qed.

Lemma match_local_keeps (st : state) (a : AudiobookItem.t) :
  P (series (db st)) (series_matches (db st)) ->
  P (series (db (fst (match_local st a))))
    (series_matches (db (fst (match_local st a)))).
Proof.
  intros HP. unfold match_local.
  destruct (truthy (AudiobookItem.series_title a)).
  - pose proof (resolve_then_upsert (db st) a
                  (fmt (AudiobookItem.series_title a)) 95 "metadata" HP) as H.
    cbv zeta in H.
    destruct (find_or_create_series (db st) _ _) as [d1 s]. exact H.
  - destruct (Extract.extract_series_info (AudiobookItem.title a)) as [n i].
    destruct (truthy n).
    + pose proof (resolve_then_upsert (db st) a (fmt n) 85 "title_pattern" HP)
        as H.
      cbv zeta in H.
      destruct (find_or_create_series (db st) _ _) as [d1 s]. exact H.
    + destruct (fuzzy_match_cases (matcher st) (db st) a)
        as [(_ & Hsame)|(s & score & _ & Hin & _ & _ & Hfst)].
      * rewrite Hsame. exact HP.
      * destruct (_fuzzy_match_to_existing_series (matcher st) (db st) a)
          as [d1 a1]. simpl in *. subst d1. now apply P_upsert.
Qed.

Lemma match_one_keeps (net : SeriesLookup.Net) (st : state)
    (a : AudiobookItem.t) :
  P (series (db st)) (series_matches (db st)) ->
  P (series (db (fst (match_one net st a))))
    (series_matches (db (fst (match_one net st a)))).
Proof.
  intros HP. unfold match_one.
  destruct (external_lookup_db net st a) as (Hdb & _).
  destruct (external_lookup net st a) as [st1 ext]. simpl in Hdb.
  rewrite <- Hdb in HP.
  destruct ext as [r|]; [destruct (truthy (SeriesLookup.series_name r))|].
  - now apply on_external_keeps.
  - now apply match_local_keeps.
  - now apply match_local_keeps.
Qed.

Lemma match_loop_keeps (net : SeriesLookup.Net)
    (audiobooks : list AudiobookItem.t) :
  forall st : state,
    P (series (db st)) (series_matches (db st)) ->
    P (series (db (fst (match_loop net st audiobooks))))
      (series_matches (db (fst (match_loop net st audiobooks)))).
Proof.
  induction audiobooks as [|a rest IH]; intros st HP; simpl; [exact HP|].
  pose proof (match_one_keeps net st a HP) as H1.
  destruct (match_one net st a) as [st1 a1]. simpl in H1.
  specialize (IH st1 H1).
  destruct (match_loop net st1 rest) as [st2 rest2]. exact IH.
Qed.

Lemma match_all_keeps (net : SeriesLookup.Net) (m : t)
    (w : SeriesLookup.World) (d : DB) :
  P (series d) (series_matches d) ->
  P (series (snd (fst (match_all_audiobooks net m w d))))
    (series_matches (snd (fst (match_all_audiobooks net m w d)))).
Proof.
  intros HP. unfold match_all_audiobooks.
  pose proof (match_loop_keeps net (audiobook_items d) (mkState m w d 0) HP)
    as H.
  destruct (match_loop net (mkState m w d 0) (audiobook_items d))
    as [st audiobooks]. exact H.
Qed.

End Invariant.

End LoopFacts.

(** ** The book count of a series *)

Section FrameFacts.
Import Text SeriesMatcher.
Context {fuzz : Fuzz}.

Lemma review_run_series (ops : list Review.op) :
  forall d : DB, series (Review.run ops d) = series d.
Proof.
  assert (forall (step : Z -> DB -> DB) (ids : list Z),
             (forall i d, series (step i d) = series d) ->
             forall d, series (fold_left (fun d i => step i d) ids d)
                       = series d) as Hfold.
  { intros step ids Hstep. induction ids as [|i ids IH]; intros d; simpl;
      [reflexivity|]. now rewrite IH, Hstep. }
  unfold Review.run. induction ops as [|o ops IH]; intros d; simpl;
    [reflexivity|].
  rewrite IH. destruct o; simpl; try reflexivity.
  - now apply (Hfold Review.approve_match).
  - now apply (Hfold Review.reject_match).
Qed.

(** C10. Series resolution never maintains the book count.
    [find_or_create_series] either finds a series through the filter and
    returns it with the tables untouched, which is what happens whenever
    some stored name contains the requested name case-insensitively, or
    it appends one new series whose [total_books] is 0.  A whole run of
    the matcher leaves every stored series as it was and only appends
    series whose [total_books] is 0, whatever memberships it attaches;
    the review operations do not touch the series table. *)
Theorem total_books_never_maintained :
  (forall (d : DB) (name : string) (author : option string),
      let r := find_or_create_series d name author in
      (fst r = d /\ In (snd r) (series d))
      \/ (series (fst r) = (series d ++ [snd r])%list
          /\ snd r = Series.mk (next_id (map Series.id (series d)))
                               name author 0
          /\ series_matches (fst r) = series_matches d
          /\ audiobook_items (fst r) = audiobook_items d))
  /\ (forall (d : DB) (name : string) (author : option string)
             (s0 : Series.t) (pre post : string),
         In s0 (series d) ->
         lower (Series.series_name s0) = pre ++ lower name ++ post ->
         fst (find_or_create_series d name author) = d
         /\ In (snd (find_or_create_series d name author)) (series d))
  /\ (forall (net : SeriesLookup.Net) (m : t) (w : SeriesLookup.World)
             (d : DB),
         exists added : list Series.t,
           series (snd (fst (match_all_audiobooks net m w d)))
           = (series d ++ added)%list
           /\ Forall (fun s => Series.total_books s = 0) added)
  /\ (forall (ops : list Review.op) (d : DB),
         series (Review.run ops d) = series d).
Proof.
  split; [|split; [|split]].
  - intros d name author r. subst r.
    destruct (find_or_create_series_cases d name author)
      as [(s & _ & Hin & ->)|(_ & ->)]; simpl.
    + left. now split.
    + right. now repeat split.
  - intros d name author s0 pre post Hin Hsub.
    destruct (find_or_create_series_cases d name author)
      as [(s & _ & Hs & ->)|(Hnone & _)]; simpl; [now split|].
    pose proof (find_none_forall _ _ Hnone s0 Hin) as Hno. simpl in Hno.
    rewrite (ilike_contains _ name pre post Hsub) in Hno. discriminate.
  - intros net m w d.
    apply (match_all_keeps
             (fun L _ => exists added : list Series.t,
                  L = (series d ++ added)%list
                  /\ Forall (fun s => Series.total_books s = 0) added)).
    + intros d1 name author (added & HL & Hzero).
      destruct (find_or_create_series_cases d1 name author)
        as [(s & _ & _ & ->)|(_ & ->)]; simpl.
      * now exists added.
      * exists (added ++ [Series.mk (next_id (map Series.id (series d1)))
                                    name author 0])%list.
        split; [rewrite HL; now rewrite app_assoc|].
        apply Forall_app. split; [assumption|]. now repeat constructor.
    + intros d1 a s c method HP _.
      now rewrite match_audiobook_to_series_series.
    + exists []. split; [now rewrite app_nil_r|constructor].
  - intros ops d. apply review_run_series.
Qed.

End FrameFacts.

Lemma total_books_never_maintained_witness :
  fst (SeriesMatcher.find_or_create_series Sample.one_series "rider" None)
  = Sample.one_series
  /\ In (snd (SeriesMatcher.find_or_create_series Sample.one_series "rider" None))
        (series Sample.one_series).
Proof.
  apply (proj1 (proj2 (@total_books_never_maintained exact_fuzz))
           Sample.one_series
           "rider" None Sample.alex_rider "alex " "").
  - left. reflexivity.
  - reflexivity.
Defined.

(** ** The fuzzy fallback *)

Section FuzzyFacts.
Import Text SeriesMatcher.
Context {fuzz : Fuzz}.

Lemma match_audiobook_to_series_row (d : DB) (a : AudiobookItem.t)
    (s : Series.t) (c : Z) (method : string) :
  exists r : SeriesMatch.t,
    List.find (same_pair (AudiobookItem.id a) (Series.id s))
      (series_matches (match_audiobook_to_series d a s c method)) = Some r
    /\ SeriesMatch.audiobook_id r = AudiobookItem.id a
    /\ SeriesMatch.series_id r = Series.id s
    /\ SeriesMatch.confidence_score r = c
    /\ SeriesMatch.match_method r = method.
Proof.
  unfold match_audiobook_to_series.
  destruct (List.find _ (series_matches d)) as [r0|] eqn:Hfind; simpl.
  - exists (SeriesMatch.set_score r0 c method).
    rewrite find_update_first by (intros x Hx; exact Hx).
    rewrite Hfind. apply List.find_some in Hfind.
    destruct Hfind as (_ & Hpair). unfold same_pair in Hpair.
    apply andb_true_iff in Hpair. destruct Hpair as (Ha & Hs).
    apply Z.eqb_eq in Ha, Hs. now repeat split.
  - eexists. rewrite (find_app_missing _ _ _ Hfind). simpl.
    unfold same_pair at 1. simpl. rewrite !Z.eqb_refl. simpl.
    now repeat split.
Qed.

(** C7. The fuzzy fallback creates or updates a membership only for a
    series whose score, the partial ratio of title and series name plus
    10 when both authors are present and their ratio exceeds 80, is at
    least the confidence threshold (70 unless configured): when every
    stored series scores below the threshold the tables and the
    audiobook are returned unchanged, and when the membership table
    changes, the change is the upsert of one series that meets the
    threshold, with that score and the method fuzzy_match. *)
Theorem fuzzy_respects_threshold :
  forall (m : t) (d : DB) (a : AudiobookItem.t),
    ((forall s, In s (series d) ->
                fuzzy_score a s < confidence_threshold m) ->
     _fuzzy_match_to_existing_series m d a = (d, a))
    /\ (series_matches (fst (_fuzzy_match_to_existing_series m d a))
        <> series_matches d ->
        exists (s : Series.t) (r : SeriesMatch.t),
          In s (series d)
          /\ confidence_threshold m <= fuzzy_score a s
          /\ fst (_fuzzy_match_to_existing_series m d a)
             = match_audiobook_to_series d a s (fuzzy_score a s) "fuzzy_match"
          /\ In r (series_matches
                     (fst (_fuzzy_match_to_existing_series m d a)))
          /\ SeriesMatch.audiobook_id r = AudiobookItem.id a
          /\ SeriesMatch.series_id r = Series.id s
          /\ SeriesMatch.confidence_score r = fuzzy_score a s
          /\ SeriesMatch.match_method r = "fuzzy_match")
    /\ (forall s : Series.t,
           fuzzy_score a s
           = partial_ratio (lower (AudiobookItem.title a))
                           (lower (Series.series_name s))
             + (if (truthy (AudiobookItem.author a)
                    && truthy (Series.author s)
                    && (ratio (lower (fmt (AudiobookItem.author a)))
                              (lower (fmt (Series.author s))) >? 80))%bool
                then 10 else 0))
    /\ default_confidence_threshold = 70.
Proof.
  intros m d a. split; [|split; [|split]].
  - intros Hlow.
    destruct (fuzzy_match_cases m d a)
      as [(_ & Hsame)|(s & score & _ & Hin & -> & Hthr & _)];
      [exact Hsame|].
    specialize (Hlow s Hin). lia.
  - intros Hchanged.
    destruct (fuzzy_match_cases m d a)
      as [(_ & Hsame)|(s & score & _ & Hin & -> & Hthr & Hfst)].
    + rewrite Hsame in Hchanged. now contradiction Hchanged.
    + destruct (match_audiobook_to_series_row d a s (fuzzy_score a s)
                  "fuzzy_match") as (r & Hfind & Ha & Hs & Hc & Hm).
      exists s, r. rewrite Hfst. repeat split; try assumption.
      apply List.find_some in Hfind. tauto.
  - intros s. unfold fuzzy_score.
    destruct (truthy (AudiobookItem.author a) && truthy (Series.author s))%bool;
      simpl; [|lia].
    destruct (ratio _ _ >? 80); lia.
  - reflexivity.
Qed.

End FuzzyFacts.

Lemma fuzzy_respects_threshold_witness :
  @SeriesMatcher._fuzzy_match_to_existing_series exact_fuzz
    Sample.local_matcher Sample.one_series Sample.the_stand
  = (Sample.one_series, Sample.the_stand)
  /\ exists (s : Series.t) (r : SeriesMatch.t),
       In s (series Sample.namesake_db)
       /\ SeriesMatcher.confidence_threshold Sample.local_matcher
          <= @SeriesMatcher.fuzzy_score exact_fuzz Sample.namesake s
       /\ fst (@SeriesMatcher._fuzzy_match_to_existing_series exact_fuzz
                 Sample.local_matcher Sample.namesake_db Sample.namesake)
          = SeriesMatcher.match_audiobook_to_series Sample.namesake_db
              Sample.namesake s
              (@SeriesMatcher.fuzzy_score exact_fuzz Sample.namesake s)
              "fuzzy_match"
       /\ In r (series_matches
                  (fst (@SeriesMatcher._fuzzy_match_to_existing_series
                          exact_fuzz Sample.local_matcher Sample.namesake_db
                          Sample.namesake)))
       /\ SeriesMatch.audiobook_id r = AudiobookItem.id Sample.namesake
       /\ SeriesMatch.series_id r = Series.id s
       /\ SeriesMatch.confidence_score r
          = @SeriesMatcher.fuzzy_score exact_fuzz Sample.namesake s
       /\ SeriesMatch.match_method r = "fuzzy_match".
Proof.
  split.
  - apply (proj1 (@fuzzy_respects_threshold exact_fuzz Sample.local_matcher
                    Sample.one_series Sample.the_stand)).
    intros s [<-|[]]. vm_compute. reflexivity.
  - apply (proj1 (proj2 (@fuzzy_respects_threshold exact_fuzz
                           Sample.local_matcher Sample.namesake_db
                           Sample.namesake))).
    vm_compute. discriminate.
Defined.

(** ** Running the matcher on the samples *)

Section SampleRuns.
Import Text SeriesMatcher.
Context {fuzz : Fuzz}.

Lemma fuzzy_best_single (threshold : Z) (a : AudiobookItem.t) (s : Series.t) :
  fuzzy_best threshold a [s]
  = if ((fuzzy_score a s >? 0) && (fuzzy_score a s >=? threshold))%bool
    then (Some s, fuzzy_score a s) else (None, 0).
Proof. reflexivity. Qed.

Lemma namesake_score :
  partial_ratio "alex rider" "alex rider" = 100 ->
  ratio "anthony horowitz" "anthony horowitz" = 100 ->
  fuzzy_score Sample.namesake Sample.alex_rider = 110.
Proof.
  intros Hp Hr. unfold fuzzy_score.
  change (lower (AudiobookItem.title Sample.namesake)) with "alex rider".
  change (lower (Series.series_name Sample.alex_rider)) with "alex rider".
  change (lower (fmt (AudiobookItem.author Sample.namesake)))
    with "anthony horowitz".
  change (lower (fmt (Series.author Sample.alex_rider)))
    with "anthony horowitz".
  rewrite Hp, Hr. reflexivity.
Qed.

Lemma plain_namesake_score :
  partial_ratio "alex rider" "alex rider" = 100 ->
  fuzzy_score Sample.plain_namesake Sample.plain_series = 100.
Proof.
  intros Hp. unfold fuzzy_score.
  change (lower (AudiobookItem.title Sample.plain_namesake)) with "alex rider".
  change (lower (Series.series_name Sample.plain_series)) with "alex rider".
  rewrite Hp. reflexivity.
Qed.

Lemma no_pattern_in_alex_rider :
  Extract.extract_series_info "Alex Rider" = (None, None).
Proof. vm_compute. reflexivity. Qed.

(** C5, the input on which the score leaves the range 0..100: the
    audiobook "Alex Rider" by Anthony Horowitz against the stored series
    of that name and author.  The partial ratio of the equal names is
    100, the authors are equal, and the run stores the membership with
    the confidence 110. *)
Theorem fuzzy_score_above_100 :
  partial_ratio "alex rider" "alex rider" = 100 ->
  ratio "anthony horowitz" "anthony horowitz" = 100 ->
  series_matches
    (snd (fst (match_all_audiobooks Sample.offline Sample.local_matcher
                 Sample.noon Sample.namesake_db)))
  = [SeriesMatch.mk 1 1 1 110 "fuzzy_match" false false].
Proof.
  intros Hp Hr.
  unfold match_all_audiobooks, Sample.namesake_db.
  cbn [audiobook_items match_loop].
  unfold match_one.
  rewrite external_lookup_off by reflexivity.
  unfold match_local.
  change (truthy (AudiobookItem.series_title Sample.namesake)) with false.
  cbv iota.
  change (AudiobookItem.title Sample.namesake) with "Alex Rider".
  rewrite no_pattern_in_alex_rider.
  change (truthy None) with false. cbv iota.
  unfold _fuzzy_match_to_existing_series.
  cbn [db series matcher].
  rewrite fuzzy_best_single, (namesake_score Hp Hr).
  change (AudiobookItem.title Sample.namesake) with "Alex Rider".
  rewrite no_pattern_in_alex_rider.
  reflexivity.
Qed.

(** C6, the input on which the returned number misses a matched record:
    the audiobook "Alex Rider" against the stored series of that name.
    The fuzzy fallback stores a membership for it, and the run returns
    0. *)
Theorem fuzzy_match_not_counted :
  partial_ratio "alex rider" "alex rider" = 100 ->
  series_matches
    (snd (fst (match_all_audiobooks Sample.offline Sample.local_matcher
                 Sample.noon Sample.plain_db)))
  = [SeriesMatch.mk 1 1 1 100 "fuzzy_match" false false]
  /\ snd (match_all_audiobooks Sample.offline Sample.local_matcher
            Sample.noon Sample.plain_db) = 0.
Proof.
  intros Hp.
  unfold match_all_audiobooks, Sample.plain_db.
  cbn [audiobook_items match_loop].
  unfold match_one.
  rewrite external_lookup_off by reflexivity.
  unfold match_local.
  change (truthy (AudiobookItem.series_title Sample.plain_namesake))
    with false.
  cbv iota.
  change (AudiobookItem.title Sample.plain_namesake) with "Alex Rider".
  rewrite no_pattern_in_alex_rider.
  change (truthy None) with false. cbv iota.
  unfold _fuzzy_match_to_existing_series.
  cbn [db series matcher].
  rewrite fuzzy_best_single, (plain_namesake_score Hp).
  change (AudiobookItem.title Sample.plain_namesake) with "Alex Rider".
  rewrite no_pattern_in_alex_rider.
  split; reflexivity.
Qed.

End SampleRuns.

Lemma fuzzy_score_above_100_witness :
  series_matches
    (snd (fst (@SeriesMatcher.match_all_audiobooks exact_fuzz Sample.offline
                 Sample.local_matcher Sample.noon Sample.namesake_db)))
  = [SeriesMatch.mk 1 1 1 110 "fuzzy_match" false false].
Proof.
  apply (@fuzzy_score_above_100 exact_fuzz); reflexivity.
Defined.

Lemma fuzzy_match_not_counted_witness :
  series_matches
    (snd (fst (@SeriesMatcher.match_all_audiobooks exact_fuzz Sample.offline
                 Sample.local_matcher Sample.noon Sample.plain_db)))
  = [SeriesMatch.mk 1 1 1 100 "fuzzy_match" false false]
  /\ snd (@SeriesMatcher.match_all_audiobooks exact_fuzz Sample.offline
            Sample.local_matcher Sample.noon Sample.plain_db) = 0.
Proof.
  apply (@fuzzy_match_not_counted exact_fuzz); reflexivity.
Defined.

(** ** The Google Books cooldown *)

Section CooldownFacts.
Import Text SeriesLookup Vocabulary.

(** A key that is in the cache is answered from it, at any time. *)
Lemma google_cached (net : Net) (l : t) (w : World) (title : string)
    (author : option string) (v : option result) :
  cache l !! google_key title author = Some v ->
  _lookup_google_books net l w title author = (l, w, v).
Proof.
  intros Hhit. unfold _lookup_google_books.
  fold (google_key title author). now rewrite Hhit.
Qed.

(** During the cooldown a key that is not in the cache is refused and
    stored as "no result". *)
Lemma google_refused (net : Net) (l : t) (w : World) (title : string)
    (author : option string) :
  cache l !! google_key title author = None ->
  clock w < rate_limited_until l ->
  _lookup_google_books net l w title author
  = (set_cache l (google_key title author) None, w, None).
Proof.
  intros Hmiss Hcool. unfold _lookup_google_books.
  fold (google_key title author). rewrite Hmiss.
  apply Z.ltb_lt in Hcool. now rewrite Hcool.
Qed.

(** A 429 starts the cooldown. *)
Lemma google_rate_limited (net : Net) (l : t) (w : World) (title : string)
    (author : option string) (b : body) (took : Z) :
  cache l !! google_key title author = None ->
  rate_limited_until l <= clock w ->
  google net (request_world l w) (google_query title author)
  = (Http 429 b, took) ->
  let w' := after (GoogleBooks (google_query title author)) took
              (request_world l w) in
  _lookup_google_books net l w title author
  = (set_cache
       (set_rate_limited_until
          (set_last_request_time l (clock (request_world l w)))
          (clock w' + cooldown))
       (google_key title author) None,
     w', None).
Proof.
  intros Hmiss Hfree Hreply w'. unfold _lookup_google_books.
  fold (google_key title author). rewrite Hmiss.
  destruct (Z.ltb_spec (clock w) (rate_limited_until l)) as [Hlt|_]; [lia|].
  fold (request_world l w). rewrite Hreply. reflexivity.
Qed.

Lemma cached_answer_refused (l : t) (k : string) (c : call) :
  cache l !! k = None ->
  cached_answer (set_cache l k None) c = cached_answer l c.
Proof.
  intros Hmiss. unfold cached_answer, set_cache; simpl.
  destruct (decide (k = call_key c)) as [<-|Hne].
  - now rewrite lookup_insert_eq, Hmiss.
  - now rewrite lookup_insert_ne.
Qed.

(** A session of lookups that all start during the cooldown. *)
Lemma lookups_in_cooldown (net : Net) (calls : list call) :
  forall (l : t) (w : World),
    within (rate_limited_until l) (clock w) calls ->
    let '(l', w', rs) := lookups net l w calls in
    sent w' = sent w
    /\ rate_limited_until l' = rate_limited_until l
    /\ rs = map (cached_answer l) calls
    /\ (forall k v, cache l !! k = Some v -> cache l' !! k = Some v)
    /\ (forall c, In c calls -> cache l' !! call_key c = Some (cached_answer l c)).
Proof.
  induction calls as [|c rest IH]; intros l w Hwithin; simpl.
  - repeat split; trivial. intros c [].
  - destruct Hwithin as (Hnow & Hrest).
    destruct (cache l !! call_key c) as [v|] eqn:Hc.
    + (* answered from the cache *)
      rewrite (google_cached net l _ _ _ v Hc).
      specialize (IH l (sleep (idle c) w) Hrest).
      destruct (lookups net l (sleep (idle c) w) rest) as [[l' w'] rs].
      destruct IH as (Hsent & Hlimit & Hrs & Hkeep & Hnew).
      repeat split; trivial.
      * rewrite Hrs. f_equal. unfold cached_answer. now rewrite Hc.
      * intros c' [<-|Hin]; [|now apply Hnew].
        unfold cached_answer. rewrite Hc. simpl. now apply Hkeep.
    + (* refused *)
      rewrite (google_refused net l (sleep (idle c) w) _ _ Hc Hnow).
      specialize (IH (set_cache l (call_key c) None) (sleep (idle c) w) Hrest).
      fold (call_key c).
      destruct (lookups net (set_cache l (call_key c) None)
                  (sleep (idle c) w) rest) as [[l' w'] rs].
      destruct IH as (Hsent & Hlimit & Hrs & Hkeep & Hnew).
      repeat split; trivial.
      * rewrite Hrs. f_equal.
        { unfold cached_answer. now rewrite Hc. }
        apply map_ext. intros c'. now apply cached_answer_refused.
      * intros k v Hk. apply Hkeep. unfold set_cache; simpl.
        rewrite lookup_insert_ne; [assumption|]. congruence.
      * intros c' [<-|Hin].
        { unfold cached_answer at 1. rewrite Hc. simpl.
          apply Hkeep. unfold set_cache; simpl. apply lookup_insert_eq. }
        rewrite <- (cached_answer_refused l (call_key c) c' Hc).
        now apply Hnew.
Qed.

End CooldownFacts.

Section CooldownClaim.
Import Text SeriesLookup Vocabulary.

(** The claim C3 as it is written, on a key cached before the 429: "Dune"
    is looked up and found; "Emma" is answered 429, which starts the
    cooldown; one second later, inside the cooldown, "Dune" is looked up
    again and the lookup returns the cached series, not "no result". *)
Lemma cooldown_returns_cached_series :
  let '(l1, w1, r1) :=
    _lookup_google_books Sample.throttling Sample.google_lookup Sample.noon
      "Dune" None in
  let '(l2, w2, r2) :=
    _lookup_google_books Sample.throttling l1 w1 "Emma" None in
  let '(l3, w3, r3) :=
    _lookup_google_books Sample.throttling l2 (sleep 1000 w2) "Dune" None in
  r1 = Some Sample.dune_chronicles
  /\ r2 = None
  /\ rate_limited_until l2 = clock w2 + 60000
  /\ clock (sleep 1000 w2) < rate_limited_until l2
  /\ r3 = Some Sample.dune_chronicles
  /\ r3 <> None
  /\ sent w3 = sent w2.
Proof. vm_compute. repeat split; discriminate. Qed.

(** C3, amended. When a Google Books lookup is answered 429 it returns
    no result, stores that outcome under its key and starts a cooldown of
    60 seconds.  No lookup that starts during the cooldown sends a
    request: a key that is already in the cache is answered with the
    cached outcome (a series, if one was cached), every other key is
    answered "no result" and that outcome is stored under it.  A repeat
    of any of these lookups, at any later time and so also after the
    cooldown has expired, is answered from the cache with the same
    outcome, without a request. *)
Theorem cooldown_short_circuits :
  forall (net : Net) (l : t) (w : World) (title : string)
         (author : option string) (b : body) (took : Z),
    cache l !! google_key title author = None ->
    rate_limited_until l <= clock w ->
    google net (request_world l w) (google_query title author)
    = (Http 429 b, took) ->
    let '(l1, w1, r1) := _lookup_google_books net l w title author in
    r1 = None
    /\ rate_limited_until l1 = clock w1 + 60000
    /\ cache l1 !! google_key title author = Some None
    /\ forall calls : list call,
         within (clock w1 + 60000) (clock w1) calls ->
         let '(l2, w2, rs) := lookups net l1 w1 calls in
         sent w2 = sent w1
         /\ rs = map (cached_answer l1) calls
         /\ (forall c, In c calls ->
                       cache l1 !! call_key c = None ->
                       cached_answer l1 c = None
                       /\ cache l2 !! call_key c = Some None)
         /\ (forall c (w3 : World),
                In c calls ->
                _lookup_google_books net l2 w3 (call_title c) (call_author c)
                = (l2, w3, cached_answer l1 c))
         /\ (forall w3 : World,
                _lookup_google_books net l2 w3 title author = (l2, w3, None)).
Proof.
  intros net l w title author b took Hmiss Hfree Hreply.
  rewrite (google_rate_limited net l w title author b took Hmiss Hfree Hreply).
  cbv zeta.
  set (w1 := after (GoogleBooks (google_query title author)) took
               (request_world l w)).
  set (l1 := set_cache _ (google_key title author) None).
  assert (cache l1 !! google_key title author = Some None) as Hown
      by apply lookup_insert_eq.
  repeat split; trivial.
  intros calls Hwithin.
  pose proof (lookups_in_cooldown net calls l1 w1 Hwithin) as H.
  destruct (lookups net l1 w1 calls) as [[l2 w2] rs].
  destruct H as (Hsent & _ & Hrs & Hkeep & Hnew).
  split; [exact Hsent|split; [exact Hrs|split; [|split]]].
  - intros c Hin Hc. split.
    + unfold cached_answer. now rewrite Hc.
    + rewrite (Hnew c Hin). unfold cached_answer. now rewrite Hc.
  - intros c w3 Hin. apply google_cached, Hnew, Hin.
  - intros w3. apply google_cached, Hkeep, Hown.
Qed.

End CooldownClaim.

Lemma cooldown_short_circuits_witness :
  let '(l1, w1, r1) :=
    SeriesLookup._lookup_google_books Sample.throttling Sample.google_lookup
      Sample.noon "Emma" None in
  r1 = None
  /\ SeriesLookup.rate_limited_until l1 = SeriesLookup.clock w1 + 60000
  /\ SeriesLookup.cache l1 !! Vocabulary.google_key "Emma" None = Some None
  /\ forall calls : list Vocabulary.call,
       Vocabulary.within (SeriesLookup.clock w1 + 60000)
         (SeriesLookup.clock w1) calls ->
       let '(l2, w2, rs) := Vocabulary.lookups Sample.throttling l1 w1 calls in
       SeriesLookup.sent w2 = SeriesLookup.sent w1
       /\ rs = map (Vocabulary.cached_answer l1) calls
       /\ (forall c, In c calls ->
                     SeriesLookup.cache l1 !! Vocabulary.call_key c = None ->
                     Vocabulary.cached_answer l1 c = None
                     /\ SeriesLookup.cache l2 !! Vocabulary.call_key c
                        = Some None)
       /\ (forall c (w3 : SeriesLookup.World),
              In c calls ->
              SeriesLookup._lookup_google_books Sample.throttling l2 w3
                (Vocabulary.call_title c) (Vocabulary.call_author c)
              = (l2, w3, Vocabulary.cached_answer l1 c))
       /\ (forall w3 : SeriesLookup.World,
              SeriesLookup._lookup_google_books Sample.throttling l2 w3
                "Emma" None = (l2, w3, None)).
Proof.
  apply (cooldown_short_circuits Sample.throttling Sample.google_lookup
           Sample.noon "Emma" None SeriesLookup.BodyRaise 150).
  - reflexivity.
  - vm_compute. discriminate.
  - reflexivity.
Defined.

(** ** The order of the stages *)

Section StageFacts.
Import Text SeriesMatcher Vocabulary.
Context {fuzz : Fuzz}.

Lemma update_first_other {A : Type} (p : A -> bool) (f : A -> A)
    (l : list A) (n : nat) (x : A) :
  l !! n = Some x -> p x = false -> update_first p f l !! n = Some x.
Proof.
  revert n. induction l as [|y l IH]; intros n Hn Hx; [discriminate|].
  simpl. destruct (p y) eqn:Hy.
  - destruct n as [|n]; simpl in *; [|assumption].
    inversion Hn; subst. congruence.
  - destruct n as [|n]; simpl in *; [assumption|now apply IH].
Qed.

Lemma upsert_one_membership (d : DB) (a : AudiobookItem.t) (s : Series.t)
    (c : Z) (method : string) :
  one_membership (series_matches d)
    (series_matches (match_audiobook_to_series d a s c method))
    (AudiobookItem.id a) c method.
Proof.
  destruct (match_audiobook_to_series_row d a s c method)
    as (r & Hfind & _ & _ & Hc & Hm).
  exists (Series.id s), r. split; [exact Hfind|].
  split; [exact Hc|]. split; [exact Hm|].
  revert Hfind. unfold match_audiobook_to_series.
  destruct (List.find _ (series_matches d)) as [r0|] eqn:Hold; simpl;
    intros Hfind.
  - split; [left; apply update_first_length|].
    intros n x Hn Hx. now apply update_first_other.
  - rewrite (find_app_missing _ _ _ Hold) in Hfind. simpl in Hfind.
    destruct (same_pair _ _ _) in Hfind; [|discriminate].
    inversion Hfind; subst. split; [now right|].
    intros n x Hn _. now apply lookup_app_l_Some.
Qed.

Lemma one_membership_length (before after : list SeriesMatch.t) (i c : Z)
    (method : string) :
  one_membership before after i c method ->
  (length after <= length before + 1)%nat.
Proof.
  intros (sid & r & _ & _ & _ & [Hlen| ->] & _); [lia|].
  rewrite length_app. simpl. lia.
Qed.

Lemma resolve_upsert_one (d : DB) (a : AudiobookItem.t) (name : string)
    (c : Z) (method : string) :
  let r := find_or_create_series d name (AudiobookItem.author a) in
  one_membership (series_matches d)
    (series_matches (match_audiobook_to_series (fst r) a (snd r) c method))
    (AudiobookItem.id a) c method.
Proof.
  intros r. rewrite <- (find_or_create_series_matches d name
                          (AudiobookItem.author a)).
  apply upsert_one_membership.
Qed.

(** C1, amended. For every record the loop body tries its stages in this
    order and stops at the first that succeeds: the external lookup, when
    a provider is set up (score 98, method external_api); then the
    embedded series hint (95, metadata); then the title patterns (85,
    title_pattern); then the fuzzy fallback.  Whichever stage succeeds
    upserts exactly one membership of the record and leaves the rows of
    every other pair untouched, so the membership table grows by at most
    one row per record and no later stage leaves a trace. *)
Theorem stages_in_order :
  forall (net : SeriesLookup.Net) (st : state) (a : AudiobookItem.t),
    let external := external_lookup net st a in
    let out := fst (match_one net st a) in
    let before := series_matches (db st) in
    let after := series_matches (db out) in
    (if truthy (snd external ≫= SeriesLookup.series_name) then
       one_membership before after (AudiobookItem.id a) 98 "external_api"
       /\ matches_found out = matches_found st + 1
     else if truthy (AudiobookItem.series_title a) then
       one_membership before after (AudiobookItem.id a) 95 "metadata"
       /\ matches_found out = matches_found st + 1
     else if truthy (fst (Extract.extract_series_info (AudiobookItem.title a)))
     then
       one_membership before after (AudiobookItem.id a) 85 "title_pattern"
       /\ matches_found out = matches_found st + 1
     else
       (db out, snd (match_one net st a))
       = _fuzzy_match_to_existing_series (matcher (fst external)) (db st) a
       /\ (after = before
           \/ exists score,
                one_membership before after (AudiobookItem.id a) score
                  "fuzzy_match"))
    /\ (length after <= length before + 1)%nat.
Proof.
  intros net st a external out before after.
  assert (forall X : Prop,
             X -> (X -> (length after <= length before + 1)%nat) ->
             X /\ (length after <= length before + 1)%nat) as Hboth
      by (intros X HX Hlen; split; [exact HX|exact (Hlen HX)]).
  apply Hboth; clear Hboth.
  - subst external out before after. unfold match_one.
    destruct (external_lookup_db net st a) as (Hdb & Hfound & _).
    destruct (external_lookup net st a) as [st1 ext].
    simpl in Hdb, Hfound. cbn [fst snd].
    assert (forall r : state * AudiobookItem.t,
               match_local st1 a = r ->
               if truthy (AudiobookItem.series_title a) then
                 one_membership (series_matches (db st))
                   (series_matches (db (fst r))) (AudiobookItem.id a) 95
                   "metadata"
                 /\ matches_found (fst r) = matches_found st + 1
               else if truthy (fst (Extract.extract_series_info
                                      (AudiobookItem.title a))) then
                 one_membership (series_matches (db st))
                   (series_matches (db (fst r))) (AudiobookItem.id a) 85
                   "title_pattern"
                 /\ matches_found (fst r) = matches_found st + 1
               else
                 (db (fst r), snd r)
                 = _fuzzy_match_to_existing_series (matcher st1) (db st) a
                 /\ (series_matches (db (fst r)) = series_matches (db st)
                     \/ exists score,
                          one_membership (series_matches (db st))
                            (series_matches (db (fst r))) (AudiobookItem.id a)
                            score "fuzzy_match")) as Hlocal.
    { intros r <-. unfold match_local. rewrite Hdb, Hfound.
      destruct (truthy (AudiobookItem.series_title a)).
      - pose proof (resolve_upsert_one (db st) a
                      (fmt (AudiobookItem.series_title a)) 95 "metadata") as H.
        cbv zeta in H.
        destruct (find_or_create_series (db st) _ _) as [d1 s].
        split; [exact H|reflexivity].
      - destruct (Extract.extract_series_info (AudiobookItem.title a))
          as [n i]. cbn [fst].
        destruct (truthy n).
        + pose proof (resolve_upsert_one (db st) a (fmt n) 85 "title_pattern")
            as H.
          cbv zeta in H.
          destruct (find_or_create_series (db st) _ _) as [d1 s].
          split; [exact H|reflexivity].
        + destruct (fuzzy_match_cases (matcher st1) (db st) a)
            as [(_ & Hsame)|(s & score & _ & _ & _ & _ & Hfst)].
          * rewrite Hsame. split; [reflexivity|now left].
          * destruct (_fuzzy_match_to_existing_series (matcher st1) (db st) a)
              as [d1 a1]. simpl in *. subst d1.
            split; [reflexivity|]. right. exists score.
            apply upsert_one_membership. }
    destruct ext as [r|]; cbn [mbind option_bind];
      [destruct (truthy (SeriesLookup.series_name r))|];
      try (apply Hlocal; reflexivity).
    unfold on_external. rewrite Hdb, Hfound.
    pose proof (resolve_upsert_one (db st) a
                  (fmt (SeriesLookup.series_name r)) 98 "external_api") as H.
    cbv zeta in H.
    destruct (find_or_create_series (db st) _ _) as [d1 s].
    split; [exact H|reflexivity].
  - intros Hstage.
    destruct (truthy (snd external ≫= SeriesLookup.series_name));
      [|destruct (truthy (AudiobookItem.series_title a));
        [|destruct (truthy (fst (Extract.extract_series_info
                                   (AudiobookItem.title a))))]];
      try (destruct Hstage as (Hone & _);
           exact (one_membership_length _ _ _ _ _ Hone)).
    destruct Hstage as (_ & [-> | (score & Hone)]); [lia|].
    exact (one_membership_length _ _ _ _ _ Hone).
Qed.

End StageFacts.

(** The claim C1 as it is written, with the embedded hint ahead of the
    external lookup: the audiobook carries the hint "Foundation", the
    provider answers "Alex Rider", and the membership the run stores is
    the provider's (98, external_api), in the series "Alex Rider"; no
    membership with the method metadata exists. *)
Lemma external_lookup_precedes_hint :
  Text.truthy (AudiobookItem.series_title Sample.hinted) = true
  /\ (let d := snd (fst (@SeriesMatcher.match_all_audiobooks exact_fuzz
                           Sample.librarian Sample.ai_matcher Sample.noon
                           Sample.hinted_db)) in
      series_matches d = [SeriesMatch.mk 1 1 1 98 "external_api" false false]
      /\ series d = [Series.mk 1 "Alex Rider" (Some "Anthony Horowitz") 0]
      /\ forall m, In m (series_matches d) ->
                   SeriesMatch.match_method m <> "metadata").
Proof.
  vm_compute. repeat split.
  intros m [<-|[]]. discriminate.
Qed.

(** ** Running the matcher again *)

Section AgainFacts.
Import Text SeriesMatcher Vocabulary.
Context {fuzz : Fuzz}.

(** *** No pair twice *)

Lemma pairs_update_first (p : SeriesMatch.t -> bool) (c : Z) (method : string)
    (l : list SeriesMatch.t) :
  map pair_of (update_first p (fun m => SeriesMatch.set_score m c method) l)
  = map pair_of l.
Proof.
  induction l as [|x l IH]; simpl; [reflexivity|].
  destruct (p x); simpl; [reflexivity|now rewrite IH].
Qed.

Lemma same_pair_iff (i j : Z) (x : SeriesMatch.t) :
  same_pair i j x = true <-> pair_of x = (i, j).
Proof.
  unfold same_pair, pair_of. rewrite andb_true_iff, !Z.eqb_eq.
  split; [intros [-> ->]; reflexivity|intros H; inversion H; now split].
Qed.

Lemma upsert_keeps_pairs_distinct (d : DB) (a : AudiobookItem.t)
    (s : Series.t) (c : Z) (method : string) :
  NoDup (map pair_of (series_matches d)) ->
  NoDup (map pair_of
           (series_matches (match_audiobook_to_series d a s c method))).
Proof.
  intros Hnodup. unfold match_audiobook_to_series.
  destruct (List.find _ (series_matches d)) as [r0|] eqn:Hfind; simpl.
  - now rewrite pairs_update_first.
  - rewrite map_app. simpl. apply NoDup_app. split; [assumption|].
    split; [|apply NoDup_singleton].
    intros pr Hin Hnew. apply list_elem_of_In in Hin.
    apply in_map_iff in Hin. destruct Hin as (x & <- & Hx).
    apply list_elem_of_In in Hnew. destruct Hnew as [Hnew|[]].
    pose proof (find_none_forall _ _ Hfind x Hx) as Hno.
    simpl in Hno. unfold pair_of in Hnew. simpl in Hnew.
    assert (same_pair (AudiobookItem.id a) (Series.id s) x = true) as Hyes
        by (apply same_pair_iff; now symmetry).
    congruence.
Qed.

(** *** The loop body without a provider *)

Lemma local_name_reindexed (a : AudiobookItem.t) (v : option string) :
  local_name (AudiobookItem.set_series_index a v) = local_name a.
Proof. reflexivity. Qed.

Lemma match_local_db (st : state) (a : AudiobookItem.t) :
  db (fst (match_local st a))
  = match local_name a with
    | Some (name, c, method) =>
        match_audiobook_to_series
          (fst (find_or_create_series (db st) name (AudiobookItem.author a)))
          a
          (snd (find_or_create_series (db st) name (AudiobookItem.author a)))
          c method
    | None => fst (_fuzzy_match_to_existing_series (matcher st) (db st) a)
    end.
Proof.
  unfold match_local, local_name.
  destruct (truthy (AudiobookItem.series_title a)).
  - destruct (find_or_create_series (db st) _ _) as [d1 s]. reflexivity.
  - destruct (Extract.extract_series_info (AudiobookItem.title a)) as [n i].
    cbn [fst]. destruct (truthy n).
    + destruct (find_or_create_series (db st) _ _) as [d1 s]. reflexivity.
    + destruct (_fuzzy_match_to_existing_series (matcher st) (db st) a)
        as [d1 a1]. reflexivity.
Qed.

Lemma match_local_matcher (st : state) (a : AudiobookItem.t) :
  matcher (fst (match_local st a)) = matcher st.
Proof.
  unfold match_local.
  destruct (truthy (AudiobookItem.series_title a)).
  - destruct (find_or_create_series (db st) _ _) as [d1 s]. reflexivity.
  - destruct (Extract.extract_series_info (AudiobookItem.title a)) as [n i].
    destruct (truthy n).
    + destruct (find_or_create_series (db st) _ _) as [d1 s]. reflexivity.
    + destruct (_fuzzy_match_to_existing_series (matcher st) (db st) a)
        as [d1 a1]. reflexivity.
Qed.

Lemma fuzzy_match_reindexes (m : t) (d : DB) (a : AudiobookItem.t) :
  exists v, snd (_fuzzy_match_to_existing_series m d a)
            = AudiobookItem.set_series_index a v.
Proof.
  unfold _fuzzy_match_to_existing_series.
  destruct (fuzzy_best _ _ _) as [[s|] score].
  - destruct (Extract.extract_series_info (AudiobookItem.title a)) as [n i].
    destruct (truthy i); [now exists i|].
    exists (AudiobookItem.series_index a). now destruct a.
  - exists (AudiobookItem.series_index a). now destruct a.
Qed.

Lemma match_local_reindexes (st : state) (a : AudiobookItem.t) :
  exists v, snd (match_local st a) = AudiobookItem.set_series_index a v.
Proof.
  unfold match_local.
  destruct (truthy (AudiobookItem.series_title a)).
  - destruct (find_or_create_series (db st) _ _) as [d1 s].
    exists (AudiobookItem.series_index a). now destruct a.
  - destruct (Extract.extract_series_info (AudiobookItem.title a)) as [n i].
    destruct (truthy n).
    + destruct (find_or_create_series (db st) _ _) as [d1 s]. now exists i.
    + destruct (fuzzy_match_reindexes (matcher st) (db st) a) as (v & Hv).
      destruct (_fuzzy_match_to_existing_series (matcher st) (db st) a)
        as [d1 a1]. now exists v.
Qed.

Lemma match_one_offline (net : SeriesLookup.Net) (st : state)
    (a : AudiobookItem.t) :
  series_lookup (matcher st) = None ->
  match_one net st a = match_local st a.
Proof.
  intros Hoff. unfold match_one. now rewrite external_lookup_off.
Qed.

End AgainFacts.

Section StepAgain.
Import Text SeriesMatcher Vocabulary.
Context {fuzz : Fuzz}.

Lemma find_update_first_other {A : Type} (p q : A -> bool) (f : A -> A)
    (l : list A) :
  (forall x, q (f x) = q x) ->
  (forall x, p x = true -> q x = false) ->
  List.find q (update_first p f l) = List.find q l.
Proof.
  intros Hq Hpq. induction l as [|x l IH]; simpl; [reflexivity|].
  destruct (p x) eqn:Hp; simpl.
  - now rewrite Hq, (Hpq x Hp).
  - now rewrite IH.
Qed.

Lemma same_pair_other (i j i' j' : Z) (x : SeriesMatch.t) :
  i <> i' -> same_pair i' j' x = true -> same_pair i j x = false.
Proof.
  intros Hne Hx. apply same_pair_iff in Hx.
  destruct (same_pair i j x) eqn:Hy; [|reflexivity].
  apply same_pair_iff in Hy. congruence.
Qed.

(** The upsert for one audiobook does not disturb the rows of another. *)
Lemma upsert_find_other (d : DB) (b : AudiobookItem.t) (s : Series.t)
    (c : Z) (method : string) (i sid : Z) :
  i <> AudiobookItem.id b ->
  List.find (same_pair i sid)
    (series_matches (match_audiobook_to_series d b s c method))
  = List.find (same_pair i sid) (series_matches d).
Proof.
  intros Hne. unfold match_audiobook_to_series.
  destruct (List.find _ (series_matches d)) as [r0|] eqn:Hfind; simpl.
  - apply find_update_first_other; [reflexivity|].
    intros x Hx. exact (same_pair_other _ _ _ _ x Hne Hx).
  - destruct (List.find (same_pair i sid) (series_matches d)) as [r|] eqn:Hi.
    + now apply find_app_found.
    + rewrite (find_app_missing _ _ _ Hi). simpl.
      unfold same_pair at 1. simpl.
      destruct (Z.eqb_spec (AudiobookItem.id b) i) as [Heq|_];
        [congruence|reflexivity].
Qed.

Lemma local_step_frame (st : state) (b : AudiobookItem.t) (i sid : Z) :
  i <> AudiobookItem.id b ->
  List.find (same_pair i sid) (series_matches (db (fst (match_local st b))))
  = List.find (same_pair i sid) (series_matches (db st)).
Proof.
  intros Hne. rewrite match_local_db.
  destruct (local_name b) as [[[name c] method]|].
  - rewrite upsert_find_other by assumption.
    now rewrite find_or_create_series_matches.
  - destruct (fuzzy_match_cases (matcher st) (db st) b)
      as [(_ & ->)|(s & score & _ & _ & _ & _ & ->)]; [reflexivity|].
    now apply upsert_find_other.
Qed.

Lemma local_step_series (st : state) (b : AudiobookItem.t) :
  exists added,
    series (db (fst (match_local st b))) = (series (db st) ++ added)%list.
Proof.
  rewrite match_local_db.
  destruct (local_name b) as [[[name c] method]|].
  - rewrite match_audiobook_to_series_series.
    destruct (find_or_create_series_cases (db st) name (AudiobookItem.author b))
      as [(s & _ & _ & ->)|(_ & ->)]; simpl.
    + exists []. now rewrite app_nil_r.
    + now eexists.
  - exists []. rewrite app_nil_r.
    destruct (fuzzy_match_cases (matcher st) (db st) b)
      as [(_ & ->)|(s & score & _ & _ & _ & _ & ->)]; [reflexivity|].
    apply match_audiobook_to_series_series.
Qed.

Lemma find_named (d : DB) (name : string) :
  List.find (fun s => Sql.ilike (Series.series_name s) ("%" ++ name ++ "%"))
    (series d)
  = List.find (named name) (series d).
Proof. reflexivity. Qed.

Lemma local_step_series_resolved (st : state) (b : AudiobookItem.t) :
  resolved (series (db st)) b ->
  series (db (fst (match_local st b))) = series (db st).
Proof.
  intros Hres. rewrite match_local_db.
  destruct (local_name b) as [[[name c] method]|] eqn:Hname.
  - rewrite match_audiobook_to_series_series.
    destruct (find_or_create_series_cases (db st) name (AudiobookItem.author b))
      as [(s & _ & _ & ->)|(Hnone & _)]; [reflexivity|].
    rewrite find_named in Hnone. now destruct (Hres name c method Hname).
  - destruct (fuzzy_match_cases (matcher st) (db st) b)
      as [(_ & ->)|(s & score & _ & _ & _ & _ & ->)]; [reflexivity|].
    apply match_audiobook_to_series_series.
Qed.

Lemma append_nil_r (s : string) : s ++ "" = s.
Proof.
  induction s as [|c s IH]; [reflexivity|].
  now rewrite append_cons, IH.
Qed.

Lemma named_self (name : string) (i : Z) (author : option string) (n : Z) :
  named name (Series.mk i name author n) = true.
Proof.
  unfold named. simpl.
  apply (ilike_contains name name "" "").
  now rewrite append_nil, append_nil_r.
Qed.

(** After its own step an audiobook finds its name in the series table
    and its membership in the membership table. *)
Lemma local_step_settles (st : state) (a : AudiobookItem.t) :
  resolved (series (db (fst (match_local st a)))) a
  /\ row_ok (confidence_threshold (matcher st))
       (series (db (fst (match_local st a))))
       (series_matches (db (fst (match_local st a)))) a.
Proof.
  rewrite match_local_db. unfold resolved, row_ok, wanted.
  destruct (local_name a) as [[[name c] method]|] eqn:Hname.
  - rewrite match_audiobook_to_series_series.
    assert (List.find (named name)
              (series (fst (find_or_create_series (db st) name
                              (AudiobookItem.author a))))
            = Some (snd (find_or_create_series (db st) name
                           (AudiobookItem.author a)))) as Hfound.
    { destruct (find_or_create_series_cases (db st) name
                  (AudiobookItem.author a))
        as [(s & Hs & _ & ->)|(Hnone & ->)]; simpl.
      - exact Hs.
      - rewrite find_named in Hnone.
        rewrite (find_app_missing _ _ _ Hnone). simpl.
        now rewrite named_self. }
    split.
    + intros name' c' method' Heq. inversion Heq; subst. now rewrite Hfound.
    + intros sid c' method' Hwant. rewrite Hfound in Hwant.
      inversion Hwant; subst.
      destruct (match_audiobook_to_series_row
                  (fst (find_or_create_series (db st) name
                          (AudiobookItem.author a)))
                  a
                  (snd (find_or_create_series (db st) name
                          (AudiobookItem.author a)))
                  c' method') as (r & Hr & _ & _ & Hc & Hm).
      now exists r.
  - split; [intros name c method Heq; discriminate|].
    intros sid c method Hwant.
    destruct (fuzzy_match_cases (matcher st) (db st) a)
      as [(Hnone & Hsame)|(s & score & Hbest & _ & _ & _ & Hfst)].
    + rewrite Hsame in Hwant. simpl in Hwant.
      destruct (fuzzy_best _ _ _) as [[s|] score]; [discriminate|discriminate].
    + rewrite Hfst in *. rewrite match_audiobook_to_series_series in Hwant.
      rewrite Hbest in Hwant. inversion Hwant; subst.
      destruct (match_audiobook_to_series_row (db st) a s c "fuzzy_match")
        as (r & Hr & _ & _ & Hc & Hm).
      now exists r.
Qed.

Lemma resolved_grow (all_series added : list Series.t) (a : AudiobookItem.t) :
  resolved all_series a -> resolved (all_series ++ added) a.
Proof.
  intros Hres name c method Hname.
  specialize (Hres name c method Hname).
  destruct (List.find (named name) all_series) as [s|] eqn:Hfind;
    [|contradiction].
  now rewrite (find_app_found _ _ added _ Hfind).
Qed.

Lemma wanted_grow (threshold : Z) (all_series added : list Series.t)
    (a : AudiobookItem.t) :
  resolved all_series a ->
  local_name a <> None ->
  wanted threshold (all_series ++ added) a = wanted threshold all_series a.
Proof.
  intros Hres Hlocal. unfold wanted.
  destruct (local_name a) as [[[name c] method]|] eqn:Hname; [|contradiction].
  specialize (Hres name c method Hname).
  destruct (List.find (named name) all_series) as [s|] eqn:Hfind;
    [|contradiction].
  now rewrite (find_app_found _ _ added _ Hfind).
Qed.

Lemma set_score_same (r : SeriesMatch.t) :
  SeriesMatch.set_score r (SeriesMatch.confidence_score r)
    (SeriesMatch.match_method r) = r.
Proof. now destruct r. Qed.

Lemma upsert_fixed (d : DB) (a : AudiobookItem.t) (s : Series.t) (c : Z)
    (method : string) (r : SeriesMatch.t) :
  List.find (same_pair (AudiobookItem.id a) (Series.id s)) (series_matches d)
  = Some r ->
  SeriesMatch.confidence_score r = c ->
  SeriesMatch.match_method r = method ->
  match_audiobook_to_series d a s c method = d.
Proof.
  intros Hfind <- <-. unfold match_audiobook_to_series. rewrite Hfind.
  rewrite (update_first_fixed _ _ _ r Hfind (set_score_same r)).
  now destruct d.
Qed.

(** A step on tables that already hold its outcome changes nothing. *)
Lemma local_step_fixed (st : state) (a : AudiobookItem.t) :
  resolved (series (db st)) a ->
  row_ok (confidence_threshold (matcher st)) (series (db st))
    (series_matches (db st)) a ->
  db (fst (match_local st a)) = db st.
Proof.
  intros Hres Hrow. rewrite match_local_db.
  unfold resolved, row_ok, wanted in *.
  destruct (local_name a) as [[[name c] method]|] eqn:Hname.
  - specialize (Hres name c method eq_refl).
    destruct (find_or_create_series_cases (db st) name (AudiobookItem.author a))
      as [(s & Hs & _ & ->)|(Hnone & _)]; simpl.
    + rewrite find_named in Hs. rewrite Hs in Hrow.
      destruct (Hrow _ _ _ eq_refl) as (r & Hr & Hc & Hm).
      exact (upsert_fixed _ _ _ _ _ r Hr Hc Hm).
    + rewrite find_named in Hnone. contradiction.
  - destruct (fuzzy_match_cases (matcher st) (db st) a)
      as [(_ & ->)|(s & score & Hbest & _ & _ & _ & ->)]; [reflexivity|].
    rewrite Hbest in Hrow.
    destruct (Hrow _ _ _ eq_refl) as (r & Hr & Hc & Hm).
    exact (upsert_fixed _ _ _ _ _ r Hr Hc Hm).
Qed.

End StepAgain.

Section LoopAgain.
Import Text SeriesMatcher Vocabulary.
Context {fuzz : Fuzz}.
Variable net : SeriesLookup.Net.

Lemma match_loop_cons (st : state) (a : AudiobookItem.t)
    (rest : list AudiobookItem.t) :
  match_loop net st (a :: rest)
  = (fst (match_loop net (fst (match_one net st a)) rest),
     snd (match_one net st a)
       :: snd (match_loop net (fst (match_one net st a)) rest)).
Proof.
  simpl. destruct (match_one net st a) as [st1 a1]. cbn [fst snd].
  destruct (match_loop net st1 rest) as [st2 rest2]. reflexivity.
Qed.

Lemma loop_offline_matcher (todo : list AudiobookItem.t) :
  forall st : state,
    series_lookup (matcher st) = None ->
    matcher (fst (match_loop net st todo)) = matcher st.
Proof.
  induction todo as [|a rest IH]; intros st Hoff; [reflexivity|].
  rewrite match_loop_cons. cbn [fst].
  rewrite (match_one_offline net st a Hoff).
  rewrite IH; rewrite match_local_matcher; trivial.
Qed.

Lemma loop_reindexes (todo : list AudiobookItem.t) :
  forall st : state,
    series_lookup (matcher st) = None ->
    Forall2 (fun a a1 => exists v, a1 = AudiobookItem.set_series_index a v)
      todo (snd (match_loop net st todo)).
Proof.
  induction todo as [|a rest IH]; intros st Hoff; [constructor|].
  rewrite match_loop_cons. cbn [snd].
  rewrite (match_one_offline net st a Hoff). constructor.
  - apply match_local_reindexes.
  - apply IH. now rewrite match_local_matcher.
Qed.

Lemma loop_series (todo : list AudiobookItem.t) :
  forall st : state,
    series_lookup (matcher st) = None ->
    exists added,
      series (db (fst (match_loop net st todo)))
      = (series (db st) ++ added)%list.
Proof.
  induction todo as [|a rest IH]; intros st Hoff.
  - exists []. now rewrite app_nil_r.
  - rewrite match_loop_cons. cbn [fst].
    rewrite (match_one_offline net st a Hoff).
    destruct (IH (fst (match_local st a))) as (added2 & ->);
      [now rewrite match_local_matcher|].
    destruct (local_step_series st a) as (added1 & ->).
    exists (added1 ++ added2)%list. now rewrite app_assoc.
Qed.

Lemma loop_frame (todo : list AudiobookItem.t) :
  forall (st : state) (i sid : Z),
    series_lookup (matcher st) = None ->
    ~ In i (map AudiobookItem.id todo) ->
    List.find (same_pair i sid)
      (series_matches (db (fst (match_loop net st todo))))
    = List.find (same_pair i sid) (series_matches (db st)).
Proof.
  induction todo as [|a rest IH]; intros st i sid Hoff Hnot; [reflexivity|].
  rewrite match_loop_cons. cbn [fst].
  rewrite (match_one_offline net st a Hoff).
  simpl in Hnot.
  rewrite IH; [|now rewrite match_local_matcher|tauto].
  apply local_step_frame. intros ->. tauto.
Qed.

(** After a run every audiobook finds its name in the series table, and
    the ones the hint or the title patterns decide find their
    membership. *)
Lemma loop_settles (todo : list AudiobookItem.t) :
  forall st : state,
    series_lookup (matcher st) = None ->
    NoDup (map AudiobookItem.id todo) ->
    forall a, In a todo ->
      resolved (series (db (fst (match_loop net st todo)))) a
      /\ (local_name a <> None ->
          row_ok (confidence_threshold (matcher st))
            (series (db (fst (match_loop net st todo))))
            (series_matches (db (fst (match_loop net st todo)))) a).
Proof.
  induction todo as [|b rest IH]; intros st Hoff Hnodup a Hin; [contradiction|].
  rewrite match_loop_cons. cbn [fst].
  rewrite (match_one_offline net st b Hoff).
  assert (series_lookup (matcher (fst (match_local st b))) = None) as Hoff1
      by now rewrite match_local_matcher.
  simpl in Hnodup. apply NoDup_cons in Hnodup.
  destruct Hnodup as (Hfresh & Hnodup).
  destruct Hin as [<-|Hin].
  - destruct (local_step_settles st b) as (Hres & Hrow).
    destruct (loop_series rest (fst (match_local st b)) Hoff1) as (added & ->).
    split; [now apply resolved_grow|].
    intros Hlocal sid c method Hwant.
    rewrite (wanted_grow _ _ _ _ Hres Hlocal) in Hwant.
    destruct (Hrow sid c method Hwant) as (r & Hr & Hc & Hm).
    exists r. split; [|now split].
    rewrite loop_frame; [exact Hr|exact Hoff1|].
    intros Hb. apply Hfresh. now apply list_elem_of_In.
  - destruct (IH (fst (match_local st b)) Hoff1 Hnodup a Hin) as (Hres & Hrow).
    rewrite match_local_matcher in Hrow. now split.
Qed.

(** A run on a series table that already resolves every name creates no
    series and leaves every audiobook with its membership. *)
Lemma loop_on_resolved (todo : list AudiobookItem.t) :
  forall st : state,
    series_lookup (matcher st) = None ->
    NoDup (map AudiobookItem.id todo) ->
    (forall a, In a todo -> resolved (series (db st)) a) ->
    series (db (fst (match_loop net st todo))) = series (db st)
    /\ forall a, In a todo ->
         row_ok (confidence_threshold (matcher st)) (series (db st))
           (series_matches (db (fst (match_loop net st todo)))) a.
Proof.
  induction todo as [|b rest IH]; intros st Hoff Hnodup Hres;
    [split; [reflexivity|intros a []]|].
  rewrite match_loop_cons. cbn [fst].
  rewrite (match_one_offline net st b Hoff).
  assert (series_lookup (matcher (fst (match_local st b))) = None) as Hoff1
      by now rewrite match_local_matcher.
  simpl in Hnodup. apply NoDup_cons in Hnodup.
  destruct Hnodup as (Hfresh & Hnodup).
  pose proof (local_step_series_resolved st b (Hres b (or_introl eq_refl)))
    as Hsame.
  destruct (IH (fst (match_local st b)) Hoff1 Hnodup) as (Hseries & Hrows).
  { intros a Hin. rewrite Hsame. apply Hres. now right. }
  rewrite Hsame in Hseries, Hrows. rewrite match_local_matcher in Hrows.
  split; [exact Hseries|].
  intros a [<-|Hin]; [|now apply Hrows].
  destruct (local_step_settles st b) as (_ & Hrow). rewrite Hsame in Hrow.
  intros sid c method Hwant.
  destruct (Hrow sid c method Hwant) as (r & Hr & Hc & Hm).
  exists r. split; [|now split].
  rewrite loop_frame; [exact Hr|exact Hoff1|].
  intros Hb. apply Hfresh. now apply list_elem_of_In.
Qed.

(** A run on tables that already hold every outcome changes nothing. *)
Lemma loop_fixed (todo : list AudiobookItem.t) :
  forall st : state,
    series_lookup (matcher st) = None ->
    (forall a, In a todo ->
       resolved (series (db st)) a
       /\ row_ok (confidence_threshold (matcher st)) (series (db st))
            (series_matches (db st)) a) ->
    db (fst (match_loop net st todo)) = db st.
Proof.
  induction todo as [|b rest IH]; intros st Hoff Hall; [reflexivity|].
  rewrite match_loop_cons. cbn [fst].
  rewrite (match_one_offline net st b Hoff).
  destruct (Hall b (or_introl eq_refl)) as (Hres & Hrow).
  pose proof (local_step_fixed st b Hres Hrow) as Hsame.
  rewrite IH; [exact Hsame|now rewrite match_local_matcher|].
  intros a Hin. rewrite Hsame, match_local_matcher. apply Hall. now right.
Qed.

End LoopAgain.

Section AppendsAgain.
Import Text SeriesMatcher Vocabulary.
Context {fuzz : Fuzz}.
Variable net : SeriesLookup.Net.

(** *** Fresh series ids and memberships that point at stored series *)

Lemma next_id_fresh (ids : list Z) (x : Z) : In x ids -> x < next_id ids.
Proof.
  unfold next_id. induction ids as [|y ids IH]; simpl; [contradiction|].
  intros [->|Hin]; [lia|]. specialize (IH Hin). lia.
Qed.

Lemma local_step_series_fresh (st : state) (b : AudiobookItem.t) :
  exists added,
    series (db (fst (match_local st b))) = (series (db st) ++ added)%list
    /\ forall s s', In s added -> In s' (series (db st)) ->
                    Series.id s' < Series.id s.
Proof.
  rewrite match_local_db.
  destruct (local_name b) as [[[name c] method]|].
  - rewrite match_audiobook_to_series_series.
    destruct (find_or_create_series_cases (db st) name (AudiobookItem.author b))
      as [(s & _ & _ & ->)|(_ & ->)]; simpl.
    + exists []. split; [now rewrite app_nil_r|intros s0 s' []].
    + eexists. split; [reflexivity|].
      intros s0 s' [<-|[]] Hin'. simpl.
      apply next_id_fresh, in_map, Hin'.
  - exists []. rewrite app_nil_r. split; [|intros s0 s' []].
    destruct (fuzzy_match_cases (matcher st) (db st) b)
      as [(_ & ->)|(s & score & _ & _ & _ & _ & ->)]; [reflexivity|].
    apply match_audiobook_to_series_series.
Qed.

Lemma loop_series_fresh (todo : list AudiobookItem.t) :
  forall st : state,
    series_lookup (matcher st) = None ->
    exists added,
      series (db (fst (match_loop net st todo)))
      = (series (db st) ++ added)%list
      /\ forall s s', In s added -> In s' (series (db st)) ->
                      Series.id s' < Series.id s.
Proof.
  induction todo as [|a rest IH]; intros st Hoff.
  - exists []. split; [now rewrite app_nil_r|intros s s' []].
  - rewrite match_loop_cons. cbn [fst].
    rewrite (match_one_offline net st a Hoff).
    destruct (IH (fst (match_local st a))) as (added2 & -> & Hfresh2);
      [now rewrite match_local_matcher|].
    destruct (local_step_series_fresh st a) as (added1 & Hstep & Hfresh1).
    rewrite Hstep in *.
    exists (added1 ++ added2)%list. split; [now rewrite app_assoc|].
    intros s s' Hin Hin'. apply in_app_or in Hin. destruct Hin as [Hin|Hin].
    + now apply Hfresh1.
    + apply Hfresh2; [exact Hin|]. apply in_or_app. now left.
Qed.

Lemma update_first_in {A : Type} (p : A -> bool) (f : A -> A) (l : list A)
    (r : A) :
  In r (update_first p f l) -> In r l \/ exists x, In x l /\ r = f x.
Proof.
  induction l as [|y l IH]; simpl; [tauto|].
  destruct (p y); simpl.
  - intros [<-|Hin]; [right; exists y; split; [now left|reflexivity]|].
    left. now right.
  - intros [<-|Hin]; [left; now left|].
    destruct (IH Hin) as [H|(x & Hx & ->)]; [left; now right|].
    right. exists x. split; [now right|reflexivity].
Qed.

Lemma references_resolve (d : DB) (name : string) (author : option string) :
  references (series d) (series_matches d) ->
  references (series (fst (find_or_create_series d name author)))
    (series_matches (fst (find_or_create_series d name author))).
Proof.
  intros Href.
  destruct (find_or_create_series_cases d name author)
    as [(s & _ & _ & ->)|(_ & ->)]; simpl; [exact Href|].
  intros r Hr. destruct (Href r Hr) as (s & Hs & Hid).
  exists s. split; [apply in_or_app; now left|exact Hid].
Qed.

Lemma references_upsert (d : DB) (a : AudiobookItem.t) (s : Series.t)
    (c : Z) (method : string) :
  references (series d) (series_matches d) ->
  In s (series d) ->
  references (series (match_audiobook_to_series d a s c method))
    (series_matches (match_audiobook_to_series d a s c method)).
Proof.
  intros Href Hs. rewrite match_audiobook_to_series_series.
  unfold match_audiobook_to_series.
  destruct (List.find _ (series_matches d)) as [r0|] eqn:Hfind; simpl.
  - intros r Hr.
    destruct (update_first_in _ _ _ r Hr) as [Hin|(x & Hx & ->)];
      [now apply Href|].
    exact (Href x Hx).
  - intros r Hr. apply in_app_or in Hr. destruct Hr as [Hr|[<-|[]]].
    + now apply Href.
    + exists s. now split.
Qed.

Lemma local_step_references (st : state) (b : AudiobookItem.t) :
  series_lookup (matcher st) = None ->
  references (series (db st)) (series_matches (db st)) ->
  references (series (db (fst (match_local st b))))
    (series_matches (db (fst (match_local st b)))).
Proof.
  intros Hoff Href. rewrite <- (match_one_offline net st b Hoff).
  apply (match_one_keeps references); try assumption.
  - apply references_resolve.
  - apply references_upsert.
Qed.

(** *** The best series over a table that has grown *)

Lemma fuzzy_fold_from (threshold : Z) (a : AudiobookItem.t)
    (added : list Series.t) :
  forall best r : option Series.t * Z,
    fold_left
      (fun (best : option Series.t * Z) (s : Series.t) =>
         let score := fuzzy_score a s in
         if ((score >? snd best) && (score >=? threshold))%bool
         then (Some s, score) else best)
      added best = r ->
    r = best \/ exists s, In s added /\ fst r = Some s.
Proof.
  induction added as [|s added IH]; intros best r Hr; simpl in Hr;
    [now left|].
  destruct ((fuzzy_score a s >? snd best)
            && (fuzzy_score a s >=? threshold))%bool.
  - right. destruct (IH _ _ Hr) as [->|(s' & Hin & Hs')].
    + exists s. split; [now left|reflexivity].
    + exists s'. split; [now right|exact Hs'].
  - destruct (IH _ _ Hr) as [->|(s' & Hin & Hs')]; [now left|].
    right. exists s'. split; [now right|exact Hs'].
Qed.

Lemma fuzzy_best_app (threshold : Z) (a : AudiobookItem.t)
    (all_series added : list Series.t) :
  fuzzy_best threshold a (all_series ++ added)
  = fuzzy_best threshold a all_series
  \/ exists s, In s added
               /\ fst (fuzzy_best threshold a (all_series ++ added)) = Some s.
Proof.
  unfold fuzzy_best. rewrite fold_left_app.
  now apply (fuzzy_fold_from threshold a added).
Qed.

(** *** What the fuzzy fallback finds on the next run *)

Lemma row_ok_frame (threshold : Z) (all_series : list Series.t)
    (rows rows' : list SeriesMatch.t) (a : AudiobookItem.t) :
  (forall sid, List.find (same_pair (AudiobookItem.id a) sid) rows'
               = List.find (same_pair (AudiobookItem.id a) sid) rows) ->
  row_ok threshold all_series rows a ->
  row_ok threshold all_series rows' a.
Proof.
  intros Hsame Hrow sid c method Hwant. rewrite Hsame. now apply Hrow.
Qed.

Lemma row_consistent_frame (threshold : Z) (all_series : list Series.t)
    (rows rows' : list SeriesMatch.t) (a : AudiobookItem.t) :
  (forall sid, List.find (same_pair (AudiobookItem.id a) sid) rows'
               = List.find (same_pair (AudiobookItem.id a) sid) rows) ->
  row_consistent threshold all_series rows a ->
  row_consistent threshold all_series rows' a.
Proof.
  intros Hsame Hrow sid c method r Hwant Hfind. rewrite Hsame in Hfind.
  now apply (Hrow sid c method r).
Qed.

(** After a run that started from memberships pointing at stored series,
    a record left to the fuzzy fallback has, for the series it would be
    matched to on the next run, either no membership yet or the
    membership with that very score. *)
Lemma loop_consistent (todo : list AudiobookItem.t) :
  forall st : state,
    series_lookup (matcher st) = None ->
    NoDup (map AudiobookItem.id todo) ->
    references (series (db st)) (series_matches (db st)) ->
    forall a, In a todo ->
      local_name a = None ->
      row_consistent (confidence_threshold (matcher st))
        (series (db (fst (match_loop net st todo))))
        (series_matches (db (fst (match_loop net st todo)))) a.
Proof.
  induction todo as [|b rest IH]; intros st Hoff Hnodup Href a Hin Hfuzzy;
    [contradiction|].
  rewrite match_loop_cons. cbn [fst].
  rewrite (match_one_offline net st b Hoff).
  assert (series_lookup (matcher (fst (match_local st b))) = None) as Hoff1
      by now rewrite match_local_matcher.
  pose proof (local_step_references st b Hoff Href) as Href1.
  simpl in Hnodup. apply NoDup_cons in Hnodup.
  destruct Hnodup as (Hfresh & Hnodup).
  destruct Hin as [<-|Hin].
  - assert (series (db (fst (match_local st b))) = series (db st)) as Hsame.
    { apply local_step_series_resolved. intros name c method Hname.
      congruence. }
    destruct (local_step_settles st b) as (_ & Hrow).
    destruct (loop_series_fresh rest (fst (match_local st b)) Hoff1)
      as (added & Hseries & Hnew).
    rewrite Hseries.
    apply (row_consistent_frame _ _
             (series_matches (db (fst (match_local st b))))).
    { intros sid. apply loop_frame; [exact Hoff1|].
      intros Hb. apply Hfresh. now apply list_elem_of_In. }
    intros sid c method r Hwant Hfind.
    unfold wanted in Hwant. rewrite Hfuzzy in Hwant.
    destruct (fuzzy_best_app (confidence_threshold (matcher st)) b
                (series (db (fst (match_local st b)))) added)
      as [Heq|(s & Hs & Hbest)].
    + rewrite Heq in Hwant.
      assert (wanted (confidence_threshold (matcher st))
                (series (db (fst (match_local st b)))) b
              = Some (sid, c, method)) as Hwant'
          by (unfold wanted; now rewrite Hfuzzy).
      destruct (Hrow sid c method Hwant') as (r' & Hr' & Hc & Hm).
      rewrite Hfind in Hr'. inversion Hr'; subst. now split.
    + destruct (fuzzy_best _ _ _) as [[s0|] score] in Hwant, Hbest;
        [|discriminate].
      simpl in Hbest. inversion Hbest; subst s0.
      inversion Hwant; subst sid c method.
      apply List.find_some in Hfind. destruct Hfind as (Hr & Hpair).
      apply same_pair_iff in Hpair. inversion Hpair as [[Ha Hsid]].
      destruct (Href1 r Hr) as (s' & Hs' & Hid).
      specialize (Hnew s s' Hs Hs'). lia.
  - specialize (IH (fst (match_local st b)) Hoff1 Hnodup Href1 a Hin Hfuzzy).
    now rewrite match_local_matcher in IH.
Qed.

(** *** A run that only appends *)

Lemma local_step_appends (st : state) (a : AudiobookItem.t) :
  resolved (series (db st)) a ->
  (local_name a <> None ->
   row_ok (confidence_threshold (matcher st)) (series (db st))
     (series_matches (db st)) a) ->
  (local_name a = None ->
   row_consistent (confidence_threshold (matcher st)) (series (db st))
     (series_matches (db st)) a) ->
  series (db (fst (match_local st a))) = series (db st)
  /\ exists extra,
       series_matches (db (fst (match_local st a)))
       = (series_matches (db st) ++ extra)%list
       /\ Forall (fun r => SeriesMatch.match_method r = "fuzzy_match") extra.
Proof.
  intros Hres Hok Hcons.
  split; [now apply local_step_series_resolved|].
  destruct (local_name a) as [[[name c] method]|] eqn:Hname.
  - rewrite (local_step_fixed st a Hres (Hok ltac:(discriminate))).
    exists []. split; [now rewrite app_nil_r|constructor].
  - specialize (Hcons eq_refl). rewrite match_local_db, Hname.
    destruct (fuzzy_match_cases (matcher st) (db st) a)
      as [(_ & ->)|(s & score & Hbest & _ & _ & _ & ->)].
    + exists []. split; [now rewrite app_nil_r|constructor].
    + assert (wanted (confidence_threshold (matcher st)) (series (db st)) a
              = Some (Series.id s, score, "fuzzy_match")) as Hwant
          by (unfold wanted; now rewrite Hname, Hbest).
      destruct (List.find (same_pair (AudiobookItem.id a) (Series.id s))
                  (series_matches (db st))) as [r|] eqn:Hfind.
      * destruct (Hcons _ _ _ r Hwant Hfind) as (Hc & Hm).
        rewrite (upsert_fixed _ _ _ _ _ r Hfind Hc Hm).
        exists []. split; [now rewrite app_nil_r|constructor].
      * unfold match_audiobook_to_series. rewrite Hfind. simpl.
        eexists. split; [reflexivity|]. now repeat constructor.
Qed.

Lemma loop_appends (todo : list AudiobookItem.t) :
  forall st : state,
    series_lookup (matcher st) = None ->
    NoDup (map AudiobookItem.id todo) ->
    (forall a, In a todo ->
       resolved (series (db st)) a
       /\ (local_name a <> None ->
           row_ok (confidence_threshold (matcher st)) (series (db st))
             (series_matches (db st)) a)
       /\ (local_name a = None ->
           row_consistent (confidence_threshold (matcher st)) (series (db st))
             (series_matches (db st)) a)) ->
    exists extra,
      series_matches (db (fst (match_loop net st todo)))
      = (series_matches (db st) ++ extra)%list
      /\ Forall (fun r => SeriesMatch.match_method r = "fuzzy_match") extra.
Proof.
  induction todo as [|b rest IH]; intros st Hoff Hnodup Hall.
  - exists []. split; [now rewrite app_nil_r|constructor].
  - rewrite match_loop_cons. cbn [fst].
    rewrite (match_one_offline net st b Hoff).
    assert (series_lookup (matcher (fst (match_local st b))) = None) as Hoff1
        by now rewrite match_local_matcher.
    simpl in Hnodup. apply NoDup_cons in Hnodup.
    destruct Hnodup as (Hfresh & Hnodup).
    destruct (Hall b (or_introl eq_refl)) as (Hres & Hok & Hcons).
    destruct (local_step_appends st b Hres Hok Hcons)
      as (Hseries & extra1 & Hrows & Hfuzzy1).
    destruct (IH (fst (match_local st b)) Hoff1 Hnodup)
      as (extra2 & Hrows2 & Hfuzzy2).
    { intros a Hin. rewrite Hseries, match_local_matcher.
      destruct (Hall a (or_intror Hin)) as (Hres' & Hok' & Hcons').
      assert (forall sid,
                 List.find (same_pair (AudiobookItem.id a) sid)
                   (series_matches (db (fst (match_local st b))))
                 = List.find (same_pair (AudiobookItem.id a) sid)
                     (series_matches (db st))) as Hframe.
      { intros sid. apply local_step_frame. intros Heq.
        apply Hfresh. apply list_elem_of_In. rewrite <- Heq.
        now apply in_map. }
      split; [exact Hres'|]. split.
      - intros Hlocal. exact (row_ok_frame _ _ _ _ _ Hframe (Hok' Hlocal)).
      - intros Hfuzzy.
        exact (row_consistent_frame _ _ _ _ _ Hframe (Hcons' Hfuzzy)). }
    exists (extra1 ++ extra2)%list. split.
    + now rewrite Hrows2, Hrows, app_assoc.
    + apply Forall_app. now split.
Qed.

End AppendsAgain.

Section RunAgain.
Import Text SeriesMatcher Vocabulary.
Context {fuzz : Fuzz}.
Variable net : SeriesLookup.Net.
Variable w : SeriesLookup.World.

Lemma rerun_tables (m : t) (d : DB) :
  audiobook_items (rerun net w m d)
  = snd (match_loop net (mkState m w d 0)
           (audiobook_items d))
  /\ series (rerun net w m d)
     = series (db (fst (match_loop net (mkState m w d 0)
                          (audiobook_items d))))
  /\ series_matches (rerun net w m d)
     = series_matches
         (db (fst (match_loop net (mkState m w d 0)
                     (audiobook_items d)))).
Proof.
  unfold rerun, match_all_audiobooks.
  destruct (match_loop net (mkState m w d 0)
              (audiobook_items d)) as [st audiobooks].
  now repeat split.
Qed.

Lemma reindexed_ids (l l1 : list AudiobookItem.t) :
  Forall2 (fun a a1 => exists v, a1 = AudiobookItem.set_series_index a v)
    l l1 ->
  map AudiobookItem.id l1 = map AudiobookItem.id l.
Proof.
  induction 1 as [|a a1 l l1 (v & ->) _ IH]; simpl; [reflexivity|].
  now rewrite IH.
Qed.

Lemma reindexed_in (l l1 : list AudiobookItem.t) (a1 : AudiobookItem.t) :
  Forall2 (fun a a1 => exists v, a1 = AudiobookItem.set_series_index a v)
    l l1 ->
  In a1 l1 ->
  exists a v, In a l /\ a1 = AudiobookItem.set_series_index a v.
Proof.
  induction 1 as [|a a' l l1 (v & ->) _ IH]; intros Hin; [contradiction|].
  destruct Hin as [<-|Hin].
  - exists a, v. split; [now left|reflexivity].
  - destruct (IH Hin) as (a0 & v0 & Hin0 & ->).
    exists a0, v0. split; [now right|reflexivity].
Qed.

Lemma reindexed_out (l l1 : list AudiobookItem.t) (a : AudiobookItem.t) :
  Forall2 (fun a a1 => exists v, a1 = AudiobookItem.set_series_index a v)
    l l1 ->
  In a l ->
  exists v, In (AudiobookItem.set_series_index a v) l1.
Proof.
  induction 1 as [|x x1 l l1 (v & ->) _ IH]; intros Hin; [contradiction|].
  destruct Hin as [->|Hin]; [exists v; now left|].
  destruct (IH Hin) as (v' & Hin'). exists v'. now right.
Qed.

Lemma rerun_items (m : t) (d : DB) :
  series_lookup m = None ->
  map AudiobookItem.id (audiobook_items (rerun net w m d))
  = map AudiobookItem.id (audiobook_items d)
  /\ forall a1, In a1 (audiobook_items (rerun net w m d)) ->
       exists a v, In a (audiobook_items d)
                   /\ a1 = AudiobookItem.set_series_index a v.
Proof.
  intros Hoff. destruct (rerun_tables m d) as (-> & _).
  pose proof (loop_reindexes net (audiobook_items d)
                (mkState m w d 0) Hoff) as H.
  split; [now apply reindexed_ids|].
  intros a1. now apply reindexed_in.
Qed.

(** After one run every audiobook finds its name, and those decided by
    the hint or the title patterns find their membership. *)
Lemma rerun_settles (m : t) (d : DB) :
  series_lookup m = None ->
  NoDup (map AudiobookItem.id (audiobook_items d)) ->
  forall a, In a (audiobook_items d) ->
    resolved (series (rerun net w m d)) a
    /\ (local_name a <> None ->
        row_ok (confidence_threshold m) (series (rerun net w m d))
          (series_matches (rerun net w m d)) a).
Proof.
  intros Hoff Hnodup a Hin.
  destruct (rerun_tables m d) as (_ & -> & ->).
  exact (loop_settles net (audiobook_items d)
           (mkState m w d 0) Hoff Hnodup a Hin).
Qed.

Lemma rerun_on_resolved (m : t) (d : DB) :
  series_lookup m = None ->
  NoDup (map AudiobookItem.id (audiobook_items d)) ->
  (forall a, In a (audiobook_items d) -> resolved (series d) a) ->
  series (rerun net w m d) = series d
  /\ forall a, In a (audiobook_items d) ->
       row_ok (confidence_threshold m) (series d)
         (series_matches (rerun net w m d)) a.
Proof.
  intros Hoff Hnodup Hres.
  destruct (rerun_tables m d) as (_ & -> & ->).
  exact (loop_on_resolved net (audiobook_items d)
           (mkState m w d 0) Hoff Hnodup Hres).
Qed.

Lemma rerun_fixed (m : t) (d : DB) :
  series_lookup m = None ->
  (forall a, In a (audiobook_items d) ->
     resolved (series d) a
     /\ row_ok (confidence_threshold m) (series d) (series_matches d) a) ->
  series (rerun net w m d) = series d
  /\ series_matches (rerun net w m d) = series_matches d.
Proof.
  intros Hoff Hall.
  destruct (rerun_tables m d) as (_ & -> & ->).
  rewrite (loop_fixed net (audiobook_items d)
             (mkState m w d 0) Hoff Hall).
  now split.
Qed.

Lemma rerun_consistent (m : t) (d : DB) :
  series_lookup m = None ->
  NoDup (map AudiobookItem.id (audiobook_items d)) ->
  references (series d) (series_matches d) ->
  forall a, In a (audiobook_items d) ->
    local_name a = None ->
    row_consistent (confidence_threshold m) (series (rerun net w m d))
      (series_matches (rerun net w m d)) a.
Proof.
  intros Hoff Hnodup Href a Hin Hfuzzy.
  destruct (rerun_tables m d) as (_ & -> & ->).
  exact (loop_consistent net (audiobook_items d) (mkState m w d 0)
           Hoff Hnodup Href a Hin Hfuzzy).
Qed.

Lemma rerun_appends (m : t) (d : DB) :
  series_lookup m = None ->
  NoDup (map AudiobookItem.id (audiobook_items d)) ->
  (forall a, In a (audiobook_items d) ->
     resolved (series d) a
     /\ (local_name a <> None ->
         row_ok (confidence_threshold m) (series d) (series_matches d) a)
     /\ (local_name a = None ->
         row_consistent (confidence_threshold m) (series d)
           (series_matches d) a)) ->
  exists extra,
    series_matches (rerun net w m d) = (series_matches d ++ extra)%list
    /\ Forall (fun r => SeriesMatch.match_method r = "fuzzy_match") extra.
Proof.
  intros Hoff Hnodup Hall.
  destruct (rerun_tables m d) as (_ & _ & ->).
  exact (loop_appends net (audiobook_items d) (mkState m w d 0)
           Hoff Hnodup Hall).
Qed.

Lemma upsert_length (d : DB) (a : AudiobookItem.t) (s : Series.t) (c : Z)
    (method : string) :
  (length (series_matches d)
   <= length (series_matches (match_audiobook_to_series d a s c method)))%nat.
Proof.
  unfold match_audiobook_to_series.
  destruct (List.find _ (series_matches d)); simpl.
  - now rewrite update_first_length.
  - rewrite length_app. lia.
Qed.

End RunAgain.

Section RematchClaim.
Import Text SeriesMatcher Vocabulary.
Context {fuzz : Fuzz}.

(** C2, amended. A run never produces two memberships for one
    (record, series) pair: a pair that is present is updated in place.
    With no external provider and unique record ids, running the matcher
    again creates no series and does not shrink the membership table;
    every record that the embedded hint or the title patterns decide
    has, after the second run, the membership of the same pair with the
    same score and method as after the first, and when every record is
    decided that way the second run leaves the membership table exactly
    as the first left it.  When the memberships the first run started
    from all point at stored series, the second run leaves every
    membership of the first run as it is and can only append memberships
    of the fuzzy fallback, for records that met their series only after
    the first run had passed them.  From the second run on nothing
    changes any more: the third run leaves series and memberships as the
    second left them. *)
Theorem rematch_converges :
  (forall (net : SeriesLookup.Net) (m : t) (w : SeriesLookup.World) (d : DB),
      NoDup (map pair_of (series_matches d)) ->
      NoDup (map pair_of
               (series_matches
                  (snd (fst (match_all_audiobooks net m w d))))))
  /\ (forall (net : SeriesLookup.Net) (w : SeriesLookup.World) (m : t)
             (d : DB),
         series_lookup m = None ->
         NoDup (map AudiobookItem.id (audiobook_items d)) ->
         let d1 := rerun net w m d in
         let d2 := rerun net w m d1 in
         let d3 := rerun net w m d2 in
         series d2 = series d1
         /\ (length (series_matches d1) <= length (series_matches d2))%nat
         /\ (forall a name c method,
                In a (audiobook_items d) ->
                local_name a = Some (name, c, method) ->
                exists sid r1 r2,
                  List.find (same_pair (AudiobookItem.id a) sid)
                    (series_matches d1) = Some r1
                  /\ List.find (same_pair (AudiobookItem.id a) sid)
                       (series_matches d2) = Some r2
                  /\ SeriesMatch.confidence_score r1 = c
                  /\ SeriesMatch.confidence_score r2 = c
                  /\ SeriesMatch.match_method r1 = method
                  /\ SeriesMatch.match_method r2 = method)
         /\ ((forall a, In a (audiobook_items d) -> local_name a <> None) ->
             series_matches d2 = series_matches d1)
         /\ (references (series d) (series_matches d) ->
             exists extra,
               series_matches d2 = (series_matches d1 ++ extra)%list
               /\ Forall
                    (fun r => SeriesMatch.match_method r = "fuzzy_match")
                    extra)
         /\ series d3 = series d2
         /\ series_matches d3 = series_matches d2).
Proof.
  split.
  - intros net m w d Hnodup.
    apply (match_all_keeps (fun _ M => NoDup (map pair_of M))).
    + intros d0 name author H. now rewrite find_or_create_series_matches.
    + intros d0 a s c method H _. now apply upsert_keeps_pairs_distinct.
    + exact Hnodup.
  - intros net w m d Hoff Hnodup d1 d2 d3.
    (* the first run *)
    pose proof (rerun_settles net w m d Hoff Hnodup) as Hfirst.
    destruct (rerun_items net w m d Hoff) as (Hids1 & Hfrom1).
    fold d1 in Hfirst, Hids1, Hfrom1.
    assert (NoDup (map AudiobookItem.id (audiobook_items d1))) as Hnodup1
        by now rewrite Hids1.
    assert (forall a1, In a1 (audiobook_items d1) -> resolved (series d1) a1)
      as Hres1.
    { intros a1 Hin1. destruct (Hfrom1 a1 Hin1) as (a & v & Hin & ->).
      exact (proj1 (Hfirst a Hin)). }
    (* the second run *)
    destruct (rerun_on_resolved net w m d1 Hoff Hnodup1 Hres1)
      as (Hseries2 & Hrows2).
    fold d2 in Hseries2, Hrows2.
    destruct (rerun_items net w m d1 Hoff) as (Hids2 & Hfrom2).
    fold d2 in Hids2, Hfrom2.
    assert (forall a, In a (audiobook_items d) ->
              row_ok (confidence_threshold m) (series d1)
                (series_matches d2) a) as Hrows2'.
    { intros a Hin.
      assert (exists v, In (AudiobookItem.set_series_index a v)
                          (audiobook_items d1)) as (v & Hin1).
      { destruct (rerun_tables net w m d) as (Hitems & _). fold d1 in Hitems.
        rewrite Hitems.
        exact (reindexed_out _ _ a
                 (loop_reindexes net (audiobook_items d)
                    (mkState m w d 0) Hoff) Hin). }
      exact (Hrows2 _ Hin1). }
    split; [exact Hseries2|]. split; [|split; [|split; [|split]]].
    + destruct (rerun_tables net w m d1) as (_ & _ & Hm2). fold d2 in Hm2.
      rewrite Hm2.
      apply (match_loop_keeps
               (fun _ M => (length (series_matches d1) <= length M)%nat)).
      * intros d0 name author H. now rewrite find_or_create_series_matches.
      * intros d0 a s c method H _.
        etransitivity; [exact H|apply upsert_length].
      * simpl. lia.
    + intros a name c method Hin Hname.
      destruct (Hfirst a Hin) as (Hres & Hrow1).
      assert (local_name a <> None) as Hlocal by congruence.
      specialize (Hrow1 Hlocal). specialize (Hrows2' a Hin).
      unfold row_ok, wanted in Hrow1, Hrows2'. rewrite Hname in Hrow1, Hrows2'.
      specialize (Hres name c method Hname).
      destruct (List.find (named name) (series d1)) as [s|]; [|contradiction].
      destruct (Hrow1 _ _ _ eq_refl) as (r1 & Hr1 & Hc1 & Hm1).
      destruct (Hrows2' _ _ _ eq_refl) as (r2 & Hr2 & Hc2 & Hm2).
      exists (Series.id s), r1, r2. now repeat split.
    + intros Hall.
      apply (rerun_fixed net w m d1 Hoff).
      intros a1 Hin1. destruct (Hfrom1 a1 Hin1) as (a & v & Hin & ->).
      destruct (Hfirst a Hin) as (Hres & Hrow). split; [exact Hres|].
      exact (Hrow (Hall a Hin)).
    + intros Href.
      pose proof (rerun_consistent net w m d Hoff Hnodup Href) as Hcons.
      fold d1 in Hcons.
      apply (rerun_appends net w m d1 Hoff Hnodup1).
      intros a1 Hin1. destruct (Hfrom1 a1 Hin1) as (a & v & Hin & ->).
      destruct (Hfirst a Hin) as (Hres & Hrow).
      split; [exact Hres|]. split; [exact Hrow|].
      exact (Hcons a Hin).
    + assert (series d3 = series d2 /\ series_matches d3 = series_matches d2)
        as Hthird; [|exact Hthird].
      apply (rerun_fixed net w m d2 Hoff).
      intros a2 Hin2. destruct (Hfrom2 a2 Hin2) as (a1 & v & Hin1 & ->).
      rewrite Hseries2. split; [exact (Hres1 a1 Hin1)|exact (Hrows2 a1 Hin1)].
Qed.

End RematchClaim.

(** The claim C2 as it is written: the first run over the two sample
    audiobooks leaves the first one unmatched and creates the series of
    the second; the second run, over the same records, matches the first
    audiobook to that series by the fuzzy fallback.  One membership after
    the first run, two after the second. *)
Lemma second_run_adds_membership :
  let d1 := @Vocabulary.rerun exact_fuzz Sample.offline Sample.noon
              Sample.local_matcher Sample.two_books in
  let d2 := @Vocabulary.rerun exact_fuzz Sample.offline Sample.noon
              Sample.local_matcher d1 in
  series_matches d1 = [SeriesMatch.mk 1 2 1 85 "title_pattern" false false]
  /\ series_matches d2
     = [ SeriesMatch.mk 1 2 1 85 "title_pattern" false false;
         SeriesMatch.mk 2 1 1 110 "fuzzy_match" false false ]
  /\ length (series_matches d1) <> length (series_matches d2).
Proof. vm_compute. repeat split. discriminate. Qed.

Lemma rematch_converges_witness :
  NoDup (map Vocabulary.pair_of
           (series_matches
              (snd (fst (@SeriesMatcher.match_all_audiobooks exact_fuzz
                           Sample.offline Sample.local_matcher Sample.noon
                           Sample.two_books)))))
  /\ (let d1 := @Vocabulary.rerun exact_fuzz Sample.offline Sample.noon
                  Sample.local_matcher Sample.two_books in
      let d2 := @Vocabulary.rerun exact_fuzz Sample.offline Sample.noon
                  Sample.local_matcher d1 in
      let d3 := @Vocabulary.rerun exact_fuzz Sample.offline Sample.noon
                  Sample.local_matcher d2 in
      series d2 = series d1
      /\ (exists extra,
             series_matches d2 = (series_matches d1 ++ extra)%list
             /\ Forall (fun r => SeriesMatch.match_method r = "fuzzy_match")
                       extra)
      /\ series d3 = series d2
      /\ series_matches d3 = series_matches d2)
  /\ (let d1 := @Vocabulary.rerun exact_fuzz Sample.offline Sample.noon
                  Sample.local_matcher Sample.hinted_db in
      let d2 := @Vocabulary.rerun exact_fuzz Sample.offline Sample.noon
                  Sample.local_matcher d1 in
      series_matches d2 = series_matches d1
      /\ exists sid r1 r2,
           List.find (SeriesMatcher.same_pair
                        (AudiobookItem.id Sample.hinted) sid)
             (series_matches d1) = Some r1
           /\ List.find (SeriesMatcher.same_pair
                           (AudiobookItem.id Sample.hinted) sid)
                (series_matches d2) = Some r2
           /\ SeriesMatch.confidence_score r1 = 95
           /\ SeriesMatch.confidence_score r2 = 95
           /\ SeriesMatch.match_method r1 = "metadata"
           /\ SeriesMatch.match_method r2 = "metadata").
Proof.
  split; [|split].
  - apply (proj1 (@rematch_converges exact_fuzz)). constructor.
  - destruct (proj2 (@rematch_converges exact_fuzz) Sample.offline Sample.noon
                Sample.local_matcher Sample.two_books)
      as (Hseries & _ & _ & _ & Happend & Hthird).
    + reflexivity.
    + repeat constructor; rewrite list_elem_of_In; simpl; intuition discriminate.
    + split; [exact Hseries|]. split; [|exact Hthird].
      apply Happend. intros r [].
  - destruct (proj2 (@rematch_converges exact_fuzz) Sample.offline Sample.noon
                Sample.local_matcher Sample.hinted_db)
      as (_ & _ & Hkeeps & Hsame & _).
    + reflexivity.
    + repeat constructor; rewrite list_elem_of_In; simpl; intuition discriminate.
    + split.
      * apply Hsame. intros a [<-|[]]. vm_compute. discriminate.
      * apply (Hkeeps Sample.hinted "Foundation" 95 "metadata");
          [now left|reflexivity].
Defined.

(** ** The number a run returns *)

Section CountFacts.
Import Text SeriesMatcher Vocabulary.
Context {fuzz : Fuzz}.
Variable net : SeriesLookup.Net.

Lemma match_local_found (st : state) (a : AudiobookItem.t) :
  matches_found (fst (match_local st a))
  = matches_found st + (if decided a then 1 else 0).
Proof.
  unfold match_local, decided, local_name.
  destruct (truthy (AudiobookItem.series_title a)).
  - destruct (find_or_create_series (db st) _ _) as [d1 s]. reflexivity.
  - destruct (Extract.extract_series_info (AudiobookItem.title a)) as [n i].
    cbn [fst]. destruct (truthy n).
    + destruct (find_or_create_series (db st) _ _) as [d1 s]. reflexivity.
    + destruct (_fuzzy_match_to_existing_series (matcher st) (db st) a)
        as [d1 a1]. simpl. lia.
Qed.

Lemma match_loop_found (todo : list AudiobookItem.t) :
  forall st : state,
    series_lookup (matcher st) = None ->
    matches_found (fst (match_loop net st todo))
    = matches_found st + Z.of_nat (length (List.filter decided todo)).
Proof.
  induction todo as [|a rest IH]; intros st Hoff; [simpl; lia|].
  rewrite match_loop_cons. cbn [fst].
  rewrite (match_one_offline net st a Hoff).
  rewrite IH by now rewrite match_local_matcher.
  rewrite match_local_found. simpl.
  destruct (decided a); simpl length; lia.
Qed.

(** With no provider the number returned is the number of audiobooks the
    hint or the title patterns decide; what the fuzzy fallback matches is
    left out of it. *)
Lemma returned_count_skips_fuzzy (m : t) (w : SeriesLookup.World) (d : DB) :
  series_lookup m = None ->
  snd (match_all_audiobooks net m w d)
  = Z.of_nat (length (List.filter decided (audiobook_items d))).
Proof.
  intros Hoff. unfold match_all_audiobooks.
  pose proof (match_loop_found (audiobook_items d) (mkState m w d 0) Hoff)
    as H.
  destruct (match_loop net (mkState m w d 0) (audiobook_items d))
    as [st audiobooks]. simpl in *. lia.
Qed.

End CountFacts.

(** * Further properties of the code *)

(** ** The review views *)

Section ViewFacts.
Import Review Queries Vocabulary.

(** X1. When no membership has both flags set, the pending, approved and
    rejected views list every membership exactly once between them: a
    membership is in the view its status column names and in no other,
    and the three views add up to the whole table, which is what every
    filter value other than these three shows. *)
Theorem views_partition :
  forall d : DB,
    Forall (fun m => exclusive m = true) (series_matches d) ->
    (length (filter_matches "pending" d)
     + length (filter_matches "approved" d)
     + length (filter_matches "rejected" d)
     = length (series_matches d))%nat
    /\ (forall filter_status : string,
          filter_status <> "pending" -> filter_status <> "approved" ->
          filter_status <> "rejected" ->
          filter_matches filter_status d = series_matches d)
    /\ forall m, In m (series_matches d) ->
         (In m (filter_matches "pending" d) <-> status m = "Pending")
         /\ (In m (filter_matches "approved" d) <-> status m = "Approved")
         /\ (In m (filter_matches "rejected" d) <-> status m = "Rejected").
Proof.
  intros d Hexcl. split; [|split].
  - unfold filter_matches. simpl.
    induction Hexcl as [|m ms Hm _ IH]; [reflexivity|].
    simpl. unfold pending, exclusive in *.
    destruct (SeriesMatch.user_approved m), (SeriesMatch.user_rejected m);
      simpl in *; try discriminate; lia.
  - intros filter_status Hp Ha Hr. unfold filter_matches.
    destruct (String.eqb_spec filter_status "pending"); [contradiction|].
    destruct (String.eqb_spec filter_status "approved"); [contradiction|].
    destruct (String.eqb_spec filter_status "rejected"); [contradiction|].
    reflexivity.
  - unfold filter_matches. simpl. intros m Hin.
    assert (exclusive m = true) as Hm
        by (rewrite Forall_forall in Hexcl; now apply Hexcl, list_elem_of_In).
    rewrite !filter_In. unfold status, pending, exclusive in *.
    destruct (SeriesMatch.user_approved m), (SeriesMatch.user_rejected m);
      simpl in *; try discriminate;
      repeat split; intros; try tauto; try discriminate;
      try (destruct H; discriminate).
Qed.

Lemma views_partition_witness :
  (length (filter_matches "pending" Sample.review_db)
   + length (filter_matches "approved" Sample.review_db)
   + length (filter_matches "rejected" Sample.review_db)
   = length (series_matches Sample.review_db))%nat
  /\ (forall filter_status : string,
        filter_status <> "pending" -> filter_status <> "approved" ->
        filter_status <> "rejected" ->
        filter_matches filter_status Sample.review_db
        = series_matches Sample.review_db)
  /\ forall m, In m (series_matches Sample.review_db) ->
       (In m (filter_matches "pending" Sample.review_db)
        <-> status m = "Pending")
       /\ (In m (filter_matches "approved" Sample.review_db)
           <-> status m = "Approved")
       /\ (In m (filter_matches "rejected" Sample.review_db)
           <-> status m = "Rejected").
Proof.
  apply (views_partition Sample.review_db).
  repeat constructor.
Defined.

(** X2. The bulk operations empty the pending queue as far as they
    reach: after approve-all or reject-all no membership is pending, and
    after the panel's auto-approve every membership still pending scores
    below 90. *)
Theorem bulk_operations_drain_pending :
  forall d : DB,
    get_pending_matches (approve_all_matches d) = []
    /\ get_pending_matches (reject_all_matches d) = []
    /\ Forall (fun m => SeriesMatch.confidence_score m < 90)
         (get_pending_matches (_approve_high_confidence d)).
Proof.
  intros d.
  assert (forall g : SeriesMatch.t -> SeriesMatch.t,
             (forall m, pending (g m) = false) ->
             List.filter pending (map g (series_matches d)) = []) as Hnone.
  { intros g Hg. induction (series_matches d) as [|m ms IH]; [reflexivity|].
    simpl. now rewrite Hg. }
  unfold get_pending_matches, approve_all_matches, reject_all_matches,
    _approve_high_confidence, on_matches. simpl.
  split; [|split].
  - apply Hnone. intros m. destruct (pending m) eqn:Hp; [reflexivity|exact Hp].
  - apply Hnone. intros m. destruct (pending m) eqn:Hp; [reflexivity|exact Hp].
  - apply Forall_forall. intros m Hin. apply list_elem_of_In in Hin.
    apply filter_In in Hin. destruct Hin as (Hin & Hp).
    apply in_map_iff in Hin. destruct Hin as (m0 & <- & _).
    unfold is_high_confidence, high_confidence in *.
    destruct (pending m0) eqn:Hp0.
    + destruct (Z.geb_spec (SeriesMatch.confidence_score m0) 90) as [Hge|Hlt];
        simpl in *; [discriminate|exact Hlt].
    + rewrite andb_false_r in *. congruence.
Qed.

Lemma filter_twice {A : Type} (p q : A -> bool) (l : list A) :
  List.filter q (List.filter p l) = List.filter (fun x => p x && q x)%bool l.
Proof.
  induction l as [|x l IH]; [reflexivity|]. simpl.
  destruct (p x); simpl; [destruct (q x); now rewrite IH|exact IH].
Qed.

Lemma delete_first_filter (i : Z) (ms : list SeriesMatch.t) :
  NoDup (map SeriesMatch.id ms) ->
  delete_first (has_id i) ms
  = List.filter (fun m => negb (SeriesMatch.id m =? i)) ms.
Proof.
  induction ms as [|m ms IH]; intros Hnodup; [reflexivity|].
  simpl in *. apply NoDup_cons in Hnodup. destruct Hnodup as (Hfresh & Hnodup).
  unfold has_id at 1. destruct (Z.eqb_spec (SeriesMatch.id m) i) as [Heq|Hne].
  - simpl. symmetry. apply forallb_filter_id. apply forallb_forall.
    intros x Hx. apply negb_true_iff, Z.eqb_neq. intros Hxi.
    apply Hfresh. apply list_elem_of_In. rewrite Heq, <- Hxi.
    now apply in_map.
  - simpl. f_equal. now apply IH.
Qed.

Lemma filter_keeps_nodup_ids (p : SeriesMatch.t -> bool)
    (ms : list SeriesMatch.t) :
  NoDup (map SeriesMatch.id ms) ->
  NoDup (map SeriesMatch.id (List.filter p ms)).
Proof.
  induction ms as [|m ms IH]; intros Hnodup; [constructor|].
  simpl in *. apply NoDup_cons in Hnodup. destruct Hnodup as (Hfresh & Hnodup).
  destruct (p m); simpl; [|now apply IH].
  apply NoDup_cons. split; [|now apply IH].
  intros Hin. apply Hfresh. apply list_elem_of_In in Hin.
  apply list_elem_of_In. apply in_map_iff in Hin.
  destruct Hin as (x & Hx & Hin). apply filter_In in Hin.
  apply in_map_iff. exists x. tauto.
Qed.

(** X3. With unique membership ids, removing the selected memberships
    deletes exactly the rows whose id is selected and keeps the others,
    in their order and unchanged; audiobooks and series are not touched,
    so a series whose last membership goes stays in its table. *)
Theorem remove_match_deletes_selected :
  forall (selected : list Z) (d : DB),
    NoDup (map SeriesMatch.id (series_matches d)) ->
    series_matches (_remove_match selected d)
    = List.filter
        (fun m => negb (existsb (Z.eqb (SeriesMatch.id m)) selected))
        (series_matches d)
    /\ series (_remove_match selected d) = series d
    /\ audiobook_items (_remove_match selected d) = audiobook_items d.
Proof.
  induction selected as [|i selected IH]; intros d Hnodup.
  - simpl. repeat split. symmetry. apply forallb_filter_id.
    now apply forallb_forall.
  - change (_remove_match (i :: selected) d)
      with (_remove_match selected
              (on_matches (delete_first (has_id i)) d)).
    destruct (IH (on_matches (delete_first (has_id i)) d))
      as (Hrows & Hseries & Hitems).
    { simpl. rewrite delete_first_filter by assumption.
      now apply filter_keeps_nodup_ids. }
    rewrite Hrows, Hseries, Hitems. simpl.
    rewrite delete_first_filter by assumption.
    repeat split.
    rewrite filter_twice. apply filter_ext. intros m.
    now rewrite negb_orb.
Qed.

Lemma remove_match_deletes_selected_witness :
  series_matches (_remove_match [9; 7; 42] Sample.review_db)
  = List.filter
      (fun m => negb (existsb (Z.eqb (SeriesMatch.id m)) [9; 7; 42]))
      (series_matches Sample.review_db)
  /\ series (_remove_match [9; 7; 42] Sample.review_db)
     = series Sample.review_db
  /\ audiobook_items (_remove_match [9; 7; 42] Sample.review_db)
     = audiobook_items Sample.review_db.
Proof.
  apply (remove_match_deletes_selected [9; 7; 42] Sample.review_db).
  repeat constructor; rewrite list_elem_of_In; simpl; intuition discriminate.
Defined.

End ViewFacts.

(** ** What a run of the matcher leaves alone *)

Section StrongInvariant.
Import Text SeriesMatcher Vocabulary.
Context {fuzz : Fuzz}.
Variable threshold : Z.
Variable P : list Series.t -> list SeriesMatch.t -> Prop.

Hypothesis P_resolve :
  forall (d : DB) (name : string) (author : option string),
    nonempty name = true ->
    P (series d) (series_matches d) ->
    P (series (fst (find_or_create_series d name author)))
      (series_matches (fst (find_or_create_series d name author))).

Hypothesis P_upsert :
  forall (d : DB) (a : AudiobookItem.t) (s : Series.t) (c : Z)
         (method : string),
    P (series d) (series_matches d) ->
    In s (series d) ->
    written threshold a s c method ->
    P (series (match_audiobook_to_series d a s c method))
      (series_matches (match_audiobook_to_series d a s c method)).

Lemma truthy_fmt (o : option string) :
  truthy o = true -> nonempty (fmt o) = true.
Proof. destruct o; [trivial|discriminate]. Qed.

Lemma stage_keeps (d : DB) (a : AudiobookItem.t) (name : string) (c : Z)
    (method : string) :
  nonempty name = true ->
  (forall s, written threshold a s c method) ->
  P (series d) (series_matches d) ->
  P (series (match_audiobook_to_series
               (fst (find_or_create_series d name (AudiobookItem.author a)))
               a
               (snd (find_or_create_series d name (AudiobookItem.author a)))
               c method))
    (series_matches
       (match_audiobook_to_series
          (fst (find_or_create_series d name (AudiobookItem.author a)))
          a
          (snd (find_or_create_series d name (AudiobookItem.author a)))
          c method)).
Proof.
  intros Hname Hwritten HP. apply P_upsert.
  - now apply P_resolve.
  - apply find_or_create_series_in.
  - apply Hwritten.
Qed.

Lemma on_external_matcher (st : state) (a : AudiobookItem.t)
    (r : SeriesLookup.result) :
  matcher (fst (on_external st a r)) = matcher st.
Proof.
  unfold on_external.
  destruct (find_or_create_series (db st) _ _) as [d1 s]. reflexivity.
Qed.

Lemma strong_on_external (st : state) (a : AudiobookItem.t)
    (r : SeriesLookup.result) :
  truthy (SeriesLookup.series_name r) = true ->
  P (series (db st)) (series_matches (db st)) ->
  P (series (db (fst (on_external st a r))))
    (series_matches (db (fst (on_external st a r)))).
Proof.
  intros Hname HP. unfold on_external.
  pose proof (stage_keeps (db st) a (fmt (SeriesLookup.series_name r)) 98
                "external_api" (truthy_fmt _ Hname)
                (fun s => or_introl (conj eq_refl eq_refl)) HP) as H.
  destruct (find_or_create_series (db st) _ _) as [d1 s]. exact H.
Qed.

Lemma strong_match_local (st : state) (a : AudiobookItem.t) :
  confidence_threshold (matcher st) = threshold ->
  P (series (db st)) (series_matches (db st)) ->
  P (series (db (fst (match_local st a))))
    (series_matches (db (fst (match_local st a)))).
Proof.
  intros Hthr HP. unfold match_local.
  destruct (truthy (AudiobookItem.series_title a)) eqn:Hhint.
  - pose proof (stage_keeps (db st) a (fmt (AudiobookItem.series_title a)) 95
                  "metadata" (truthy_fmt _ Hhint)
                  (fun s => or_intror (or_introl (conj eq_refl eq_refl))) HP)
      as H.
    destruct (find_or_create_series (db st) _ _) as [d1 s]. exact H.
  - destruct (Extract.extract_series_info (AudiobookItem.title a)) as [n i].
    destruct (truthy n) eqn:Hn.
    + pose proof (stage_keeps (db st) a (fmt n) 85 "title_pattern"
                    (truthy_fmt _ Hn)
                    (fun s => or_intror (or_intror
                                (or_introl (conj eq_refl eq_refl)))) HP) as H.
      destruct (find_or_create_series (db st) _ _) as [d1 s]. exact H.
    + pose proof (fuzzy_best_spec (confidence_threshold (matcher st)) a
                    (series (db st))) as Hbest.
      unfold _fuzzy_match_to_existing_series.
      destruct (fuzzy_best (confidence_threshold (matcher st)) a
                  (series (db st))) as [[s|] score]; [|exact HP].
      destruct Hbest as (_ & Hin & Hscore & Hge & Hpos). simpl in *.
      assert (P (series (match_audiobook_to_series (db st) a s score
                           "fuzzy_match"))
                (series_matches (match_audiobook_to_series (db st) a s score
                                   "fuzzy_match"))) as H.
      { apply P_upsert; [exact HP|exact Hin|].
        right. right. right. rewrite <- Hthr. now repeat split. }
      destruct (Extract.extract_series_info (AudiobookItem.title a))
        as [n' i'].
      destruct (truthy i'); exact H.
Qed.

Lemma strong_match_one (net : SeriesLookup.Net) (st : state)
    (a : AudiobookItem.t) :
  confidence_threshold (matcher st) = threshold ->
  P (series (db st)) (series_matches (db st)) ->
  confidence_threshold (matcher (fst (match_one net st a))) = threshold
  /\ P (series (db (fst (match_one net st a))))
       (series_matches (db (fst (match_one net st a)))).
Proof.
  intros Hthr HP. unfold match_one.
  destruct (external_lookup_db net st a) as (Hdb & _ & Hthr1).
  destruct (external_lookup net st a) as [st1 ext]. simpl in Hdb, Hthr1.
  rewrite <- Hdb in HP. rewrite <- Hthr1 in Hthr.
  destruct ext as [r|];
    [destruct (truthy (SeriesLookup.series_name r)) eqn:Hname|].
  - split; [now rewrite on_external_matcher|now apply strong_on_external].
  - split; [now rewrite match_local_matcher|now apply strong_match_local].
  - split; [now rewrite match_local_matcher|now apply strong_match_local].
Qed.

Lemma strong_match_loop (net : SeriesLookup.Net)
    (audiobooks : list AudiobookItem.t) :
  forall st : state,
    confidence_threshold (matcher st) = threshold ->
    P (series (db st)) (series_matches (db st)) ->
    P (series (db (fst (match_loop net st audiobooks))))
      (series_matches (db (fst (match_loop net st audiobooks)))).
Proof.
  induction audiobooks as [|a rest IH]; intros st Hthr HP; [exact HP|].
  rewrite match_loop_cons. cbn [fst].
  destruct (strong_match_one net st a Hthr HP) as (Hthr1 & HP1).
  now apply IH.
Qed.

Lemma strong_match_all (net : SeriesLookup.Net) (m : t)
    (w : SeriesLookup.World) (d : DB) :
  confidence_threshold m = threshold ->
  P (series d) (series_matches d) ->
  P (series (snd (fst (match_all_audiobooks net m w d))))
    (series_matches (snd (fst (match_all_audiobooks net m w d)))).
Proof.
  intros Hthr HP. unfold match_all_audiobooks.
  pose proof (strong_match_loop net (audiobook_items d) (mkState m w d 0)
                Hthr HP) as H.
  destruct (match_loop net (mkState m w d 0) (audiobook_items d))
    as [st audiobooks]. exact H.
Qed.

End StrongInvariant.

Section RunFrame.
Import Text SeriesMatcher Vocabulary.
Context {fuzz : Fuzz}.

Lemma rescored_refl (r : SeriesMatch.t) : rescored r r.
Proof. now repeat split. Qed.

Lemma rescored_set_score (r r1 : SeriesMatch.t) (c : Z) (method : string) :
  rescored r r1 -> rescored r (SeriesMatch.set_score r1 c method).
Proof. intros (H1 & H2 & H3 & H4 & H5). now repeat split. Qed.

Lemma update_first_lookup_back {A : Type} (p : A -> bool) (f : A -> A)
    (l : list A) (n : nat) (y : A) :
  update_first p f l !! n = Some y ->
  exists x, l !! n = Some x /\ (y = x \/ y = f x).
Proof.
  revert n. induction l as [|x l IH]; intros n Hn; [discriminate|].
  simpl in Hn. destruct (p x).
  - destruct n as [|n]; simpl in *.
    + inversion Hn. exists x. split; [reflexivity|now right].
    + exists y. split; [exact Hn|now left].
  - destruct n as [|n]; simpl in *.
    + inversion Hn. exists y. split; [reflexivity|now left].
    + now apply IH.
Qed.

Lemma extends_rows_upsert (rows : list SeriesMatch.t) (d : DB)
    (a : AudiobookItem.t) (s : Series.t) (c : Z) (method : string) :
  extends_rows rows (series_matches d) ->
  extends_rows rows
    (series_matches (match_audiobook_to_series d a s c method)).
Proof.
  intros (Hold & Hnew). unfold match_audiobook_to_series.
  destruct (List.find _ (series_matches d)) as [r0|]; simpl; split.
  - intros n r Hr. destruct (Hold n r Hr) as (r1 & Hr1 & Hsame).
    destruct (update_first_lookup
                (same_pair (AudiobookItem.id a) (Series.id s))
                (fun m => SeriesMatch.set_score m c method) _ n r1 Hr1)
      as [H|H]; eexists; (split; [exact H|]);
      [exact Hsame|now apply rescored_set_score].
  - intros n r' Hn Hr'.
    destruct (update_first_lookup_back _ _ _ _ _ Hr') as (x & Hx & [->| ->]).
    + exact (Hnew n x Hn Hx).
    + exact (Hnew n x Hn Hx).
  - intros n r Hr. destruct (Hold n r Hr) as (r1 & Hr1 & Hsame).
    exists r1. split; [now apply lookup_app_l_Some|exact Hsame].
  - intros n r' Hn Hr'.
    apply lookup_app_Some in Hr'. destruct Hr' as [Hin|(_ & Hlast)].
    + exact (Hnew n r' Hn Hin).
    + destruct (n - length (series_matches d))%nat as [|k]; simpl in Hlast;
        [inversion Hlast; reflexivity|].
      destruct k; discriminate.
Qed.

(** X4. A run of the matcher never touches the review flags: every
    membership that existed before the run is still in its place with
    its id, its (record, series) pair and its approved and rejected flags,
    whatever the run did to its score and method, and every membership
    the run added is pending. *)
Theorem matcher_keeps_review_flags :
  forall (net : SeriesLookup.Net) (m : t) (w : SeriesLookup.World) (d : DB),
    extends_rows (series_matches d)
      (series_matches (snd (fst (match_all_audiobooks net m w d)))).
Proof.
  intros net m w d.
  apply (match_all_keeps (fun _ M => extends_rows (series_matches d) M)).
  - intros d0 name author H. now rewrite find_or_create_series_matches.
  - intros d0 a s c method H _. now apply extends_rows_upsert.
  - split.
    + intros n r Hr. exists r. split; [exact Hr|apply rescored_refl].
    + intros n r' Hn Hr'. apply lookup_lt_Some in Hr'. lia.
Qed.

Lemma on_external_reindexes (st : state) (a : AudiobookItem.t)
    (r : SeriesLookup.result) :
  exists v, snd (on_external st a r) = AudiobookItem.set_series_index a v.
Proof.
  unfold on_external.
  destruct (find_or_create_series (db st) _ _) as [d1 s]. simpl.
  destruct (truthy (SeriesLookup.series_index r)); [now eexists|].
  destruct (Extract.extract_series_info (AudiobookItem.title a)) as [n i].
  destruct (truthy i); [now eexists|].
  exists (AudiobookItem.series_index a). now destruct a.
Qed.

Lemma match_one_reindexes (net : SeriesLookup.Net) (st : state)
    (a : AudiobookItem.t) :
  exists v, snd (match_one net st a) = AudiobookItem.set_series_index a v.
Proof.
  unfold match_one. destruct (external_lookup net st a) as [st1 ext].
  destruct ext as [r|];
    [destruct (truthy (SeriesLookup.series_name r))|];
    first [apply on_external_reindexes|apply match_local_reindexes].
Qed.

Lemma match_loop_reindexes (net : SeriesLookup.Net)
    (todo : list AudiobookItem.t) :
  forall st : state,
    Forall2 same_record todo (snd (match_loop net st todo)).
Proof.
  induction todo as [|a rest IH]; intros st; [constructor|].
  rewrite match_loop_cons. cbn [snd]. constructor; [|apply IH].
  destruct (match_one_reindexes net st a) as (v & ->). now repeat split.
Qed.

(** X5. Of an audiobook the matcher writes the position and nothing
    else: after a run the audiobook table has the same rows in the same
    order, each with the id, title, author and embedded series hint it
    had. *)
Theorem matcher_only_writes_positions :
  forall (net : SeriesLookup.Net) (m : t) (w : SeriesLookup.World) (d : DB),
    Forall2 same_record (audiobook_items d)
      (audiobook_items (snd (fst (match_all_audiobooks net m w d)))).
Proof.
  intros net m w d. unfold match_all_audiobooks.
  pose proof (match_loop_reindexes net (audiobook_items d)
                (mkState m w d 0)) as H.
  destruct (match_loop net (mkState m w d 0) (audiobook_items d))
    as [st audiobooks]. exact H.
Qed.

(** X6. Every series a run creates has a non-empty name and an id no
    other stored series has: when the series ids are distinct before a
    run they are distinct after it, the stored series are all still
    there, and the ones appended are non-empty named. *)
Theorem created_series_are_named_and_fresh :
  forall (net : SeriesLookup.Net) (m : t) (w : SeriesLookup.World) (d : DB),
    NoDup (map Series.id (series d)) ->
    NoDup (map Series.id
             (series (snd (fst (match_all_audiobooks net m w d)))))
    /\ exists added,
         series (snd (fst (match_all_audiobooks net m w d)))
         = (series d ++ added)%list
         /\ Forall (fun s => nonempty (Series.series_name s) = true) added.
Proof.
  intros net m w d Hnodup.
  apply (strong_match_all (confidence_threshold m)
           (fun L _ =>
              NoDup (map Series.id L)
              /\ exists added,
                   L = (series d ++ added)%list
                   /\ Forall (fun s => nonempty (Series.series_name s) = true)
                        added)); [| |reflexivity|].
  - intros d0 name author Hname (Hids & added & HL & Hnamed).
    destruct (find_or_create_series_cases d0 name author)
      as [(s & _ & _ & ->)|(_ & ->)]; simpl.
    + split; [exact Hids|now exists added].
    + split.
      * rewrite map_app. simpl. apply NoDup_app. split; [exact Hids|].
        split; [|apply NoDup_singleton].
        intros x Hx Hnew. apply list_elem_of_In in Hx, Hnew.
        destruct Hnew as [<-|[]].
        pose proof (next_id_fresh _ _ Hx). lia.
      * exists (added ++ [Series.mk (next_id (map Series.id (series d0)))
                                    name author 0])%list.
        split; [rewrite HL; now rewrite app_assoc|].
        apply Forall_app. split; [exact Hnamed|]. now repeat constructor.
  - intros d0 a s c method H _ _. now rewrite match_audiobook_to_series_series.
  - split; [exact Hnodup|]. exists []. split; [now rewrite app_nil_r|constructor].
Qed.

(** X7. A run keeps the memberships pointing at stored series: when
    every membership references a stored series before the run, every
    membership, old or new, references a stored series after it. *)
Theorem matcher_keeps_references :
  forall (net : SeriesLookup.Net) (m : t) (w : SeriesLookup.World) (d : DB),
    references (series d) (series_matches d) ->
    references (series (snd (fst (match_all_audiobooks net m w d))))
      (series_matches (snd (fst (match_all_audiobooks net m w d)))).
Proof.
  intros net m w d Href.
  apply (match_all_keeps references); [| |exact Href].
  - apply references_resolve.
  - apply references_upsert.
Qed.

Lemma fuzzy_score_bound (a : AudiobookItem.t) (s : Series.t) :
  (forall x y, partial_ratio x y <= 100) ->
  fuzzy_score a s <= 110.
Proof.
  intros Hmax. unfold fuzzy_score.
  pose proof (Hmax (lower (AudiobookItem.title a))
                (lower (Series.series_name s))).
  destruct (truthy (AudiobookItem.author a) && truthy (Series.author s))%bool;
    [destruct (ratio _ _ >? 80)|]; lia.
Qed.

Lemma stage_row_written (threshold : Z) (a : AudiobookItem.t) (s : Series.t)
    (c : Z) (method : string) (r : SeriesMatch.t) :
  (forall x y, partial_ratio x y <= 100) ->
  written threshold a s c method ->
  stage_row threshold (SeriesMatch.set_score r c method).
Proof.
  intros Hmax [(-> & ->)|[(-> & ->)|[(-> & ->)|(-> & -> & Hthr & Hpos)]]].
  - now left.
  - right. now left.
  - right. right. now left.
  - right. right. right. simpl. repeat split; try assumption.
    now apply fuzzy_score_bound.
Qed.

(** X8. When the partial ratio never exceeds 100, a run leaves every
    membership it finds or writes in one of four forms: score 98 with
    method external_api, 95 with metadata, 85 with title_pattern, or
    method fuzzy_match with a score that is positive, at least the
    confidence threshold and at most 110.  Memberships of these forms
    stay of these forms. *)
Theorem matcher_writes_stage_rows :
  forall (net : SeriesLookup.Net) (m : t) (w : SeriesLookup.World) (d : DB),
    (forall x y, partial_ratio x y <= 100) ->
    Forall (stage_row (confidence_threshold m)) (series_matches d) ->
    Forall (stage_row (confidence_threshold m))
      (series_matches (snd (fst (match_all_audiobooks net m w d)))).
Proof.
  intros net m w d Hmax Hrows.
  apply (strong_match_all (confidence_threshold m)
           (fun _ M => Forall (stage_row (confidence_threshold m)) M));
    [| |reflexivity|exact Hrows].
  - intros d0 name author _ H. now rewrite find_or_create_series_matches.
  - intros d0 a s c method H _ Hwritten.
    unfold match_audiobook_to_series.
    destruct (List.find _ (series_matches d0)) as [r0|]; simpl.
    + apply Forall_forall. intros r Hr. apply list_elem_of_In in Hr.
      destruct (update_first_in _ _ _ r Hr) as [Hin|(x & Hx & ->)].
      * rewrite Forall_forall in H. now apply H, list_elem_of_In.
      * now apply (stage_row_written _ a s).
    + apply Forall_app. split; [exact H|]. constructor; [|constructor].
      apply (stage_row_written (confidence_threshold m) a s c method
               (SeriesMatch.mk (next_id (map SeriesMatch.id (series_matches d0)))
                  (AudiobookItem.id a) (Series.id s) 0 "" false false)
               Hmax Hwritten).
Qed.

End RunFrame.

Lemma created_series_are_named_and_fresh_witness :
  NoDup (map Series.id
           (series (snd (fst (@SeriesMatcher.match_all_audiobooks exact_fuzz
                               Sample.offline Sample.local_matcher
                               Sample.noon Sample.two_books)))))
  /\ exists added,
       series (snd (fst (@SeriesMatcher.match_all_audiobooks exact_fuzz
                           Sample.offline Sample.local_matcher Sample.noon
                           Sample.two_books)))
       = (series Sample.two_books ++ added)%list
       /\ Forall (fun s => Text.nonempty (Series.series_name s) = true) added.
Proof.
  apply (@created_series_are_named_and_fresh exact_fuzz). constructor.
Defined.

Lemma matcher_keeps_references_witness :
  Vocabulary.references
    (series (snd (fst (@SeriesMatcher.match_all_audiobooks exact_fuzz
                         Sample.offline Sample.local_matcher Sample.noon
                         Sample.two_books))))
    (series_matches
       (snd (fst (@SeriesMatcher.match_all_audiobooks exact_fuzz
                    Sample.offline Sample.local_matcher Sample.noon
                    Sample.two_books)))).
Proof.
  apply (@matcher_keeps_references exact_fuzz). intros r [].
Defined.

Lemma matcher_writes_stage_rows_witness :
  Forall (Vocabulary.stage_row
            (SeriesMatcher.confidence_threshold Sample.local_matcher))
    (series_matches
       (snd (fst (@SeriesMatcher.match_all_audiobooks exact_fuzz
                    Sample.offline Sample.local_matcher Sample.noon
                    Sample.namesake_db)))).
Proof.
  apply (@matcher_writes_stage_rows exact_fuzz).
  - intros x y. simpl. unfold exact_score. destruct (String.eqb x y); lia.
  - constructor.
Defined.

(** ** The choice of the fuzzy fallback *)

Section TieBreak.
Import Text SeriesMatcher Vocabulary.
Context {fuzz : Fuzz}.

Lemma first_best_fold (threshold : Z) (a : AudiobookItem.t)
    (rest : list Series.t) :
  forall (seen : list Series.t) (best : option Series.t * Z),
    first_best threshold a seen best ->
    first_best threshold a (seen ++ rest)
      (fold_left
         (fun (best : option Series.t * Z) (s : Series.t) =>
            let score := fuzzy_score a s in
            if ((score >? snd best) && (score >=? threshold))%bool
            then (Some s, score) else best)
         rest best).
Proof.
  induction rest as [|s rest IH]; intros seen best Hbest; simpl.
  - now rewrite app_nil_r.
  - replace (seen ++ s :: rest)%list with ((seen ++ [s]) ++ rest)%list
      by (rewrite <- app_assoc; reflexivity).
    apply IH. unfold first_best in *.
    destruct best as [[s0|] sb]; cbn [fst snd] in *.
    + destruct Hbest as (before & after & -> & Hsc & Hthr & Hpos
                         & Hbefore & Hafter).
      destruct (Z.gtb_spec (fuzzy_score a s) sb) as [Hgt|Hle];
        [destruct (Z.geb_spec (fuzzy_score a s) threshold) as [Hge|Hlt]|];
        cbn [andb fst snd].
      * exists (before ++ s0 :: after)%list, [].
        split; [reflexivity|]. split; [reflexivity|].
        split; [lia|]. split; [lia|]. split; [|intros x []].
        intros x Hx. apply in_app_or in Hx. destruct Hx as [Hx|[<-|Hx]].
        -- specialize (Hbefore x Hx). lia.
        -- lia.
        -- specialize (Hafter x Hx). lia.
      * exists before, (after ++ [s])%list.
        rewrite <- app_assoc. repeat split; try assumption.
        intros x Hx. apply in_app_or in Hx.
        destruct Hx as [Hx|[<-|[]]]; [now apply Hafter|lia].
      * exists before, (after ++ [s])%list.
        rewrite <- app_assoc. repeat split; try assumption.
        intros x Hx. apply in_app_or in Hx.
        destruct Hx as [Hx|[<-|[]]]; [now apply Hafter|lia].
    + destruct Hbest as (-> & Hnone).
      destruct (Z.gtb_spec (fuzzy_score a s) 0) as [Hgt|Hle];
        [destruct (Z.geb_spec (fuzzy_score a s) threshold) as [Hge|Hlt]|];
        cbn [andb fst snd].
      * exists seen, [].
        split; [reflexivity|]. split; [reflexivity|].
        split; [lia|]. split; [lia|]. split; [|intros x []].
        intros x Hx. destruct (Hnone x Hx); lia.
      * split; [reflexivity|].
        intros x Hx. apply in_app_or in Hx.
        destruct Hx as [Hx|[<-|[]]]; [now apply Hnone|now left].
      * split; [reflexivity|].
        intros x Hx. apply in_app_or in Hx.
        destruct Hx as [Hx|[<-|[]]]; [now apply Hnone|right; lia].
Qed.

(** X9. The fuzzy loop settles ties by table order: the series it picks
    is the first one with the highest score among all stored series, and
    it picks one exactly when that score is positive and reaches the
    threshold; a score of 0 is never a match, whatever the threshold. *)
Theorem fuzzy_best_is_first_maximum :
  forall (threshold : Z) (a : AudiobookItem.t) (all_series : list Series.t),
    first_best threshold a all_series (fuzzy_best threshold a all_series).
Proof.
  intros threshold a all_series.
  apply (first_best_fold threshold a all_series [] (None, 0)).
  split; [reflexivity|intros x []].
Qed.

End TieBreak.

(** ** The audiobooks reported as unmatched *)

Section Unmatched.
Import Text SeriesMatcher Vocabulary Queries.
Context {fuzz : Fuzz}.

Lemma unmatched_has_no_row (d : DB) (a : AudiobookItem.t) (r : SeriesMatch.t) :
  In a (get_unmatched_audiobooks d) ->
  In r (series_matches d) ->
  SeriesMatch.audiobook_id r <> AudiobookItem.id a.
Proof.
  unfold get_unmatched_audiobooks. intros Ha Hr Heq.
  apply filter_In in Ha. destruct Ha as (_ & Hnone).
  apply negb_true_iff in Hnone.
  assert (existsb (Z.eqb (AudiobookItem.id a))
            (map SeriesMatch.audiobook_id (series_matches d)) = true) as Hsome.
  { apply existsb_exists. exists (SeriesMatch.audiobook_id r).
    split; [now apply in_map|]. apply Z.eqb_eq. now symmetry. }
  congruence.
Qed.

(** X10. With no external provider, unique record ids and titles in
    ASCII, every audiobook reported as unmatched after a run is an
    audiobook of the table whose embedded series hint is missing or
    empty and from whose title the patterns extract no series name or
    an empty one (as from " - 5"): an audiobook with a non-empty hint
    or a non-empty extracted name has a membership. *)
Theorem unmatched_after_run :
  forall (net : SeriesLookup.Net) (w : SeriesLookup.World) (m : t) (d : DB),
    series_lookup m = None ->
    NoDup (map AudiobookItem.id (audiobook_items d)) ->
    Forall (fun a => ascii_text (AudiobookItem.title a) = true)
      (audiobook_items d) ->
    forall a', In a' (get_unmatched_audiobooks (rerun net w m d)) ->
      truthy (AudiobookItem.series_title a') = false
      /\ truthy (fst (Extract.extract_series_info (AudiobookItem.title a')))
         = false
      /\ exists a, In a (audiobook_items d) /\ same_record a a'.
Proof.
  intros net w m d Hoff Hnodup _ a' Hin'.
  assert (In a' (audiobook_items (rerun net w m d))) as Hitem
      by (unfold get_unmatched_audiobooks in Hin';
          apply filter_In in Hin'; tauto).
  destruct (rerun_items net w m d Hoff) as (_ & Hfrom).
  destruct (Hfrom a' Hitem) as (a & v & Hin & ->).
  assert (decided (AudiobookItem.set_series_index a v) = false) as Hnot.
  { destruct (decided (AudiobookItem.set_series_index a v)) eqn:Hdec;
      [|reflexivity].
    exfalso. unfold decided in Hdec. rewrite local_name_reindexed in Hdec.
    destruct (local_name a) as [[[name c] method]|] eqn:Hname;
      [|discriminate].
    destruct (rerun_settles net w m d Hoff Hnodup a Hin) as (Hres & Hrow).
    specialize (Hres name c method Hname).
    assert (local_name a <> None) as Hlocal by congruence.
    specialize (Hrow Hlocal). unfold row_ok, wanted in Hrow.
    rewrite Hname in Hrow.
    destruct (List.find (named name) (series (rerun net w m d))) as [s|];
      [|contradiction].
    destruct (Hrow _ _ _ eq_refl) as (r & Hr & _).
    apply List.find_some in Hr. destruct Hr as (Hr & Hpair).
    apply same_pair_iff in Hpair. inversion Hpair as [[Ha Hs]].
    exact (unmatched_has_no_row _ _ r Hin' Hr Ha). }
  unfold decided, local_name in Hnot.
  destruct (truthy (AudiobookItem.series_title
                      (AudiobookItem.set_series_index a v)));
    [discriminate|].
  destruct (truthy (fst (Extract.extract_series_info
                           (AudiobookItem.title
                              (AudiobookItem.set_series_index a v)))));
    [discriminate|].
  split; [reflexivity|]. split; [reflexivity|].
  exists a. split; [exact Hin|now repeat split].
Qed.

End Unmatched.

Lemma unmatched_after_run_witness :
  let a' := AudiobookItem.mk 1 "Alex Rider" (Some "Anthony Horowitz")
              None None in
  In a' (Queries.get_unmatched_audiobooks
           (@Vocabulary.rerun exact_fuzz Sample.offline Sample.noon
              Sample.local_matcher Sample.two_books))
  /\ Text.truthy (AudiobookItem.series_title a') = false
  /\ Text.truthy (fst (Extract.extract_series_info (AudiobookItem.title a')))
     = false
  /\ exists a, In a (audiobook_items Sample.two_books)
               /\ Vocabulary.same_record a a'.
Proof.
  intros a'.
  assert (Hin : In a' (Queries.get_unmatched_audiobooks
                         (@Vocabulary.rerun exact_fuzz Sample.offline
                            Sample.noon Sample.local_matcher
                            Sample.two_books))).
  { vm_compute. left. reflexivity. }
  split; [exact Hin|].
  apply (@unmatched_after_run exact_fuzz Sample.offline Sample.noon
           Sample.local_matcher Sample.two_books).
  - reflexivity.
  - repeat constructor; rewrite list_elem_of_In; simpl; intuition discriminate.
  - repeat constructor.
  - exact Hin.
Defined.

(** ** The lookup cache and the pacing of requests *)

Section LookupFacts.
Import Text SeriesLookup Vocabulary.

Lemma openai_outcome (net : Net) (l : t) (w : World) (title : string)
    (author : option string) :
  let key := "openai:" ++ title ++ ":" ++ fmt author in
  (exists v, cache l !! key = Some v
             /\ _lookup_openai net l w title author = (l, w, v))
  \/ (cache l !! key = None
      /\ exists v,
           _lookup_openai net l w title author
           = (set_cache l key v,
              after (OpenAI title author) (snd (openai net w title author)) w,
              v)
           /\ (forall r, v = Some r ->
                 fst (openai net w title author) = AiJson r
                 /\ truthy (series_name r) = true)).
Proof.
  intros key. unfold _lookup_openai. fold key.
  destruct (cache l !! key) as [v|] eqn:Hc.
  - left. now exists v.
  - right. split; [reflexivity|].
    destruct (openai net w title author) as [reply took] eqn:Hnet. simpl.
    destruct reply as [| |r].
    + exists None. split; [reflexivity|discriminate].
    + exists None. split; [reflexivity|discriminate].
    + destruct (truthy (series_name r)) eqn:Hname.
      * exists (Some r). split; [reflexivity|].
        intros r' Hr'. inversion Hr'; subst. now split.
      * exists None. split; [reflexivity|discriminate].
Qed.

Lemma google_outcome (net : Net) (l : t) (w : World) (title : string)
    (author : option string) :
  let key := google_key title author in
  let query := google_query title author in
  (exists v, cache l !! key = Some v
             /\ _lookup_google_books net l w title author = (l, w, v))
  \/ (cache l !! key = None
      /\ clock w < rate_limited_until l
      /\ _lookup_google_books net l w title author
         = (set_cache l key None, w, None))
  \/ (cache l !! key = None
      /\ rate_limited_until l <= clock w
      /\ exists l' v,
           _lookup_google_books net l w title author
           = (set_cache l' key v,
              after (GoogleBooks query)
                (snd (google net (request_world l w) query))
                (request_world l w),
              v)
           /\ provider l' = provider l
           /\ openai_client l' = openai_client l
           /\ min_request_interval l' = min_request_interval l
           /\ last_request_time l' = clock (request_world l w)
           /\ (forall r, v = Some r ->
                 exists status_code,
                   fst (google net (request_world l w) query)
                   = Http status_code (BodyItem (Some r))
                   /\ status_code <> 429
                   /\ ~ (400 <= status_code < 600))).
Proof.
  intros key query. subst key query. unfold _lookup_google_books.
  fold (google_key title author).
  destruct (cache l !! google_key title author) as [v|] eqn:Hc.
  - left. now exists v.
  - right. destruct (Z.ltb_spec (clock w) (rate_limited_until l)) as [Hin|Hout].
    + left. now repeat split.
    + right. split; [reflexivity|]. split; [exact Hout|].
      fold (request_world l w).
      destruct (google net (request_world l w) (google_query title author))
        as [reply took] eqn:Hnet.
      simpl.
      destruct reply as [|status_code b].
      * eexists _, None. split; [reflexivity|]. now repeat split.
      * destruct (Z.eqb_spec status_code 429) as [H429|Hnot].
        { eexists _, None. split; [reflexivity|]. now repeat split. }
        destruct (Z.leb_spec 400 status_code) as [Hlo|Hlo];
          [destruct (Z.ltb_spec status_code 600) as [Hhi|Hhi]|]; simpl.
        -- eexists _, None. split; [reflexivity|]. now repeat split.
        -- destruct b as [| |[r|]].
           ++ eexists _, None. split; [reflexivity|]. now repeat split.
           ++ eexists _, None. split; [reflexivity|]. now repeat split.
           ++ eexists _, (Some r). split; [reflexivity|].
              repeat split. intros r' Hr'. inversion Hr'; subst.
              exists status_code. repeat split; [exact Hnot|lia].
           ++ eexists _, None. split; [reflexivity|]. now repeat split.
        -- destruct b as [| |[r|]].
           ++ eexists _, None. split; [reflexivity|]. now repeat split.
           ++ eexists _, None. split; [reflexivity|]. now repeat split.
           ++ eexists _, (Some r). split; [reflexivity|].
              repeat split. intros r' Hr'. inversion Hr'; subst.
              exists status_code. repeat split; [exact Hnot|lia].
           ++ eexists _, None. split; [reflexivity|]. now repeat split.
Qed.

Lemma sent_request_world (l : t) (w : World) :
  sent (request_world l w) = sent w.
Proof.
  unfold request_world.
  now destruct (clock w - last_request_time l <? min_request_interval l).
Qed.

(** X11. A lookup is answered from the cache the second time: whatever
    the first call of [lookup_by_title_author] returned for a title and
    author, every later call for them, at any time and whatever the
    network would say, returns the same outcome without sending a
    request and without changing the lookup.  The first call itself
    sends at most one request. *)
Theorem lookup_answers_from_cache_afterwards :
  forall (net : Net) (l : t) (w : World) (title : string)
         (author : option string),
    let '(l1, w1, r1) := lookup_by_title_author net l w title author in
    (forall (net' : Net) (w' : World),
        lookup_by_title_author net' l1 w' title author = (l1, w', r1))
    /\ (sent w1 = sent w \/ exists q, sent w1 = (sent w ++ [q])%list).
Proof.
  intros net l w title author. unfold lookup_by_title_author.
  destruct (String.eqb (provider l) "openai" && openai_client l)%bool eqn:Hp.
  - destruct (openai_outcome net l w title author)
      as [(v & Hc & ->)|(Hc & v & -> & _)]; cbv zeta.
    + split; [|now left]. intros net' w'. rewrite Hp.
      unfold _lookup_openai. now rewrite Hc.
    + split; [|right; now eexists]. intros net' w'. simpl. rewrite Hp.
      unfold _lookup_openai. simpl. now rewrite lookup_insert_eq.
  - destruct (google_outcome net l w title author)
      as [(v & Hc & ->)|[(Hc & _ & ->)|(Hc & _ & l' & v & -> & Hprov & Hcli & _)]];
      cbv zeta.
    + split; [|now left]. intros net' w'. rewrite Hp.
      now apply google_cached.
    + split; [|now left]. intros net' w'. simpl. rewrite Hp.
      apply google_cached. apply lookup_insert_eq.
    + split; [|right; simpl; rewrite sent_request_world; now eexists].
      intros net' w'. simpl. rewrite Hprov, Hcli, Hp.
      apply google_cached. apply lookup_insert_eq.
Qed.

(** X12. Google Books requests keep their distance: a call of
    [_lookup_google_books] either sends nothing and leaves the time of
    the last request as it was, or sends exactly one request, at a time
    that is at least [min_request_interval] after the time recorded for
    the previous request and not before the call started, and records
    that time as the new time of the last request. *)
Theorem google_requests_are_paced :
  forall (net : Net) (l : t) (w : World) (title : string)
         (author : option string),
    let '(l1, w1, r1) := _lookup_google_books net l w title author in
    min_request_interval l1 = min_request_interval l
    /\ ((sent w1 = sent w /\ last_request_time l1 = last_request_time l)
        \/ (sent w1
            = (sent w ++ [GoogleBooks (google_query title author)])%list
            /\ last_request_time l + min_request_interval l
               <= last_request_time l1
            /\ clock w <= last_request_time l1)).
Proof.
  intros net l w title author.
  destruct (google_outcome net l w title author)
    as [(v & _ & ->)|[(_ & _ & ->)|(_ & _ & l' & v & -> & _ & _ & Hmin & Hlast & _)]];
    cbv zeta.
  - split; [reflexivity|now left].
  - split; [reflexivity|now left].
  - simpl. split; [exact Hmin|]. right. rewrite Hlast.
    split; [now rewrite sent_request_world|]. unfold request_world.
    destruct (Z.ltb_spec (clock w - last_request_time l)
                (min_request_interval l)); simpl; lia.
Qed.

(** X13. A lookup returns a series only from three places: the cache;
    an OpenAI reply that parsed as JSON with a non-empty series name; a
    Google Books reply that is not a 429, not in the error range 400-599
    and carries seriesInfo, received while the provider was not cooling
    down.  Failed calls, unparsable replies, error statuses and replies
    without series data all give no result. *)
Theorem lookup_result_origin :
  forall (net : Net) (l : t) (w : World) (title : string)
         (author : option string) (r : result),
    snd (lookup_by_title_author net l w title author) = Some r ->
    (exists key, cache l !! key = Some (Some r))
    \/ (fst (openai net w title author) = AiJson r
        /\ truthy (series_name r) = true)
    \/ (rate_limited_until l <= clock w
        /\ exists status_code,
             fst (google net (request_world l w) (google_query title author))
             = Http status_code (BodyItem (Some r))
             /\ status_code <> 429
             /\ ~ (400 <= status_code < 600)).
Proof.
  intros net l w title author r. unfold lookup_by_title_author.
  destruct (String.eqb (provider l) "openai" && openai_client l)%bool.
  - destruct (openai_outcome net l w title author)
      as [(v & Hc & ->)|(Hc & v & -> & Hv)]; cbv zeta; simpl; intros ->.
    + left. eexists. exact Hc.
    + right. left. now apply Hv.
  - destruct (google_outcome net l w title author)
      as [(v & Hc & ->)|[(Hc & _ & ->)|(Hc & Hfree & l' & v & -> & _ & _ & _ & _ & Hv)]];
      cbv zeta; simpl; intros Hr.
    + subst v. left. eexists. exact Hc.
    + discriminate.
    + right. right. split; [exact Hfree|]. now apply Hv.
Qed.

End LookupFacts.

Lemma lookup_result_origin_witness :
  snd (SeriesLookup.lookup_by_title_author Sample.throttling
         Sample.google_lookup Sample.noon "Dune" None)
  = Some Sample.dune_chronicles
  /\ ((exists key,
          SeriesLookup.cache Sample.google_lookup !! key
          = Some (Some Sample.dune_chronicles))
      \/ (fst (SeriesLookup.openai Sample.throttling Sample.noon "Dune" None)
          = SeriesLookup.AiJson Sample.dune_chronicles
          /\ Text.truthy (SeriesLookup.series_name Sample.dune_chronicles)
             = true)
      \/ (SeriesLookup.rate_limited_until Sample.google_lookup
          <= SeriesLookup.clock Sample.noon
          /\ exists status_code,
               fst (SeriesLookup.google Sample.throttling
                      (Vocabulary.request_world Sample.google_lookup Sample.noon)
                      (SeriesLookup.google_query "Dune" None))
               = SeriesLookup.Http status_code
                   (SeriesLookup.BodyItem (Some Sample.dune_chronicles))
               /\ status_code <> 429
               /\ ~ (400 <= status_code < 600))).
Proof.
  split; [reflexivity|].
  apply (lookup_result_origin Sample.throttling Sample.google_lookup
           Sample.noon "Dune" None Sample.dune_chronicles).
  reflexivity.
Defined.

(** ** What the title patterns capture *)

Section CaptureFacts.
Import Text Re Extract Vocabulary.

Lemma match_here_walk (re : list item) :
  forall (s : string) (st r : caps),
    match_here re s st = Some r -> walk re s st r.
Proof.
  induction re as [|it re IH]; intros s st r H.
  - simpl in H. injection H as <-. constructor.
  - destruct it as [k|k|greedy lo k|g|g].
    + destruct s as [|c s]; simpl in H; [discriminate|].
      destruct (cls_ok k c) eqn:Hk; [|discriminate].
      constructor; auto.
    + destruct s as [|c s]; simpl in H.
      * apply walk_maybe_skip; auto.
      * destruct (cls_ok k c) eqn:Hk.
        -- destruct (match_here re s st) as [r'|] eqn:Htake.
           ++ injection H as <-. apply walk_maybe_take; auto.
           ++ apply walk_maybe_skip; auto.
        -- apply walk_maybe_skip; auto.
    + cbn [match_here] in H. revert lo H.
      induction s as [|c s IHs]; intros need H.
      * destruct need as [|need]; [|discriminate].
        destruct greedy; simpl in H.
        -- apply walk_many_stop; auto.
        -- destruct (match_here re "" st) as [r'|] eqn:Hstop;
             [|discriminate].
           injection H as <-. apply walk_many_stop; auto.
      * destruct need as [|need].
        -- destruct greedy.
           ++ destruct (cls_ok k c) eqn:Hk.
              ** match type of H with
                 | match ?more with _ => _ end = _ =>
                     destruct more as [r'|] eqn:Hmore
                 end.
                 --- injection H as <-.
                     apply walk_many_step; [exact Hk|].
                     apply IHs. exact Hmore.
                 --- apply walk_many_stop; auto.
              ** apply walk_many_stop; auto.
           ++ destruct (match_here re (String c s) st) as [r'|] eqn:Hstop.
              ** injection H as <-. apply walk_many_stop; auto.
              ** destruct (cls_ok k c) eqn:Hk; [|discriminate].
                 apply walk_many_step; [exact Hk|].
                 apply IHs. exact H.
        -- destruct (cls_ok k c) eqn:Hk; [|discriminate].
           apply walk_many_step; [exact Hk|].
           apply IHs. exact H.
    + simpl in H. constructor; auto.
    + simpl in H. constructor; auto.
Qed.

Lemma string_app_assoc (a b c : string) : (a ++ b) ++ c = a ++ (b ++ c).
Proof.
  induction a as [|x a IH]; [reflexivity|].
  rewrite !append_cons. now rewrite IH.
Qed.

Lemma string_app_length (a b : string) :
  String.length (a ++ b) = (String.length a + String.length b)%nat.
Proof.
  induction a as [|x a IH]; [reflexivity|].
  rewrite append_cons. simpl. now rewrite IH.
Qed.

Lemma take_app (p s : string) :
  take (String.length (p ++ s) - String.length s) (p ++ s) = p.
Proof.
  rewrite string_app_length, Nat.add_sub.
  induction p as [|x p IH]; [now destruct s|].
  rewrite append_cons. simpl. now rewrite IH.
Qed.

Lemma occurs_in_refl (s : string) : occurs_in s s.
Proof. exists "", "". now rewrite append_nil, append_nil_r. Qed.

Lemma occurs_in_trans (p q s : string) :
  occurs_in p q -> occurs_in q s -> occurs_in p s.
Proof.
  intros (a & b & ->) (a' & b' & ->).
  exists (a' ++ a), (b ++ b'). now rewrite !string_app_assoc.
Qed.

Lemma occurs_in_suffix (a s : string) : occurs_in s (a ++ s).
Proof. exists a, "". now rewrite append_nil_r. Qed.

Lemma occurs_in_prefix (s b : string) : occurs_in s (s ++ b).
Proof. exists "", b. now rewrite append_nil. Qed.

(** A repetition takes a run of characters of its class, at least as
    many as it needs. *)
Lemma walk_many_inv (greedy : bool) (k : cls) (re : list item)
    (st r : caps) (s : string) :
  forall lo : nat,
    walk (Many greedy lo k :: re) s st r ->
    exists p s' : string,
      s = p ++ s' /\ (lo <= String.length p)%nat
      /\ every (cls_ok k) p = true /\ walk re s' st r.
Proof.
  induction s as [|c s IH]; intros lo H; inversion H; subst.
  - exists "", "". repeat split; [lia|assumption].
  - exists "", (String c s). repeat split; [simpl; lia|assumption].
  - match goal with
    | Hrest : walk (Many _ _ _ :: _) s _ _ |- _ =>
        destruct (IH _ Hrest) as (p & s' & -> & Hlen & Hall & Hre)
    end.
    exists (String c p), s'. rewrite append_cons. repeat split.
    + simpl. lia.
    + simpl. now rewrite Hall, andb_true_r.
    + exact Hre.
Qed.

(** Matching never goes back in the text. *)
Lemma walk_tail (it : item) (re : list item) (s : string) (st r : caps) :
  walk (it :: re) s st r ->
  exists (a s' : string) (st' : caps), s = a ++ s' /\ walk re s' st' r.
Proof.
  intros H. destruct it as [k|k|greedy lo k|g|g].
  - inversion H; subst. exists (String c ""), s0, st.
    split; [reflexivity|assumption].
  - inversion H; subst.
    + exists (String c ""), s0, st. split; [reflexivity|assumption].
    + exists "", s, st. split; [reflexivity|assumption].
  - destruct (walk_many_inv _ _ _ _ _ _ _ H) as (p & s' & -> & _ & _ & Hre).
    now exists p, s', st.
  - inversion H; subst. exists "", s. eexists. split; [reflexivity|eassumption].
  - inversion H; subst. exists "", s. eexists. split; [reflexivity|eassumption].
Qed.

Lemma walk_skip (pre : list item) :
  forall (re : list item) (s : string) (st r : caps),
    walk (pre ++ re)%list s st r ->
    exists (a s' : string) (st' : caps), s = a ++ s' /\ walk re s' st' r.
Proof.
  induction pre as [|it pre IH]; intros re s st r H.
  - exists "", s, st. split; [reflexivity|exact H].
  - change ((it :: pre) ++ re)%list with (it :: (pre ++ re))%list in H.
    destruct (walk_tail _ _ _ _ _ H) as (a & s1 & st1 & -> & H1).
    destruct (IH _ _ _ _ H1) as (b & s2 & st2 & -> & H2).
    exists (a ++ b), s2, st2. split; [now rewrite string_app_assoc|exact H2].
Qed.

(** Only the closing of a group writes its text. *)
Lemma walk_keeps_group (g : nat) (re : list item) (s : string)
    (st r : caps) :
  walk re s st r ->
  existsb (closes g) re = false ->
  group g r = group g st.
Proof.
  induction 1 as [| | | | | | |g' re s st r Hre IH]; intros Hno;
    try (simpl in Hno; now auto).
  simpl in Hno. apply orb_false_elim in Hno as [Hg Hno].
  rewrite (IH Hno). unfold group, close_group.
  destruct (assoc g' (starts st)); [|reflexivity].
  simpl. now rewrite Hg.
Qed.

Lemma after_open_spec (g : nat) (re : list item) :
  forall tl : list item,
    after_open g re = Some tl ->
    exists pre : list item, re = (pre ++ Open g :: tl)%list.
Proof.
  induction re as [|it re IH]; intros tl H; [discriminate|].
  destruct it as [k|k|greedy lo k|g'|g']; simpl in H.
  - destruct (IH _ H) as (pre & ->). now exists (One k :: pre).
  - destruct (IH _ H) as (pre & ->). now exists (Maybe k :: pre).
  - destruct (IH _ H) as (pre & ->). now exists (Many greedy lo k :: pre).
  - destruct (Nat.eqb_spec g' g) as [->|Hne].
    + injection H as <-. now exists [].
    + destruct (IH _ H) as (pre & ->). now exists (Open g' :: pre).
  - destruct (IH _ H) as (pre & ->). now exists (Close g' :: pre).
Qed.

(** A group that is one repetition of a class holds, after a match, a
    non-empty piece of the text made of characters of the class. *)
Lemma walk_group (g : nat) (k : cls) (re : list item) (s : string)
    (st r : caps) :
  group_class g re = Some k ->
  walk re s st r ->
  exists p : string,
    group g r = Some p /\ nonempty p = true
    /\ every (cls_ok k) p = true /\ occurs_in p s.
Proof.
  unfold group_class. intros Hshape Hwalk.
  destruct (after_open g re) as [tl|] eqn:Htl; [|discriminate].
  destruct tl as [|[| |greedy [|lo] k'| |] [|[| | | |g'] post]];
    try discriminate.
  destruct (Nat.eqb_spec g' g) as [->|]; [|discriminate].
  destruct (existsb (closes g) post) eqn:Hpost; [discriminate|].
  simpl in Hshape. injection Hshape as ->.
  destruct (after_open_spec _ _ _ Htl) as (pre & ->).
  destruct (walk_skip _ _ _ _ _ Hwalk) as (a & s1 & st1 & -> & H1).
  inversion H1 as [| | | | | |? ? ? ? ? H2|]; subst.
  destruct (walk_many_inv _ _ _ _ _ _ _ H2)
    as (p & s2 & -> & Hlen & Hall & H3).
  inversion H3 as [| | | | | | |? ? ? ? ? H4]; subst.
  exists p. repeat split.
  - rewrite (walk_keeps_group _ _ _ _ _ H4 Hpost).
    unfold group, close_group, open_group. simpl.
    rewrite Nat.eqb_refl. simpl. rewrite Nat.eqb_refl.
    now rewrite take_app.
  - destruct p; [simpl in Hlen; lia|reflexivity].
  - exact Hall.
  - exists a, s2. reflexivity.
Qed.

Lemma search_spec (re : list item) (s : string) (r : caps) :
  search re s = Some r ->
  exists a s' : string, s = a ++ s' /\ match_here re s' no_caps = Some r.
Proof.
  induction s as [|c s IH]; simpl; intros H.
  - destruct (match_here re "" no_caps) as [r'|] eqn:Hhere;
      [|discriminate].
    injection H as <-. exists "", "". now split.
  - destruct (match_here re (String c s) no_caps) as [r'|] eqn:Hhere.
    + injection H as <-. exists "", (String c s). now split.
    + destruct (IH H) as (a & s' & -> & Hm).
      exists (String c a), s'. now split.
Qed.

Lemma first_match_in (title : string) (ps : list string) :
  forall res : option string * option string,
    first_match ps title = Some res ->
    exists (p : string) (m : caps),
      In p ps /\ re_search p title = Some m /\ res = captures m.
Proof.
  induction ps as [|q ps IH]; intros res H; [discriminate|].
  simpl in H. destruct (re_search q title) as [m|] eqn:Hq.
  - injection H as <-. exists q, m. repeat split; [now left|exact Hq].
  - destruct (IH _ H) as (p & m & Hin & Hp & ->).
    exists p, m. repeat split; [now right|exact Hp].
Qed.

(** Every title pattern has two groups of that kind, and the second is
    [\d+]. *)
Lemma title_pattern_shapes (p : string) :
  In p title_patterns ->
  group_class 2 (compile p) = Some CDigit
  /\ exists k : cls, group_class 1 (compile p) = Some k.
Proof.
  unfold title_patterns, parenthetical_patterns, series_patterns.
  intros Hin. simpl in Hin.
  repeat (destruct Hin as [<-|Hin];
          [split; [reflexivity|eexists; reflexivity]|]).
  destruct Hin.
Qed.

Lemma digit_not_space (c : ascii) : is_digit c = true -> is_space c = false.
Proof.
  unfold is_digit, is_space, between. intros H.
  apply andb_true_iff in H as [Hlo Hhi].
  apply N.leb_le in Hlo. apply N.leb_le in Hhi.
  apply orb_false_intro; apply andb_false_iff.
  - right. apply N.leb_gt. lia.
  - right. apply N.leb_gt. lia.
Qed.

Lemma strip_digits (p : string) : every is_digit p = true -> strip p = p.
Proof.
  intros H. unfold strip.
  assert (Hl : lstrip p = p).
  { destruct p as [|c p]; [reflexivity|]. simpl in H.
    apply andb_true_iff in H as [Hc _]. simpl.
    now rewrite (digit_not_space _ Hc). }
  rewrite Hl. clear Hl.
  induction p as [|c p IH]; [reflexivity|].
  simpl in H. apply andb_true_iff in H as [Hc Hp].
  simpl. rewrite (IH Hp). destruct p; [|reflexivity].
  now rewrite (digit_not_space _ Hc).
Qed.

Lemma lstrip_suffix (s : string) : exists a : string, s = a ++ lstrip s.
Proof.
  induction s as [|c s (a & IH)]; [now exists ""|].
  simpl. destruct (is_space c).
  - exists (String c a). rewrite append_cons. now rewrite <- IH.
  - now exists "".
Qed.

Lemma rstrip_prefix (s : string) : exists b : string, s = rstrip s ++ b.
Proof.
  induction s as [|c s (b & IH)]; [now exists ""|].
  simpl. destruct (rstrip s) as [|d r] eqn:Hr.
  - destruct (is_space c).
    + exists (String c s). reflexivity.
    + exists s. reflexivity.
  - exists b. rewrite append_cons. now rewrite <- IH.
Qed.

Lemma strip_occurs (s : string) : occurs_in (strip s) s.
Proof.
  unfold strip.
  destruct (lstrip_suffix s) as (a & Ha).
  destruct (rstrip_prefix (lstrip s)) as (b & Hb).
  exists a, b. now rewrite <- Hb.
Qed.

Lemma lstrip_fixed (s : string) : lstrip (lstrip s) = lstrip s.
Proof.
  induction s as [|c s IH]; [reflexivity|].
  simpl. destruct (is_space c) eqn:Hc; [exact IH|].
  simpl. now rewrite Hc.
Qed.

Lemma rstrip_fixed (s : string) : rstrip (rstrip s) = rstrip s.
Proof.
  induction s as [|c s IH]; [reflexivity|].
  simpl. destruct (rstrip s) as [|d r] eqn:Hr.
  - destruct (is_space c) eqn:Hc; [reflexivity|].
    simpl. now rewrite Hc.
  - change (rstrip (String c (String d r)))
      with (match rstrip (String d r) with
            | EmptyString =>
                if is_space c then EmptyString else String c EmptyString
            | r' => String c r'
            end).
    now rewrite IH.
Qed.

Lemma lstrip_rstrip (s : string) :
  lstrip s = s -> lstrip (rstrip s) = rstrip s.
Proof.
  destruct s as [|c s]; [reflexivity|].
  simpl. destruct (is_space c) eqn:Hc.
  - intros H. exfalso.
    destruct (lstrip_suffix s) as (a & Ha).
    rewrite H in Ha.
    apply (f_equal String.length) in Ha.
    rewrite string_app_length in Ha. simpl in Ha. lia.
  - intros _. destruct (rstrip s); simpl; now rewrite Hc.
Qed.

Lemma strip_stripped (s : string) : stripped (strip s).
Proof.
  unfold stripped, strip.
  rewrite (lstrip_rstrip (lstrip s) (lstrip_fixed s)).
  apply rstrip_fixed.
Qed.

(** X14. What [extract_series_info] returns for a title in ASCII is
    taken from the title: it is either (None, None), or a series name
    and a series index that both occur in the title as written; the
    name has no white space at either end (it can be empty), and the
    index is a non-empty run of the digits 0-9. *)
Theorem extracted_parts_come_from_title :
  forall title : string,
    ascii_text title = true ->
    extract_series_info title = (None, None)
    \/ exists name index : string,
         extract_series_info title = (Some name, Some index)
         /\ occurs_in name title /\ stripped name
         /\ occurs_in index title
         /\ nonempty index = true /\ every is_digit index = true.
Proof.
  intros title _.
  assert (Hpat : forall ps res,
             (forall p, In p ps -> In p title_patterns) ->
             first_match ps title = Some res ->
             exists name index : string,
               res = (Some name, Some index)
               /\ occurs_in name title /\ stripped name
               /\ occurs_in index title
               /\ nonempty index = true /\ every is_digit index = true).
  { intros ps res Hsub Hfirst.
    destruct (first_match_in _ _ _ Hfirst) as (p & m & Hin & Hm & ->).
    destruct (title_pattern_shapes p (Hsub p Hin)) as (H2 & k & H1).
    destruct (search_spec _ _ _ Hm) as (a & s' & -> & Hhere).
    apply match_here_walk in Hhere.
    destruct (walk_group _ _ _ _ _ _ H1 Hhere) as (n & Hn & _ & _ & Hnin).
    destruct (walk_group _ _ _ _ _ _ H2 Hhere) as (i & Hi & Hne & Hdig & Hiin).
    exists (strip n), i. unfold captures. rewrite Hn, Hi. simpl.
    change (every (cls_ok CDigit) i) with (every is_digit i) in Hdig.
    rewrite (strip_digits _ Hdig). repeat split.
    - apply (occurs_in_trans _ n); [apply strip_occurs|].
      apply (occurs_in_trans _ s'); [exact Hnin|apply occurs_in_suffix].
    - apply strip_stripped.
    - apply (occurs_in_trans _ s'); [exact Hiin|apply occurs_in_suffix].
    - exact Hne.
    - exact Hdig. }
  unfold extract_series_info.
  destruct (negb (nonempty title)); [now left|].
  destruct (first_match parenthetical_patterns title) as [res|] eqn:Hpar.
  - right. apply (Hpat parenthetical_patterns); [|exact Hpar].
    intros p Hin. unfold title_patterns. apply in_or_app. now left.
  - destruct (first_match series_patterns title) as [res|] eqn:Hser;
      [|now left].
    right. apply (Hpat series_patterns); [|exact Hser].
    intros p Hin. unfold title_patterns. apply in_or_app. now right.
Qed.

End CaptureFacts.

Lemma extracted_parts_come_from_title_witness :
  Vocabulary.ascii_text Sample.stormbreaker = true
  /\ Extract.extract_series_info Sample.stormbreaker
     = (Some "Alex Rider", Some "1")
  /\ (Extract.extract_series_info Sample.stormbreaker = (None, None)
      \/ exists name index : string,
           Extract.extract_series_info Sample.stormbreaker
           = (Some name, Some index)
           /\ Vocabulary.occurs_in name Sample.stormbreaker
           /\ Vocabulary.stripped name
           /\ Vocabulary.occurs_in index Sample.stormbreaker
           /\ Text.nonempty index = true
           /\ Vocabulary.every Text.is_digit index = true).
Proof.
  split; [reflexivity|]. split; [vm_compute; reflexivity|].
  apply (extracted_parts_come_from_title Sample.stormbreaker).
  reflexivity.
Defined.

(** ** The configuration *)

Section ConfigFacts.
Import ConfigManager Vocabulary.
Context {A : Type}.








End ConfigFacts.



(** ** The configuration as objects *)

Section StoreFacts.
Import ConfigStore Vocabulary.
Context {A : Type}.

Lemma store_lookup_assign (key : string) (v : value A) (d : dict A) :
  lookup key (assign key v d) = Some v.
Proof.
  induction d as [|[k x] d IH]; simpl.
  - now rewrite String.eqb_refl.
  - destruct (String.eqb k key) eqn:Hk; simpl; now rewrite Hk.
Qed.












End StoreFacts.


(** A dict stored under a second key is the same dict: an assignment
    through one key path is read through the other.  Here
    [set('backup', get('plex'))] is followed by [set('backup.url', 'x')],
    and [get('plex.url')] reads the entry that was assigned. *)
Lemma shared_dict_is_written_through :
  exists c1 c2 : @ConfigStore.t ConfigManager.scalar,
    ConfigStore.set ConfigStore.init "backup"
      (ConfigStore.get ConfigStore.init "plex"
         (ConfigStore.Leaf (ConfigManager.Str ""))) = Some c1
    /\ ConfigStore.set c1 "backup.url"
         (ConfigStore.Leaf (ConfigManager.Str "x")) = Some c2
    /\ ConfigStore.get c1 "plex.url" (ConfigStore.Leaf (ConfigManager.Str ""))
       = ConfigStore.Leaf (ConfigManager.Str "")
    /\ ConfigStore.get c2 "plex.url" (ConfigStore.Leaf (ConfigManager.Str ""))
       = ConfigStore.Leaf (ConfigManager.Str "x")
    /\ Vocabulary.assigned (ConfigStore.objects c1)
         (ConfigManager.split "." "backup.url") (ConfigStore.config c1)
       = Some (0%nat, "url")
    /\ In (0%nat, "url")
         (Vocabulary.reads (ConfigStore.objects c1)
            (ConfigManager.split "." "plex.url")
            (ConfigStore.Ref (ConfigStore.config c1))).
Proof.
  eexists. eexists.
  split; [vm_compute; reflexivity|].
  split; [vm_compute; reflexivity|].
  split; [vm_compute; reflexivity|].
  split; [vm_compute; reflexivity|].
  split; [vm_compute; reflexivity|].
  vm_compute. right. left. reflexivity.
Qed.
